(** * poissonregime: significances and credible intervals for Poisson counts

    A shallow embedding of [poissonregime.py] (version 0.5.1) and the
    properties of its six functions.

    Numbers.  The module computes with Python ints, Python floats and numpy
    scalars and arrays.  Integers are mathematical integers ([Z]): the
    wrap-around of numpy's 64-bit integers is outside the model, and the
    statements about the values computed from numpy integers ask for
    integers that stay in the range of [int64].  A double is either a real
    number or one of the three IEEE special values; finite arithmetic is
    exact, so rounding, overflow to infinity and the sign of zero are
    outside the model, and the statements on how results are ordered are
    the ones that survive rounding (not larger, not smaller).  The special
    values are kept because the source relies on them: a comparison with
    NaN is false, and numpy divides by zero without raising where Python
    raises [ZeroDivisionError].

    Types.  The numpy integers of [pyval] are of type [int64], the dtype
    that passes the assertion [k.dtype == int]; [integer_assertion] reads
    that assertion on the type, where an array of another integer dtype
    fails it.  Of the exceptions, [ZeroDivisionError] is an
    [ArithmeticError], as in Python ([is_ArithmeticError]).

    Shapes.  An array is one-dimensional; a numpy scalar stands for a 0-d
    array as well.  Two operands broadcast when their lengths agree or one
    of them has length 1, and fail with [ValueError] otherwise.  The truth
    value of an array, which [if k < 0] asks for, exists for one element,
    is [False] for none and is a [ValueError] for two or more.

    Tests.  The two property tests of [tests/test_funcs.py] that do not
    compare doubles up to a tolerance, [test_rate] and [test_fraction], are
    embedded as well.

    Collaborators.  The special functions of scipy and the Li & Ma primitive
    of [gamma_limits_sensitivity] are not part of the repository.  They are
    the fields of a record [externals]; what the properties need of them is the
    contract [contract], stated against the mathematical functions they
    compute, and [reference] is a backend that meets the contract. *)

From Stdlib Require Import Reals Lra Lia ZArith List Bool Arith.
From Stdlib Require Import IndefiniteDescription.
Import ListNotations.

Local Open Scope R_scope.

(** ** Doubles *)

Inductive f64 : Type :=
| Fin (x : R)
| PInf
| NInf
| NaN.

Definition Rltb (x y : R) : bool := if Rlt_dec x y then true else false.
Definition Rleb (x y : R) : bool := if Rle_dec x y then true else false.
Definition Reqb (x y : R) : bool := if Req_dec_T x y then true else false.

Definition fneg (a : f64) : f64 :=
  match a with
  | Fin x => Fin (- x)
  | PInf => NInf
  | NInf => PInf
  | NaN => NaN
  end.

Definition fadd (a b : f64) : f64 :=
  match a, b with
  | NaN, _ | _, NaN => NaN
  | Fin x, Fin y => Fin (x + y)
  | PInf, NInf | NInf, PInf => NaN
  | PInf, _ | _, PInf => PInf
  | NInf, _ | _, NInf => NInf
  end.

Definition fsub (a b : f64) : f64 := fadd a (fneg b).

(** The infinity with the sign of [x], or NaN when [x] is zero. *)
Definition inf_signed (x : R) (pos : bool) : f64 :=
  if Reqb x 0 then NaN
  else if Bool.eqb (Rltb 0 x) pos then PInf else NInf.

Definition fmul (a b : f64) : f64 :=
  match a, b with
  | NaN, _ | _, NaN => NaN
  | Fin x, Fin y => Fin (x * y)
  | Fin x, PInf | PInf, Fin x => inf_signed x true
  | Fin x, NInf | NInf, Fin x => inf_signed x false
  | PInf, PInf | NInf, NInf => PInf
  | PInf, NInf | NInf, PInf => NInf
  end.

(** numpy's true division: a finite number over zero is an infinity, zero
    over zero is NaN. *)
Definition fdiv (a b : f64) : f64 :=
  match a, b with
  | NaN, _ | _, NaN => NaN
  | Fin x, Fin y => if Reqb y 0 then inf_signed x true else Fin (x / y)
  | Fin _, PInf | Fin _, NInf => Fin 0
  | PInf, Fin y => if Reqb y 0 then PInf else inf_signed y true
  | NInf, Fin y => if Reqb y 0 then NInf else inf_signed y false
  | _, _ => NaN
  end.

Definition flt (a b : f64) : bool :=
  match a, b with
  | NaN, _ | _, NaN => false
  | Fin x, Fin y => Rltb x y
  | NInf, NInf | PInf, _ => false
  | NInf, _ => true
  | Fin _, PInf => true
  | Fin _, NInf => false
  end.

Definition fle (a b : f64) : bool :=
  match a, b with
  | NaN, _ | _, NaN => false
  | Fin x, Fin y => Rleb x y
  | NInf, _ => true
  | _, PInf => true
  | PInf, _ => false
  | Fin _, NInf => false
  end.

Definition fgt (a b : f64) : bool := flt b a.
Definition fge (a b : f64) : bool := fle b a.

Definition of_Z (z : Z) : f64 := Fin (IZR z).

(** [np.finfo(float).tiny], the smallest positive normal double. *)
Definition tiny_R : R := / 2 ^ 1022.
Definition tiny : f64 := Fin tiny_R.

(** ** Python values *)

(** A Python [int] or [float], a numpy scalar of type [int64] or [float64],
    or a numpy array of dtype [int64] (numpy's default integer: the dtype
    that compares equal to [int]) or [float64].  Arrays and scalars of the
    narrower integer types are not values of [pyval]. *)
Inductive pyval : Type :=
| PyInt (z : Z)
| PyFloat (x : f64)
| NpInt (z : Z)
| NpFloat (x : f64)
| NdInt (a : list Z)
| NdFloat (a : list f64).

(** A Python scalar, a numpy scalar (or 0-d array), or a 1-d numpy array. *)
Inductive kind : Type := KPy | KNp | KNd.

Definition kind_of (v : pyval) : kind :=
  match v with
  | PyInt _ | PyFloat _ => KPy
  | NpInt _ | NpFloat _ => KNp
  | NdInt _ | NdFloat _ => KNd
  end.

(** The kind of the result of an operation on operands of two kinds. *)
Definition join (a b : kind) : kind :=
  match a, b with
  | KNd, _ | _, KNd => KNd
  | KPy, KPy => KPy
  | _, _ => KNp
  end.

(** What numpy makes of a value handed to a ufunc. *)
Definition np_kind (k : kind) : kind :=
  match k with KPy => KNp | _ => k end.

Definition zdata (v : pyval) : option (list Z) :=
  match v with
  | PyInt z | NpInt z => Some [z]
  | NdInt a => Some a
  | _ => None
  end.

Definition fdata (v : pyval) : list f64 :=
  match v with
  | PyInt z | NpInt z => [of_Z z]
  | PyFloat x | NpFloat x => [x]
  | NdInt a => map of_Z a
  | NdFloat a => a
  end.

Definition of_ints (k : kind) (l : list Z) : pyval :=
  match k, l with
  | KPy, [z] => PyInt z
  | KNp, [z] => NpInt z
  | _, _ => NdInt l
  end.

Definition of_floats (k : kind) (l : list f64) : pyval :=
  match k, l with
  | KPy, [x] => PyFloat x
  | KNp, [x] => NpFloat x
  | _, _ => NdFloat l
  end.

(** The result of a comparison: a bool, or an array of bools. *)
Inductive cmpval : Type :=
| BScalar (b : bool)
| BArray (a : list bool).

(** ** Exceptions *)

Inductive exn : Type :=
| ArithmeticError
| AssertionError
| ZeroDivisionError
| ValueError.

Inductive result (A : Type) : Type :=
| Ok (a : A)
| Err (e : exn).

Arguments Ok {A} a.
Arguments Err {A} e.

Definition bind {A B : Type} (r : result A) (f : A -> result B) : result B :=
  match r with
  | Ok a => f a
  | Err e => Err e
  end.

Notation "x <- e1 ;; e2" := (bind e1 (fun x => e2))
  (at level 61, e1 at next level, right associativity).

Definition py_assert (c : bool) : result unit :=
  if c then Ok tt else Err AssertionError.

(** Python's classes of these four exceptions: [ZeroDivisionError] is a
    subclass of [ArithmeticError], so that [except ArithmeticError] catches
    both; [AssertionError] and [ValueError] are not. *)
Definition is_ArithmeticError (e : exn) : bool :=
  match e with
  | ArithmeticError | ZeroDivisionError => true
  | AssertionError | ValueError => false
  end.

(** ** numpy broadcasting and arithmetic *)

(** Two 1-d shapes broadcast when they are equal or one of them is 1. *)
Definition bcast {A B : Type} (l1 : list A) (l2 : list B)
  : option (list (A * B)) :=
  if Nat.eqb (length l1) (length l2) then Some (combine l1 l2)
  else match l1, l2 with
       | [a], _ => Some (map (fun b => (a, b)) l2)
       | _, [b] => Some (map (fun a => (a, b)) l1)
       | _, _ => None
       end.

Definition broadcast {A B : Type} (l1 : list A) (l2 : list B)
  : result (list (A * B)) :=
  match bcast l1 l2 with
  | Some l => Ok l
  | None => Err ValueError
  end.

Definition uncurry {A B C : Type} (f : A -> B -> C) (p : A * B) : C :=
  f (fst p) (snd p).

(** [+], [-] and [*]: integers stay integers, anything else is computed in
    doubles.  None of them raises on numbers, except for shapes that do not
    broadcast. *)
Definition arith (fz : Z -> Z -> Z) (ff : f64 -> f64 -> f64) (a b : pyval)
  : result pyval :=
  let k := join (kind_of a) (kind_of b) in
  match zdata a, zdata b with
  | Some la, Some lb =>
      l <- broadcast la lb ;; Ok (of_ints k (map (uncurry fz) l))
  | _, _ =>
      l <- broadcast (fdata a) (fdata b) ;;
      Ok (of_floats k (map (uncurry ff) l))
  end.

Definition py_add : pyval -> pyval -> result pyval := arith Z.add fadd.
Definition py_sub : pyval -> pyval -> result pyval := arith Z.sub fsub.
Definition py_mul : pyval -> pyval -> result pyval := arith Z.mul fmul.

Definition is_zero (v : pyval) : bool :=
  match v with
  | PyInt z | NpInt z => Z.eqb z 0
  | PyFloat (Fin x) | NpFloat (Fin x) => Reqb x 0
  | _ => false
  end.

(** [/]: between two Python scalars a zero divisor raises; as soon as numpy
    is involved the division follows IEEE. *)
Definition py_div (a b : pyval) : result pyval :=
  match kind_of a, kind_of b with
  | KPy, KPy =>
      if is_zero b then Err ZeroDivisionError
      else Ok (of_floats KPy (map (uncurry fdiv) (combine (fdata a) (fdata b))))
  | ka, kb =>
      l <- broadcast (fdata a) (fdata b) ;;
      Ok (of_floats (join ka kb) (map (uncurry fdiv) l))
  end.

(** Unary minus. *)
Definition py_neg (a : pyval) : pyval :=
  match a with
  | PyInt z => PyInt (- z)
  | PyFloat x => PyFloat (fneg x)
  | NpInt z => NpInt (- z)
  | NpFloat x => NpFloat (fneg x)
  | NdInt l => NdInt (map Z.opp l)
  | NdFloat l => NdFloat (map fneg l)
  end.

(** A comparison of two numbers or arrays. *)
Definition compare (c : f64 -> f64 -> bool) (a b : pyval) : result cmpval :=
  l <- broadcast (fdata a) (fdata b) ;;
  match join (kind_of a) (kind_of b), map (uncurry c) l with
  | KNd, r => Ok (BArray r)
  | _, [x] => Ok (BScalar x)
  | _, r => Ok (BArray r)
  end.

Definition py_lt : pyval -> pyval -> result cmpval := compare flt.
Definition py_le : pyval -> pyval -> result cmpval := compare fle.
Definition py_gt : pyval -> pyval -> result cmpval := compare fgt.
Definition py_ge : pyval -> pyval -> result cmpval := compare fge.

(** [bool(x)], as an [if] takes it: an array of two or more elements has no
    truth value; an empty one is false. *)
Definition truth (c : cmpval) : result bool :=
  match c with
  | BScalar b => Ok b
  | BArray [] => Ok false
  | BArray [b] => Ok b
  | BArray _ => Err ValueError
  end.

Definition cmp_data (c : cmpval) : list bool :=
  match c with
  | BScalar b => [b]
  | BArray a => a
  end.

Definition np_any (c : cmpval) : bool := existsb (fun b => b) (cmp_data c).
Definition np_all (c : cmpval) : bool := forallb (fun b => b) (cmp_data c).

(** [np.where(c, x, y)] for two integer constants. *)
Definition np_where (c : cmpval) (x y : Z) : pyval :=
  match c with
  | BScalar b => NpInt (if b then x else y)
  | BArray a => NdInt (map (fun b : bool => if b then x else y) a)
  end.

(** ** ufuncs *)

Definition ufunc1 (f : f64 -> f64) (a : pyval) : pyval :=
  of_floats (np_kind (kind_of a)) (map f (fdata a)).

Definition ufunc2 (f : f64 -> f64 -> f64) (a b : pyval) : result pyval :=
  l <- broadcast (fdata a) (fdata b) ;;
  Ok (of_floats (np_kind (join (kind_of a) (kind_of b)))
        (map (uncurry f) l)).

Definition ufunc3 (f : f64 -> f64 -> f64 -> f64) (a b c : pyval)
  : result pyval :=
  l <- broadcast (fdata a) (fdata b) ;;
  m <- broadcast l (fdata c) ;;
  Ok (of_floats (np_kind (join (join (kind_of a) (kind_of b)) (kind_of c)))
        (map (fun p => f (fst (fst p)) (snd (fst p)) (snd p)) m)).

Definition ufunc4 (f : f64 -> f64 -> f64 -> f64 -> f64) (a b c d : pyval)
  : result pyval :=
  l <- broadcast (fdata a) (fdata b) ;;
  m <- broadcast l (fdata c) ;;
  n <- broadcast m (fdata d) ;;
  Ok (of_floats
        (np_kind (join (join (join (kind_of a) (kind_of b)) (kind_of c))
                    (kind_of d)))
        (map (fun p => f (fst (fst (fst p))) (snd (fst (fst p)))
                         (snd (fst p)) (snd p)) n)).

(** ** The collaborators *)

(** scipy's special functions and distributions act on doubles, element by
    element; [li_ma_significance] is a function of the three values it is
    given. *)
Record externals : Type := {
  ndtr : f64 -> f64;
  ndtri : f64 -> f64;
  poisson_sf : f64 -> f64 -> f64;
  poisson_pmf : f64 -> f64 -> f64;
  hyperu : f64 -> f64 -> f64 -> f64;
  hyp2f1 : f64 -> f64 -> f64 -> f64 -> f64;
  gamma : f64 -> f64;
  gammainccinv : f64 -> f64 -> f64;
  betaincinv : f64 -> f64 -> f64 -> f64;
  li_ma_significance : pyval -> pyval -> pyval -> pyval
}.

(** ** The module *)

(** [np.asarray] of a number: a 0-d array. *)
Definition np_asarray (v : pyval) : pyval :=
  match v with
  | PyInt z => NpInt z
  | PyFloat x => NpFloat x
  | _ => v
  end.

(** [isinstance(k, (int, np.integer)) or
     isinstance(k, np.ndarray) and k.dtype == int] *)
Definition is_integer_typed (v : pyval) : bool :=
  match v with
  | PyInt _ | NpInt _ | NdInt _ => true
  | _ => false
  end.

(** The same test read on the type of [k].  A scalar passes with any of
    numpy's integer types, an array only with the dtype [int] itself: an
    array of dtype [int32], say, fails the assertion. *)
Inductive dtype : Type :=
| Int8 | Int16 | Int32 | Int64
| UInt8 | UInt16 | UInt32 | UInt64
| Float32 | Float64.

Inductive pytype : Type :=
| TInt
| TFloat
| TScalar (d : dtype)
| TArray (d : dtype).

(** [issubclass(d, np.integer)] *)
Definition np_integer (d : dtype) : bool :=
  match d with
  | Float32 | Float64 => false
  | _ => true
  end.

(** [d == int] *)
Definition dtype_is_int (d : dtype) : bool :=
  match d with
  | Int64 => true
  | _ => false
  end.

Definition integer_assertion (t : pytype) : bool :=
  match t with
  | TInt => true
  | TFloat => false
  | TScalar d => np_integer d
  | TArray d => dtype_is_int d
  end.

Definition type_of (v : pyval) : pytype :=
  match v with
  | PyInt _ => TInt
  | PyFloat _ => TFloat
  | NpInt _ => TScalar Int64
  | NpFloat _ => TScalar Float64
  | NdInt _ => TArray Int64
  | NdFloat _ => TArray Float64
  end.

(** The range of [int64], [-2^63] to [2^63 - 1], and [2^62 - 1].  The
    arithmetic of this file is that of the integers: it is numpy's as long
    as no result leaves the range of [int64], which the statements about
    numpy integers ask for. *)
Definition int64_min : Z := -9223372036854775808.
Definition int64_max : Z := 9223372036854775807.
Definition int64_half : Z := 4611686018427387903.

(** An integer or an array of integers, all of them from [lo] to [hi]. *)
Definition within (lo hi : Z) (v : pyval) : Prop :=
  exists l, zdata v = Some l /\ Forall (fun z => (lo <= z <= hi)%Z) l.

(** A Python int beyond the largest double does not convert to a double:
    Python raises [OverflowError] there, an error the model leaves out.
    The statements on the errors a call can end in ask for Python ints
    from [-2^1023] to [2^1023]. *)
Definition double_range (v : pyval) : Prop :=
  forall z, v = PyInt z -> (- 2 ^ 1023 <= z <= 2 ^ 1023)%Z.

Section Poissonregime.

Variable S : externals.

Definition significance_from_pvalue (pvalue : pyval) : result pyval :=
  c <- py_le pvalue (NpFloat tiny) ;;
  if np_any c then Err ArithmeticError
  else Ok (py_neg (ufunc1 (ndtri S) pvalue)).

Definition pvalue_from_significance (zscore : pyval) : pyval :=
  ufunc1 (ndtr S) (py_neg (np_asarray zscore)).

Definition significance (n b alpha k : pyval) : result pyval :=
  c <- py_lt k (PyInt 0) ;;
  t <- truth c ;;
  if t then
    mu <- py_mul alpha b ;;
    p <- ufunc2 (poisson_sf S) n mu ;;
    significance_from_pvalue p
  else
    ab <- py_mul alpha b ;;
    c <- py_ge n ab ;;
    let sign := np_where c 1 (-1) in
    k1 <- py_add k (PyInt 1) ;;
    a <- py_mul alpha k1 ;;
    py_mul sign (li_ma_significance S n b a).

Definition posterior (rate n b alpha exposure : pyval) : result pyval :=
  nexp <- py_mul exposure rate ;;
  t_0 <- py_add (PyInt 1) b ;;
  t_1 <- py_add t_0 n ;;
  hb <- py_add (PyFloat (Fin (1 / 2))) b ;;
  thb <- py_add (PyFloat (Fin (3 / 2))) b ;;
  nb <- py_add n b ;;
  pmf <- ufunc2 (poisson_pmf S) nb nexp ;;
  ia <- py_div (PyFloat (Fin 1)) alpha ;;
  opa <- py_add (PyInt 1) ia ;;
  x <- py_mul opa nexp ;;
  u <- ufunc3 (hyperu S) hb t_1 x ;;
  pu <- py_mul pmf u ;;
  z <- py_div (PyInt (-1)) alpha ;;
  f <- ufunc4 (hyp2f1 S) hb t_1 thb z ;;
  q <- py_div pu f ;;
  py_mul q (ufunc1 (gamma S) thb).

(** The default quantiles: the median and the two 1 sigma quantiles. *)
Definition default_q : pyval := pvalue_from_significance (NdInt [0; -1; 1]%Z).

Definition uncertainties_rate (k q exposure : pyval) : result pyval :=
  _ <- py_assert (is_integer_typed k) ;;
  c <- py_gt q (PyInt 0) ;;
  _ <- py_assert (np_all c) ;;
  c <- py_lt q (PyInt 1) ;;
  _ <- py_assert (np_all c) ;;
  k1 <- py_add k (PyInt 1) ;;
  g <- ufunc2 (gammainccinv S) k1 q ;;
  py_div g exposure.

Definition uncertainties_fraction (k n q : pyval) : result pyval :=
  _ <- py_assert (is_integer_typed k) ;;
  _ <- py_assert (is_integer_typed n) ;;
  c <- py_le k n ;;
  _ <- py_assert (np_all c) ;;
  c <- py_gt q (PyInt 0) ;;
  _ <- py_assert (np_all c) ;;
  c <- py_lt q (PyInt 1) ;;
  _ <- py_assert (np_all c) ;;
  k1 <- py_add k (PyInt 1) ;;
  n1 <- py_add n (PyInt 1) ;;
  nk <- py_sub n1 k ;;
  ufunc3 (betaincinv S) k1 nk q.

End Poissonregime.

(** ** The property tests of [tests/test_funcs.py] *)

(** How a run of a property test ends when nothing is raised: it passes, or
    an [assume] discards the input. *)
Inductive verdict : Type := Passed | Discarded.

(** [assume(c)]: go on, or discard the input. *)
Definition assume (c : bool) (rest : result verdict) : result verdict :=
  if c then rest else Ok Discarded.

(** The strategies the tests draw from:
    [countstrategy = st.integers(min_value=0, max_value=100000000)],
    [probstrategy = st.floats(allow_nan=False, allow_infinity=False,
    min_value=0, max_value=1)], and for [k] one of [countstrategy] and
    [arrays(int, shape=array_shapes(), elements=countstrategy)]: a Python
    int or a non-empty array of dtype [int], of counts up to [10^8]. *)
Definition countstrategy (z : Z) : Prop := (0 <= z <= 100000000)%Z.

Definition probstrategy (x : f64) : Prop := exists r, x = Fin r /\ 0 <= r <= 1.

Definition counts (k : pyval) : Prop :=
  (exists z, k = PyInt z /\ countstrategy z)
  \/ (exists l, k = NdInt l /\ l <> [] /\ Forall countstrategy l).

(** [twointstrategy] and [twoarraystrategy]: two counts, or two arrays of
    counts of one shape. *)
Definition count_pairs (k kmore : pyval) : Prop :=
  (exists a b, k = PyInt a /\ kmore = PyInt b
               /\ countstrategy a /\ countstrategy b)
  \/ (exists la lb, k = NdInt la /\ kmore = NdInt lb
                    /\ la <> [] /\ length la = length lb
                    /\ Forall countstrategy la /\ Forall countstrategy lb).

(** [test_rate(k, q)], given [k] from [counts] and [q] from [probstrategy];
    [exposure] is left at its default 1.0. *)
Definition test_rate (S : externals) (k q : pyval) : result verdict :=
  c <- py_gt q (PyInt 0) ;;
  assume (np_all c)
    (c <- py_lt q (PyInt 1) ;;
     assume (np_all c)
       (frac <- uncertainties_rate S k q (PyFloat (Fin 1)) ;;
        c <- py_gt frac (PyInt 0) ;;
        _ <- py_assert (np_all c) ;;
        Ok Passed)).

(** [test_fraction((k, kmore, q))], given [(k, kmore)] from [count_pairs]
    and [q] from [probstrategy]. *)
Definition test_fraction (S : externals) (k kmore q : pyval)
  : result verdict :=
  n <- py_add k kmore ;;
  c <- py_gt q (PyInt 0) ;;
  assume (np_all c)
    (c <- py_lt q (PyInt 1) ;;
     assume (np_all c)
       (frac <- uncertainties_fraction S k n q ;;
        c <- py_ge frac (PyInt 0) ;;
        _ <- py_assert (np_all c) ;;
        c <- py_le frac (PyInt 1) ;;
        _ <- py_assert (np_all c) ;;
        Ok Passed)).

(** * The mathematics of the collaborators *)

(** ** The Poisson distribution *)

(** The first [k + 1] terms of the exponential series. *)
Definition expsum (k : nat) (x : R) : R :=
  sum_f_R0 (fun i => / INR (fact i) * x ^ i) k.

(** The probability of at most [k] events under mean [mu]. *)
Definition poisson_cdf (k : nat) (mu : R) : R := exp (- mu) * expsum k mu.

Lemma exp_term_nonneg (x : R) (i : nat) :
  0 <= x -> 0 <= / INR (fact i) * x ^ i.
Proof.
  intros Hx. apply Rmult_le_pos.
  - left. apply Rinv_0_lt_compat, INR_fact_lt_0.
  - apply pow_le, Hx.
Qed.

Lemma expsum_le_exp (k : nat) (x : R) : 0 <= x -> expsum k x <= exp x.
Proof.
  intros Hx. unfold expsum.
  apply (growing_ineq (fun n => sum_f_R0 (fun i => / INR (fact i) * x ^ i) n)).
  - intros n. simpl. pose proof (exp_term_nonneg x (S n) Hx). simpl in H. lra.
  - unfold exp. destruct (exist_exp x) as [l Hl]. simpl. exact Hl.
Qed.

Lemma expsum_ge_1 (k : nat) (x : R) : 0 <= x -> 1 <= expsum k x.
Proof.
  intros Hx. unfold expsum. induction k.
  - simpl. rewrite Rinv_1. lra.
  - simpl. pose proof (exp_term_nonneg x (S k) Hx). simpl in H. lra.
Qed.

Lemma expsum_0 (k : nat) : expsum k 0 = 1.
Proof.
  unfold expsum. induction k.
  - simpl. rewrite Rinv_1. lra.
  - rewrite tech5, IHk. rewrite pow_ne_zero by lia. lra.
Qed.

Lemma poisson_cdf_0 (k : nat) : poisson_cdf k 0 = 1.
Proof. unfold poisson_cdf. rewrite expsum_0, Ropp_0, exp_0. lra. Qed.

Lemma poisson_cdf_pos (k : nat) (x : R) : 0 <= x -> 0 < poisson_cdf k x.
Proof.
  intros Hx. unfold poisson_cdf. apply Rmult_lt_0_compat.
  - apply exp_pos.
  - pose proof (expsum_ge_1 k x Hx). lra.
Qed.

Lemma poisson_cdf_le_1 (k : nat) (x : R) : 0 <= x -> poisson_cdf k x <= 1.
Proof.
  intros Hx. unfold poisson_cdf.
  pose proof (expsum_le_exp k x Hx). pose proof (exp_pos (- x)).
  replace 1 with (exp (- x) * exp x)
    by (rewrite <- exp_plus, Rplus_opp_l; apply exp_0).
  apply Rmult_le_compat_l; lra.
Qed.

(** Doubling the argument costs at most a factor [2 ^ k]. *)
Lemma expsum_double (k : nat) (x : R) :
  0 <= x -> expsum k (2 * x) <= 2 ^ k * expsum k x.
Proof.
  intros Hx. unfold expsum. induction k.
  - simpl. lra.
  - rewrite !tech5.
    pose proof (exp_term_nonneg x (S k) Hx) as Ht.
    assert (H1 : 1 <= expsum k x) by (apply expsum_ge_1, Hx).
    unfold expsum in H1.
    assert (H2 : 0 < 2 ^ k) by (apply pow_lt; lra).
    rewrite Rpow_mult_distr.
    set (t := / INR (fact (S k)) * x ^ S k) in *.
    replace (/ INR (fact (S k)) * (2 ^ S k * x ^ S k)) with (2 ^ S k * t)
      by (unfold t; ring).
    change (2 ^ S k) with (2 * 2 ^ k).
    set (s := sum_f_R0 (fun i : nat => / INR (fact i) * x ^ i) k) in *.
    set (s2 := sum_f_R0 (fun i : nat => / INR (fact i) * (2 * x) ^ i) k) in *.
    nra.
Qed.

(** The distribution function falls below every positive level. *)
Lemma poisson_cdf_decay (k : nat) (q : R) :
  0 < q -> {X : R | 0 <= X /\ poisson_cdf k X < q}.
Proof.
  intros Hq.
  assert (Hp : 0 < 2 ^ k) by (apply pow_lt; lra).
  set (y := 2 ^ k / q).
  assert (Hy : 0 < y) by (apply Rdiv_lt_0_compat; lra).
  exists (2 * y). split; [lra|].
  unfold poisson_cdf.
  pose proof (expsum_double k y (Rlt_le _ _ Hy)) as H1.
  pose proof (expsum_le_exp k y (Rlt_le _ _ Hy)) as H2.
  pose proof (exp_pos (- (2 * y))) as H3.
  pose proof (exp_ineq1_le y) as H4.
  pose proof (exp_pos y) as H5.
  assert (H6 : exp (- (2 * y)) * exp y = / exp y).
  { rewrite <- exp_plus. replace (- (2 * y) + y) with (- y) by ring.
    apply exp_Ropp. }
  assert (H7 : exp (- (2 * y)) * expsum k (2 * y) <= 2 ^ k * / exp y).
  { rewrite <- H6.
    apply Rle_trans with (exp (- (2 * y)) * (2 ^ k * exp y)).
    - apply Rmult_le_compat_l; [lra|].
      apply Rle_trans with (2 ^ k * expsum k y); [exact H1|].
      apply Rmult_le_compat_l; lra.
    - right; ring. }
  apply Rle_lt_trans with (2 ^ k * / exp y); [exact H7|].
  assert (H8 : / exp y < / y).
  { apply Rinv_lt_contravar; [nra | lra]. }
  apply Rlt_le_trans with (2 ^ k * / y).
  - apply Rmult_lt_compat_l; lra.
  - unfold y. right. field. split; lra.
Qed.

Lemma poisson_cdf_continuity (k : nat) : continuity (poisson_cdf k).
Proof.
  unfold poisson_cdf.
  apply (continuity_mult (fun x => exp (- x)) (expsum k)).
  - apply (continuity_comp Ropp exp).
    + apply continuity_opp. apply derivable_continuous, derivable_id.
    + apply derivable_continuous, derivable_exp.
  - unfold expsum. apply continuity_finite_sum.
Qed.

Lemma continuity_shift (f : R -> R) (q : R) :
  continuity f -> continuity (fun x => f x - q).
Proof.
  intros Hf. apply continuity_minus; [exact Hf|].
  apply continuity_const. intros x y. reflexivity.
Qed.

(** Every level strictly between 0 and 1 is taken at some mean: the
    distribution function is continuous, 1 at mean 0 and small far out. *)
Lemma poisson_cdf_inverse (k : nat) (q : R) :
  0 < q < 1 -> {x : R | 0 <= x /\ poisson_cdf k x = q}.
Proof.
  intros [Hq0 Hq1].
  destruct (poisson_cdf_decay k q Hq0) as [X [HX0 HX]].
  destruct (IVT_cor (fun x => poisson_cdf k x - q) 0 X) as [z [Hz1 Hz2]].
  - apply continuity_shift, poisson_cdf_continuity.
  - exact HX0.
  - rewrite poisson_cdf_0. nra.
  - exists z. split; [lra | lra].
Qed.

(** ** The regularized incomplete beta function at integer parameters *)

(** For integers [a, b >= 1] the function [I_x(a, b)] is the probability of
    at least [a] successes in [a + b - 1] trials of success probability [x]:
    the sum, over [j] from [a] to [a + b - 1], of
    [C(a+b-1, j) x^j (1-x)^(a+b-1-j)].  The term of index [i] is the one of
    [j = a + i]. *)
Definition beta_term (a b : nat) (x : R) (i : nat) : R :=
  C (a + b - 1) (a + i) * x ^ (a + i) * (1 - x) ^ (b - 1 - i).

Definition beta_I (a b : nat) (x : R) : R :=
  sum_f_R0 (beta_term a b x) (b - 1).

Lemma continuity_sum (f : nat -> R -> R) (n : nat) :
  (forall i, continuity (f i)) ->
  continuity (fun x => sum_f_R0 (fun i => f i x) n).
Proof.
  intros Hf. induction n.
  - simpl. apply Hf.
  - simpl.
    apply (continuity_plus (fun x => sum_f_R0 (fun i => f i x) n) (f (S n)));
      [exact IHn | apply Hf].
Qed.

Lemma beta_term_continuity (a b i : nat) :
  continuity (fun x => beta_term a b x i).
Proof.
  unfold beta_term. apply derivable_continuous. reg.
Qed.

Lemma beta_I_continuity (a b : nat) : continuity (beta_I a b).
Proof.
  unfold beta_I.
  apply (continuity_sum (fun i x => beta_term a b x i)).
  intros i. apply beta_term_continuity.
Qed.

Lemma sum_f_R0_zero (f : nat -> R) (n : nat) :
  (forall i, (i <= n)%nat -> f i = 0) -> sum_f_R0 f n = 0.
Proof.
  intros H. induction n.
  - simpl. apply H. lia.
  - simpl. rewrite IHn, H by (intros; try apply H; lia). lra.
Qed.

Lemma beta_I_0 (a b : nat) : (1 <= a)%nat -> beta_I a b 0 = 0.
Proof.
  intros Ha. unfold beta_I. apply sum_f_R0_zero. intros i _.
  unfold beta_term. rewrite pow_ne_zero by lia. ring.
Qed.

Lemma C_diag (n : nat) : C n n = 1.
Proof.
  unfold C. rewrite Nat.sub_diag. simpl. field. apply INR_fact_neq_0.
Qed.

Lemma beta_I_1 (a b : nat) :
  (1 <= a)%nat -> (1 <= b)%nat -> beta_I a b 1 = 1.
Proof.
  intros Ha Hb. unfold beta_I.
  destruct b as [|b]; [lia|]. replace (S b - 1)%nat with b by lia.
  destruct b as [|b].
  - simpl. unfold beta_term. replace (a + 1 - 1)%nat with (a + 0)%nat by lia.
    rewrite C_diag, pow1. simpl. ring.
  - simpl. rewrite sum_f_R0_zero.
    + unfold beta_term.
      replace (a + S (S b) - 1)%nat with (a + S b)%nat by lia.
      rewrite C_diag, pow1.
      replace (S (S b) - 1 - S b)%nat with 0%nat by lia.
      simpl. ring.
    + intros i Hi. unfold beta_term. replace (1 - 1) with 0 by ring.
      rewrite (pow_ne_zero (S (S b) - 1 - i)) by lia. ring.
Qed.

(** Every level strictly between 0 and 1 is taken in the unit interval. *)
Lemma beta_I_inverse (a b : nat) (q : R) :
  (1 <= a)%nat -> (1 <= b)%nat -> 0 < q < 1 ->
  {x : R | 0 <= x <= 1 /\ beta_I a b x = q}.
Proof.
  intros Ha Hb [Hq0 Hq1].
  destruct (IVT_cor (fun x => beta_I a b x - q) 0 1) as [z [Hz1 Hz2]].
  - apply continuity_shift, beta_I_continuity.
  - lra.
  - rewrite beta_I_0, beta_I_1 by assumption. nra.
  - exists z. split; lra.
Qed.

(** [I_x(a, b)] is the probability of at least [a] successes: one minus the
    probability of fewer. *)
Lemma beta_I_binomial (a b : nat) (x : R) :
  (1 <= a)%nat -> (1 <= b)%nat ->
  beta_I a b x
  = 1 - sum_f_R0
          (fun j => C (a + b - 1) j * x ^ j * (1 - x) ^ (a + b - 1 - j))
          (a - 1).
Proof.
  intros Ha Hb. pose proof (binomial x (1 - x) (a + b - 1)) as H.
  replace (x + (1 - x)) with 1 in H by ring. rewrite pow1 in H.
  rewrite (tech2 _ (a - 1) (a + b - 1)) in H by lia.
  replace (S (a - 1)) with a in H by lia.
  replace (a + b - 1 - a)%nat with (b - 1)%nat in H by lia.
  assert (E : beta_I a b x
              = sum_f_R0 (fun i => C (a + b - 1) (a + i) * x ^ (a + i)
                                   * (1 - x) ^ (a + b - 1 - (a + i)))
                  (b - 1)).
  { unfold beta_I. apply sum_eq. intros i Hi. unfold beta_term.
    replace (a + b - 1 - (a + i))%nat with (b - 1 - i)%nat by lia.
    reflexivity. }
  rewrite E. lra.
Qed.

Lemma beta_I_1_1 (x : R) : beta_I 1 1 x = x.
Proof.
  unfold beta_I, beta_term. simpl. rewrite C_diag. ring.
Qed.

(** ** The standard normal distribution *)

(** The density, up to its normalising constant. *)
Definition gauss (t : R) : R := exp (- (t * t / 2)).

Lemma gauss_continuity : continuity gauss.
Proof. unfold gauss. apply derivable_continuous. reg. Qed.

Lemma gauss_pos (t : R) : 0 < gauss t.
Proof. apply exp_pos. Qed.

Lemma gauss_le_1 (t : R) : gauss t <= 1.
Proof.
  unfold gauss. rewrite <- exp_0.
  destruct (Req_dec t 0) as [->|Ht].
  - right. f_equal. lra.
  - left. apply exp_increasing. nra.
Qed.

Lemma gauss_decreasing (s t : R) : 0 <= s <= t -> gauss t <= gauss s.
Proof.
  intros H. unfold gauss.
  destruct (Req_dec s t) as [->|Hst]; [lra|].
  left. apply exp_increasing. nra.
Qed.

Lemma gauss_integrable (a b : R) : Riemann_integrable gauss a b.
Proof.
  destruct (Rle_dec a b) as [H|H].
  - apply continuity_implies_RiemannInt; [exact H|].
    intros x _. apply gauss_continuity.
  - apply RiemannInt_P1. apply continuity_implies_RiemannInt; [lra|].
    intros x _. apply gauss_continuity.
Qed.

(** The integral of the density from [a] to [b]. *)
Definition gauss_int (a b : R) : R := RiemannInt (gauss_integrable a b).

Lemma gauss_int_chasles (a b c : R) :
  gauss_int a b + gauss_int b c = gauss_int a c.
Proof. unfold gauss_int. apply RiemannInt_P26. Qed.

Lemma gauss_int_refl (a : R) : gauss_int a a = 0.
Proof. unfold gauss_int. apply RiemannInt_P9. Qed.

Lemma cte_integrable (c a b : R) : Riemann_integrable (fct_cte c) a b.
Proof.
  assert (Hc : continuity (fct_cte c)).
  { apply continuity_const. intros u v. reflexivity. }
  destruct (Rle_dec a b) as [H|H].
  - apply continuity_implies_RiemannInt; [exact H|]. intros x _. apply Hc.
  - apply RiemannInt_P1. apply continuity_implies_RiemannInt; [lra|].
    intros x _. apply Hc.
Qed.

Lemma gauss_int_le (a b : R) : a <= b -> gauss_int a b <= b - a.
Proof.
  intros H. unfold gauss_int.
  replace (b - a) with (1 * (b - a)) by ring.
  rewrite <- (RiemannInt_P15 (cte_integrable 1 a b)).
  apply RiemannInt_P19; [exact H|]. intros x _. apply gauss_le_1.
Qed.

Lemma gauss_int_ge (a b : R) :
  0 <= a <= b -> gauss b * (b - a) <= gauss_int a b.
Proof.
  intros H. unfold gauss_int.
  rewrite <- (RiemannInt_P15 (cte_integrable (gauss b) a b)).
  apply RiemannInt_P19; [lra|]. intros x Hx. unfold fct_cte.
  apply gauss_decreasing. lra.
Qed.

Lemma gauss_int_le_first (a b : R) :
  0 <= a <= b -> gauss_int a b <= gauss a * (b - a).
Proof.
  intros H. unfold gauss_int.
  rewrite <- (RiemannInt_P15 (cte_integrable (gauss a) a b)).
  apply RiemannInt_P19; [lra|]. intros x Hx. unfold fct_cte.
  apply gauss_decreasing. lra.
Qed.

Lemma gauss_int_pos (a b : R) : 0 <= a < b -> 0 < gauss_int a b.
Proof.
  intros H. apply Rlt_le_trans with (gauss b * (b - a)).
  - apply Rmult_lt_0_compat; [apply gauss_pos | lra].
  - apply gauss_int_ge. lra.
Qed.

(** The mass of the density on [0, z]. *)
Definition G (z : R) : R := gauss_int 0 z.

Lemma G_0 : G 0 = 0.
Proof. apply gauss_int_refl. Qed.

Lemma G_diff (a b : R) : G b - G a = gauss_int a b.
Proof. unfold G. rewrite <- (gauss_int_chasles 0 a b). ring. Qed.

Lemma G_increasing (a b : R) : 0 <= a < b -> G a < G b.
Proof.
  intros H. pose proof (gauss_int_pos a b H) as Hp.
  rewrite <- G_diff in Hp. lra.
Qed.

Lemma G_nonneg (z : R) : 0 <= z -> 0 <= G z.
Proof.
  intros H. destruct (Req_dec z 0) as [->|Hz]; [rewrite G_0; lra|].
  left. rewrite <- G_0. apply G_increasing. lra.
Qed.

Lemma G_lipschitz (a b : R) :
  0 <= a -> 0 <= b -> Rabs (G b - G a) <= Rabs (b - a).
Proof.
  intros Ha Hb. destruct (Rle_dec a b) as [H|H].
  - rewrite G_diff.
    destruct (Req_dec a b) as [->|Hab].
    + rewrite gauss_int_refl. rewrite Rminus_diag. lra.
    + rewrite !Rabs_pos_eq; try lra.
      * apply gauss_int_le, H.
      * left. apply gauss_int_pos. lra.
  - rewrite (Rabs_minus_sym (G b)), (Rabs_minus_sym b).
    rewrite G_diff. rewrite !Rabs_pos_eq; try lra.
    + apply gauss_int_le. lra.
    + left. apply gauss_int_pos. lra.
Qed.

Lemma G_abs_continuity : continuity (fun z => G (Rabs z)).
Proof.
  intros x. unfold continuity_pt, continue_in, limit1_in, limit_in. simpl.
  intros eps Heps. exists eps. split; [exact Heps|].
  intros y [_ Hy]. unfold Rdist in *.
  apply Rle_lt_trans with (Rabs (Rabs y - Rabs x)).
  - apply G_lipschitz; apply Rabs_pos.
  - apply Rle_lt_trans with (Rabs (y - x)); [apply Rabs_triang_inv2 | exact Hy].
Qed.

(** The mass is bounded: the density lies below [1 / (1 + t^2 / 2)], whose
    sum over the integers telescopes. *)
Lemma gauss_le_inv (t : R) : gauss t <= / (1 + t * t / 2).
Proof.
  unfold gauss. rewrite exp_Ropp.
  apply Rinv_le_contravar; [nra|]. apply exp_ineq1_le.
Qed.

Lemma G_nat_bound (n : nat) : G (INR (S n)) <= 5 - 4 / INR (S n).
Proof.
  induction n.
  - simpl. pose proof (gauss_int_le 0 1). unfold G. lra.
  - pose proof (G_diff (INR (S n)) (INR (S (S n)))) as Hd.
    assert (Hn : 1 <= INR (S n)).
    { rewrite S_INR. pose proof (pos_INR n). lra. }
    pose proof (gauss_int_le_first (INR (S n)) (INR (S (S n)))) as H1.
    rewrite (S_INR (S n)) in *.
    set (x := INR (S n)) in *.
    assert (H2 : gauss_int x (x + 1) <= gauss x).
    { replace (gauss x) with (gauss x * (x + 1 - x)) by ring. apply H1. lra. }
    pose proof (gauss_le_inv x) as H3.
    assert (H4 : / (1 + x * x / 2) <= 4 / x - 4 / (x + 1)).
    { apply Rmult_le_reg_r with ((1 + x * x / 2) * x * (x + 1)).
      - apply Rmult_lt_0_compat; [apply Rmult_lt_0_compat|]; nra.
      - replace (/ (1 + x * x / 2) * ((1 + x * x / 2) * x * (x + 1)))
          with (x * (x + 1)) by (field; nra).
        replace ((4 / x - 4 / (x + 1)) * ((1 + x * x / 2) * x * (x + 1)))
          with (4 * (1 + x * x / 2)) by (field; lra).
        nra. }
    lra.
Qed.

Lemma G_bound (z : R) : 0 <= z -> G z <= 5.
Proof.
  intros Hz.
  destruct (archimed z) as [Hu _].
  assert (Hup : (0 <= up z)%Z).
  { apply le_IZR. lra. }
  set (n := Z.to_nat (up z)).
  assert (Hn : z < INR (S n)).
  { rewrite S_INR. unfold n. rewrite INR_IZR_INZ, Z2Nat.id by exact Hup. lra. }
  pose proof (G_nat_bound n) as Hb.
  pose proof (G_increasing z (INR (S n)) (conj Hz Hn)) as Hi.
  assert (0 < 4 / INR (S n)).
  { apply Rdiv_lt_0_compat; [lra|]. lra. }
  lra.
Qed.

(** The masses of the intervals [0, z]. *)
Definition mass_set (y : R) : Prop := exists z, 0 <= z /\ y = G z.

Lemma mass_set_bound : bound mass_set.
Proof. exists 5. intros y [z [Hz ->]]. apply G_bound, Hz. Qed.

Lemma mass_set_inhabited : exists y, mass_set y.
Proof. exists (G 0), 0. split; [lra | reflexivity]. Qed.

(** Half of the total mass of the density: the integral over [0, oo). *)
Definition half_mass : R :=
  proj1_sig (completeness mass_set mass_set_bound mass_set_inhabited).

Lemma half_mass_lub : is_lub mass_set half_mass.
Proof. unfold half_mass. apply proj2_sig. Qed.

Lemma G_lt_half_mass (z : R) : 0 <= z -> G z < half_mass.
Proof.
  intros Hz. destruct half_mass_lub as [Hub _].
  apply Rlt_le_trans with (G (z + 1)).
  - apply G_increasing. lra.
  - apply Hub. exists (z + 1). split; [lra | reflexivity].
Qed.

Lemma half_mass_pos : 0 < half_mass.
Proof. rewrite <- G_0. apply G_lt_half_mass. lra. Qed.

Lemma half_mass_approached (y : R) :
  y < half_mass -> exists z, 0 <= z /\ y < G z.
Proof.
  intros Hy. destruct half_mass_lub as [_ Hleast].
  destruct (Classical_Prop.classic (exists z, 0 <= z /\ y < G z)) as [H|H];
    [exact H|].
  exfalso. assert (Hub : is_upper_bound mass_set y).
  { intros w [z [Hz ->]]. destruct (Rle_dec (G z) y) as [Hle|Hgt]; [exact Hle|].
    exfalso. apply H. exists z. split; [exact Hz | lra]. }
  apply Hleast in Hub. lra.
Qed.

Lemma G_onto (y : R) : 0 <= y < half_mass -> exists z, 0 <= z /\ G z = y.
Proof.
  intros [Hy0 Hy1].
  destruct (half_mass_approached y Hy1) as [z1 [Hz1 Hgt]].
  destruct (IVT_cor (fun z => G (Rabs z) - y) 0 z1) as [z [Hz Hzero]].
  - apply continuity_shift, G_abs_continuity.
  - exact Hz1.
  - rewrite Rabs_R0, G_0, (Rabs_pos_eq z1) by exact Hz1. nra.
  - exists z. split; [lra|]. rewrite Rabs_pos_eq in Hzero by lra. lra.
Qed.

(** The standard normal distribution function: half of the mass lies below
    0, and the mass between 0 and z is [G |z|] out of [2 * half_mass]. *)
Definition Phi (z : R) : R :=
  if Rle_dec 0 z then 1 / 2 + G z / (2 * half_mass)
  else 1 / 2 - G (- z) / (2 * half_mass).

Lemma Phi_0 : Phi 0 = 1 / 2.
Proof.
  unfold Phi. destruct (Rle_dec 0 0); [|lra]. rewrite G_0. unfold Rdiv. ring.
Qed.

Lemma G_ratio (z : R) : 0 <= z -> 0 <= G z / (2 * half_mass) < 1 / 2.
Proof.
  intros Hz. pose proof half_mass_pos. pose proof (G_lt_half_mass z Hz).
  pose proof (G_nonneg z Hz). split.
  - apply Rmult_le_pos; [lra|]. left. apply Rinv_0_lt_compat. lra.
  - apply Rmult_lt_reg_r with (2 * half_mass); [lra|].
    unfold Rdiv. rewrite Rmult_assoc, Rinv_l by lra. lra.
Qed.

Lemma Phi_range (z : R) : 0 < Phi z < 1.
Proof.
  unfold Phi. destruct (Rle_dec 0 z).
  - pose proof (G_ratio z r). lra.
  - assert (H : 0 <= - z) by lra. pose proof (G_ratio (- z) H). lra.
Qed.

Lemma G_ratio_increasing (a b : R) :
  0 <= a < b -> G a / (2 * half_mass) < G b / (2 * half_mass).
Proof.
  intros H. pose proof half_mass_pos. pose proof (G_increasing a b H).
  apply Rmult_lt_compat_r; [|lra]. apply Rinv_0_lt_compat. lra.
Qed.

Lemma Phi_increasing (a b : R) : a < b -> Phi a < Phi b.
Proof.
  intros H. unfold Phi.
  destruct (Rle_dec 0 a) as [Ha|Ha]; destruct (Rle_dec 0 b) as [Hb|Hb]; try lra.
  - pose proof (G_ratio_increasing a b). lra.
  - assert (H1 : 0 <= - a) by lra.
    pose proof (G_ratio (- a) H1). pose proof (G_ratio b Hb).
    destruct (Req_dec b 0) as [->|Hb0].
    + pose proof (G_ratio_increasing 0 (- a)). rewrite G_0 in *. lra.
    + pose proof (G_ratio_increasing 0 b). rewrite G_0 in *. lra.
  - pose proof (G_ratio_increasing (- b) (- a)). lra.
Qed.

Lemma Phi_injective (a b : R) : Phi a = Phi b -> a = b.
Proof.
  intros H. destruct (Rtotal_order a b) as [Hlt|[Heq|Hgt]]; [|exact Heq|].
  - pose proof (Phi_increasing a b Hlt). lra.
  - pose proof (Phi_increasing b a Hgt). lra.
Qed.

Lemma Phi_symmetric (z : R) : Phi (- z) = 1 - Phi z.
Proof.
  unfold Phi.
  destruct (Rle_dec 0 z) as [Hz|Hz]; destruct (Rle_dec 0 (- z)) as [Hn|Hn];
    try lra.
  - assert (z = 0) by lra. subst. rewrite Ropp_0, G_0. lra.
  - rewrite Ropp_involutive. lra.
Qed.

Lemma Phi_onto (p : R) : 0 < p < 1 -> exists z, Phi z = p.
Proof.
  assert (Hhalf : forall p, 1 / 2 <= p < 1 -> exists z, 0 <= z /\ Phi z = p).
  { intros q [Hq0 Hq1]. pose proof half_mass_pos as Hm.
    destruct (G_onto ((2 * q - 1) * half_mass)) as [z [Hz HG]].
    - split; [apply Rmult_le_pos; lra | nra].
    - exists z. split; [exact Hz|]. unfold Phi. destruct (Rle_dec 0 z); [|lra].
      rewrite HG. field. lra. }
  intros [Hp0 Hp1]. destruct (Rle_dec (1 / 2) p) as [H|H].
  - destruct (Hhalf p (conj H Hp1)) as [z [_ Hz]]. exists z. exact Hz.
  - destruct (Hhalf (1 - p)) as [z [_ Hz]]; [lra|].
    exists (- z). rewrite Phi_symmetric. lra.
Qed.

(** * The contract of the collaborators *)

(** The probability of [i] events, and of at least or of more than [n]
    events, under a Poisson distribution of mean [mu]. *)
Definition poisson_prob (i : nat) (mu : R) : R :=
  exp (- mu) * (/ INR (fact i) * mu ^ i).

Definition prob_lt (n : nat) (mu : R) : R :=
  match n with
  | O => 0
  | S m => sum_f_R0 (fun i => poisson_prob i mu) m
  end.

Definition prob_ge (n : nat) (mu : R) : R := 1 - prob_lt n mu.
Definition prob_gt (n : nat) (mu : R) : R := prob_ge (S n) mu.

Lemma poisson_cdf_sum (n : nat) (mu : R) :
  poisson_cdf n mu = sum_f_R0 (fun i => poisson_prob i mu) n.
Proof.
  unfold poisson_cdf, expsum, poisson_prob. rewrite scal_sum.
  apply sum_eq. intros i _. ring.
Qed.

Lemma prob_gt_cdf (n : nat) (mu : R) : prob_gt n mu = 1 - poisson_cdf n mu.
Proof. unfold prob_gt, prob_ge, prob_lt. now rewrite poisson_cdf_sum. Qed.

(** More than [n] events is never certain. *)
Lemma prob_gt_range (n : nat) (mu : R) : 0 <= mu -> 0 <= prob_gt n mu < 1.
Proof.
  intros H. rewrite prob_gt_cdf.
  pose proof (poisson_cdf_pos n mu H). pose proof (poisson_cdf_le_1 n mu H).
  lra.
Qed.

(** The regularized upper incomplete gamma function at an integer shape
    [a = k + 1] is the Poisson distribution function at [k]. *)
Definition gamma_Q (a : nat) (x : R) : R := poisson_cdf (a - 1) x.

Record contract (S : externals) : Prop := {
  ndtr_spec : forall z : R, ndtr S (Fin z) = Fin (Phi z);
  ndtri_spec : forall p : R, 0 < p < 1 ->
    exists z : R, ndtri S (Fin p) = Fin z /\ Phi z = p;
  ndtri_one : ndtri S (Fin 1) = PInf;
  poisson_sf_spec : forall (n : nat) (mu : R), 0 <= mu ->
    poisson_sf S (Fin (INR n)) (Fin mu) = Fin (prob_gt n mu);
  gammainccinv_spec : forall (a : nat) (q : R), (1 <= a)%nat -> 0 < q < 1 ->
    exists x : R, gammainccinv S (Fin (INR a)) (Fin q) = Fin x
                  /\ 0 <= x /\ gamma_Q a x = q;
  betaincinv_spec : forall (a b : nat) (q : R),
    (1 <= a)%nat -> (1 <= b)%nat -> 0 < q < 1 ->
    exists x : R, betaincinv S (Fin (INR a)) (Fin (INR b)) (Fin q) = Fin x
                  /\ 0 <= x <= 1 /\ beta_I a b x = q
}.

(** ** A backend that meets the contract *)

(** The integer part of a real number, when it is a natural number. *)
Definition floor_nat (x : R) : nat := Z.to_nat (up x - 1).

Definition as_nat (x : R) : option nat :=
  if Req_dec_T x (INR (floor_nat x)) then Some (floor_nat x) else None.

Lemma floor_nat_INR (n : nat) : floor_nat (INR n) = n.
Proof.
  unfold floor_nat.
  replace (up (INR n)) with (Z.of_nat n + 1)%Z; [lia|].
  apply tech_up; rewrite plus_IZR, <- INR_IZR_INZ; lra.
Qed.

Lemma as_nat_INR (n : nat) : as_nat (INR n) = Some n.
Proof.
  unfold as_nat. rewrite floor_nat_INR.
  destruct (Req_dec_T (INR n) (INR n)); [reflexivity | contradiction].
Qed.

Lemma as_nat_Some (x : R) (n : nat) : as_nat x = Some n -> x = INR n.
Proof.
  unfold as_nat.
  destruct (Req_dec_T x (INR (floor_nat x))) as [H|H]; [|discriminate].
  intros E. injection E as <-. exact H.
Qed.

Definition ndtr_ref (z : f64) : f64 :=
  match z with
  | Fin x => Fin (Phi x)
  | PInf => Fin 1
  | NInf => Fin 0
  | NaN => NaN
  end.

Definition ndtri_ref (p : f64) : f64 :=
  match p with
  | Fin x =>
      match Rlt_dec 0 x, Rlt_dec x 1 with
      | left H0, left H1 =>
          Fin (proj1_sig
                 (constructive_indefinite_description _
                    (Phi_onto x (conj H0 H1))))
      | _, _ => if Reqb x 0 then NInf else if Reqb x 1 then PInf else NaN
      end
  | _ => NaN
  end.

Definition poisson_sf_ref (k mu : f64) : f64 :=
  match k, mu with
  | Fin x, Fin m =>
      if Rltb m 0 then NaN
      else if Rltb x 0 then Fin 1
      else Fin (prob_gt (floor_nat x) m)
  | _, _ => NaN
  end.

Definition poisson_pmf_ref (k mu : f64) : f64 :=
  match k, mu with
  | Fin x, Fin m =>
      if Rltb m 0 then NaN
      else match as_nat x with
           | Some i => Fin (poisson_prob i m)
           | None => Fin 0
           end
  | _, _ => NaN
  end.

Definition gammainccinv_ref (a q : f64) : f64 :=
  match a, q with
  | Fin x, Fin y =>
      match as_nat x, Rlt_dec 0 y, Rlt_dec y 1 with
      | Some (S k), left H0, left H1 =>
          Fin (proj1_sig (poisson_cdf_inverse k y (conj H0 H1)))
      | _, _, _ => NaN
      end
  | _, _ => NaN
  end.

Definition betaincinv_ref (a b q : f64) : f64 :=
  match a, b, q with
  | Fin x, Fin y, Fin z =>
      match as_nat x, as_nat y, Rlt_dec 0 z, Rlt_dec z 1 with
      | Some (S i), Some (S j), left H0, left H1 =>
          Fin (proj1_sig
                 (beta_I_inverse (S i) (S j) z (le_n_S _ _ (Nat.le_0_l i))
                    (le_n_S _ _ (Nat.le_0_l j)) (conj H0 H1)))
      | _, _, _, _ => NaN
      end
  | _, _, _ => NaN
  end.

(** The contract leaves [hyperu], [hyp2f1], [gamma] and
    [li_ma_significance] free; outside the contract's domain the reference
    answers NaN, scipy's way of reporting a domain error. *)
Definition reference : externals := {|
  ndtr := ndtr_ref;
  ndtri := ndtri_ref;
  poisson_sf := poisson_sf_ref;
  poisson_pmf := poisson_pmf_ref;
  hyperu := fun _ _ _ => NaN;
  hyp2f1 := fun _ _ _ _ => NaN;
  gamma := fun _ => NaN;
  gammainccinv := gammainccinv_ref;
  betaincinv := betaincinv_ref;
  li_ma_significance := fun n _ _ => ufunc1 (fun _ => NaN) n
|}.

Lemma Rltb_true (x y : R) : x < y -> Rltb x y = true.
Proof.
  intros H. unfold Rltb. destruct (Rlt_dec x y); [reflexivity | contradiction].
Qed.

Lemma Rltb_false (x y : R) : y <= x -> Rltb x y = false.
Proof. intros H. unfold Rltb. destruct (Rlt_dec x y); [lra | reflexivity]. Qed.

Lemma Rleb_true (x y : R) : x <= y -> Rleb x y = true.
Proof.
  intros H. unfold Rleb. destruct (Rle_dec x y); [reflexivity | contradiction].
Qed.

Lemma Rleb_false (x y : R) : y < x -> Rleb x y = false.
Proof. intros H. unfold Rleb. destruct (Rle_dec x y); [lra | reflexivity]. Qed.

Lemma Reqb_true (x y : R) : x = y -> Reqb x y = true.
Proof.
  intros H. unfold Reqb.
  destruct (Req_dec_T x y); [reflexivity | contradiction].
Qed.

Lemma Reqb_false (x y : R) : x <> y -> Reqb x y = false.
Proof.
  intros H. unfold Reqb.
  destruct (Req_dec_T x y); [contradiction | reflexivity].
Qed.

Lemma ndtri_ref_spec (p : R) :
  0 < p < 1 -> exists z : R, ndtri_ref (Fin p) = Fin z /\ Phi z = p.
Proof.
  intros [H0 H1]. unfold ndtri_ref.
  destruct (Rlt_dec 0 p) as [H0'|]; [|contradiction].
  destruct (Rlt_dec p 1) as [H1'|]; [|contradiction].
  destruct (constructive_indefinite_description _ _) as [z Hz]. simpl.
  exists z. split; [reflexivity | exact Hz].
Qed.

Lemma ndtri_ref_1 : ndtri_ref (Fin 1) = PInf.
Proof.
  unfold ndtri_ref. destruct (Rlt_dec 0 1) as [H0|H0]; [|exfalso; lra].
  destruct (Rlt_dec 1 1) as [H1|H1]; [exfalso; lra|].
  rewrite Reqb_false by lra. now rewrite Reqb_true.
Qed.

Lemma gammainccinv_ref_spec (a : nat) (q : R) :
  (1 <= a)%nat -> 0 < q < 1 ->
  exists x : R, gammainccinv_ref (Fin (INR a)) (Fin q) = Fin x
                /\ 0 <= x /\ gamma_Q a x = q.
Proof.
  intros Ha [H0 H1]. unfold gammainccinv_ref. rewrite as_nat_INR.
  destruct a as [|k]; [lia|].
  destruct (Rlt_dec 0 q) as [H0'|]; [|contradiction].
  destruct (Rlt_dec q 1) as [H1'|]; [|contradiction].
  destruct (poisson_cdf_inverse k q _) as [x [Hx Hq]]. simpl.
  exists x. split; [reflexivity|]. split; [exact Hx|].
  unfold gamma_Q. replace (S k - 1)%nat with k by lia. exact Hq.
Qed.

Lemma betaincinv_ref_spec (a b : nat) (q : R) :
  (1 <= a)%nat -> (1 <= b)%nat -> 0 < q < 1 ->
  exists x : R, betaincinv_ref (Fin (INR a)) (Fin (INR b)) (Fin q) = Fin x
                /\ 0 <= x <= 1 /\ beta_I a b x = q.
Proof.
  intros Ha Hb [H0 H1]. unfold betaincinv_ref. rewrite !as_nat_INR.
  destruct a as [|i]; [lia|]. destruct b as [|j]; [lia|].
  destruct (Rlt_dec 0 q) as [H0'|]; [|contradiction].
  destruct (Rlt_dec q 1) as [H1'|]; [|contradiction].
  destruct (beta_I_inverse (S i) (S j) q _ _ _) as [x [Hx Hq]]. simpl.
  exists x. split; [reflexivity|]. split; assumption.
Qed.

Lemma reference_contract : contract reference.
Proof.
  constructor; simpl.
  - reflexivity.
  - apply ndtri_ref_spec.
  - apply ndtri_ref_1.
  - intros n mu Hmu. unfold poisson_sf_ref.
    rewrite (Rltb_false mu 0) by lra.
    rewrite (Rltb_false (INR n) 0) by apply pos_INR.
    now rewrite floor_nat_INR.
  - apply gammainccinv_ref_spec.
  - apply betaincinv_ref_spec.
Qed.

(** * Element-wise reading of broadcast values *)

(** The element that position [i] of a broadcast result is computed from: the
    only element of a list of length 1, the [i]-th one otherwise. *)
Definition lat {A : Type} (l : list A) (i : nat) : option A :=
  nth_error l (if Nat.eqb (length l) 1 then 0%nat else i).

(** A shape that broadcasts to length [L]. *)
Definition fits {A : Type} (L : nat) (l : list A) : Prop :=
  length l = 1%nat \/ length l = L.

Lemma lat_single {A : Type} (x : A) (i : nat) : lat [x] i = Some x.
Proof. reflexivity. Qed.

Lemma lat_map {A B : Type} (f : A -> B) (l : list A) (i : nat) :
  lat (map f l) i = option_map f (lat l i).
Proof. unfold lat. rewrite length_map. apply nth_error_map. Qed.

Lemma lat_In {A : Type} (l : list A) (i : nat) (x : A) :
  lat l i = Some x -> In x l.
Proof. unfold lat. apply nth_error_In. Qed.

Lemma In_lat {A : Type} (l : list A) (x : A) :
  In x l -> exists i, lat l i = Some x.
Proof.
  intros H. destruct l as [|a [|b l]].
  - contradiction.
  - destruct H as [->|[]]. exists 0%nat. reflexivity.
  - destruct (In_nth_error _ _ H) as [i Hi]. exists i. exact Hi.
Qed.

Lemma Forall_lat {A : Type} (P : A -> Prop) (l : list A) :
  Forall P l <-> forall i x, lat l i = Some x -> P x.
Proof.
  rewrite Forall_forall. split.
  - intros H i x Hx. apply H. eapply lat_In, Hx.
  - intros H x Hx. destruct (In_lat l x Hx) as [i Hi]. eapply H, Hi.
Qed.

Lemma nth_error_combine {A B : Type} (l1 : list A) (l2 : list B) (i : nat)
  (p : A * B) :
  nth_error (combine l1 l2) i = Some p ->
  nth_error l1 i = Some (fst p) /\ nth_error l2 i = Some (snd p).
Proof.
  revert l2 i. induction l1 as [|a l1 IH]; intros [|b l2] [|i]; simpl;
    try discriminate.
  - intros E. injection E as <-. split; reflexivity.
  - apply IH.
Qed.

Lemma bcast_single_r {A B : Type} (l : list A) (y : B) :
  bcast l [y] = Some (map (fun a => (a, y)) l).
Proof.
  unfold bcast. destruct l as [|a [|b l]]; reflexivity.
Qed.

Lemma bcast_single_l {A B : Type} (x : A) (l : list B) :
  bcast [x] l = Some (map (fun b => (x, b)) l).
Proof.
  unfold bcast. destruct l as [|a [|b l]]; reflexivity.
Qed.

Lemma bcast_fits {A B : Type} (L : nat) (l1 : list A) (l2 : list B) :
  fits L l1 -> fits L l2 -> exists l, bcast l1 l2 = Some l /\ fits L l.
Proof.
  intros [H1|H1] [H2|H2].
  - destruct l1 as [|a [|? ?]]; try discriminate. rewrite bcast_single_l.
    eexists. split; [reflexivity|]. left. now rewrite length_map.
  - destruct l1 as [|a [|? ?]]; try discriminate. rewrite bcast_single_l.
    eexists. split; [reflexivity|]. right. now rewrite length_map.
  - destruct l2 as [|a [|? ?]]; try discriminate. rewrite bcast_single_r.
    eexists. split; [reflexivity|]. right. now rewrite length_map.
  - unfold bcast. rewrite H1, H2, Nat.eqb_refl.
    eexists. split; [reflexivity|]. right.
    rewrite length_combine, H1, H2. apply Nat.min_id.
Qed.

Lemma bcast_lat {A B : Type} (l1 : list A) (l2 : list B) (l : list (A * B))
  (i : nat) (p : A * B) :
  bcast l1 l2 = Some l -> lat l i = Some p ->
  lat l1 i = Some (fst p) /\ lat l2 i = Some (snd p).
Proof.
  unfold bcast. destruct (Nat.eqb (length l1) (length l2)) eqn:E.
  - apply Nat.eqb_eq in E. intros H. injection H as <-.
    unfold lat. rewrite length_combine, <- E, Nat.min_id.
    apply nth_error_combine.
  - destruct l1 as [|a [|a' l1]].
    + destruct l2 as [|b [|b' l2]]; try discriminate.
      intros H. injection H as <-. destruct i; discriminate.
    + intros H. injection H as <-. rewrite lat_map.
      destruct (lat l2 i) as [b|]; [|discriminate].
      simpl. intros H. injection H as <-. split; reflexivity.
    + destruct l2 as [|b [|b' l2]]; try discriminate.
      intros H. injection H as <-.
      change ((a, b) :: (a', b) :: map (fun x => (x, b)) l1)
        with (map (fun x => (x, b)) (a :: a' :: l1)).
      rewrite lat_map.
      destruct (lat (a :: a' :: l1) i) as [x|]; [|discriminate].
      simpl. intros H. injection H as <-. split; reflexivity.
Qed.

Lemma bcast_None {A B : Type} (l1 : list A) (l2 : list B) :
  bcast l1 l2 = None ->
  length l1 <> length l2 /\ length l1 <> 1%nat /\ length l2 <> 1%nat.
Proof.
  unfold bcast.
  destruct (Nat.eqb (length l1) (length l2)) eqn:E; [discriminate|].
  apply Nat.eqb_neq in E. intros H. split; [exact E|].
  destruct l1 as [|a [|a' l1]]; destruct l2 as [|b [|b' l2]];
    try discriminate; simpl; split; lia.
Qed.

(** ** Values *)

Definition vat (v : pyval) (i : nat) : option f64 := lat (fdata v) i.
Definition vfits (L : nat) (v : pyval) : Prop := fits L (fdata v).

Definition is_py (v : pyval) : bool :=
  match v with
  | PyInt _ | PyFloat _ => true
  | _ => false
  end.

Lemma fdata_of_floats (k : kind) (l : list f64) : fdata (of_floats k l) = l.
Proof. destruct k, l as [|x [|y l]]; reflexivity. Qed.

Lemma fdata_of_ints (k : kind) (l : list Z) :
  fdata (of_ints k l) = map of_Z l.
Proof. destruct k, l as [|x [|y l]]; reflexivity. Qed.

Lemma zdata_fdata (v : pyval) (l : list Z) :
  zdata v = Some l -> fdata v = map of_Z l.
Proof. destruct v; simpl; intros H; inversion H; reflexivity. Qed.

Lemma kind_single (v : pyval) :
  kind_of v <> KNd -> exists x, fdata v = [x].
Proof.
  destruct v; simpl; intros H; try contradiction; eexists; reflexivity.
Qed.

Lemma is_py_kind (v : pyval) : is_py v = true <-> kind_of v = KPy.
Proof. destruct v; simpl; split; intros H; try discriminate; reflexivity. Qed.

Lemma is_py_of_floats (k : kind) (l : list f64) :
  is_py (of_floats k l) = true -> k = KPy.
Proof.
  destruct k, l as [|x [|y l]]; simpl; intros H; try discriminate; reflexivity.
Qed.

Lemma is_py_of_ints (k : kind) (l : list Z) :
  is_py (of_ints k l) = true -> k = KPy.
Proof.
  destruct k, l as [|x [|y l]]; simpl; intros H; try discriminate; reflexivity.
Qed.

Lemma is_py_of_floats_false (k : kind) (l : list f64) :
  k <> KPy -> is_py (of_floats k l) = false.
Proof.
  intros H. destruct (is_py (of_floats k l)) eqn:E; [|reflexivity].
  now apply is_py_of_floats in E.
Qed.

Lemma join_py (a b : kind) : join a b = KPy -> a = KPy /\ b = KPy.
Proof.
  destruct a, b; simpl; intros H; try discriminate; split; reflexivity.
Qed.

Lemma np_kind_not_py (k : kind) : np_kind k <> KPy.
Proof. destruct k; discriminate. Qed.

Lemma vfits_scalar (L : nat) (v : pyval) : kind_of v <> KNd -> vfits L v.
Proof.
  intros H. destruct (kind_single v H) as [x Hx]. left. now rewrite Hx.
Qed.

Lemma vat_scalar (v : pyval) (i : nat) :
  kind_of v <> KNd -> vat v i = Some (hd NaN (fdata v)).
Proof.
  intros H. destruct (kind_single v H) as [x Hx]. unfold vat. now rewrite Hx.
Qed.

Lemma broadcast_Ok {A B : Type} (l1 : list A) (l2 : list B) (l : list (A * B)) :
  broadcast l1 l2 = Ok l <-> bcast l1 l2 = Some l.
Proof.
  unfold broadcast. destruct (bcast l1 l2); split; intros H;
    inversion H; reflexivity.
Qed.

Lemma broadcast_Err {A B : Type} (l1 : list A) (l2 : list B) (e : exn) :
  broadcast l1 l2 = Err e -> e = ValueError.
Proof.
  unfold broadcast. destruct (bcast l1 l2); intros H; inversion H; reflexivity.
Qed.

Lemma broadcast_fits {A B : Type} (L : nat) (l1 : list A) (l2 : list B) :
  fits L l1 -> fits L l2 -> exists l, broadcast l1 l2 = Ok l /\ fits L l.
Proof.
  intros H1 H2. destruct (bcast_fits L l1 l2 H1 H2) as [l [E F]].
  exists l. split; [now apply broadcast_Ok | exact F].
Qed.

Lemma fits_map {A B : Type} (f : A -> B) (L : nat) (l : list A) :
  fits L (map f l) <-> fits L l.
Proof. unfold fits. now rewrite length_map. Qed.

(** Every bind of a chain either passes its value on or stops with the
    error. *)
Lemma bind_Ok {A B : Type} (r : result A) (f : A -> result B) (b : B) :
  bind r f = Ok b <-> exists a, r = Ok a /\ f a = Ok b.
Proof.
  destruct r as [a|e]; simpl; split.
  - intros H. exists a. split; [reflexivity | exact H].
  - intros [a' [E H]]. inversion E. subst. exact H.
  - discriminate.
  - intros [a' [E _]]. discriminate.
Qed.

Lemma bind_Err {A B : Type} (r : result A) (f : A -> result B) (e : exn) :
  bind r f = Err e <-> r = Err e \/ exists a, r = Ok a /\ f a = Err e.
Proof.
  destruct r as [a|e']; simpl; split.
  - intros H. right. exists a. split; [reflexivity | exact H].
  - intros [E|[a' [E H]]]; [discriminate|]. inversion E. subst. exact H.
  - intros H. left. inversion H. reflexivity.
  - intros [E|[a' [E _]]]; [inversion E; reflexivity | discriminate].
Qed.

(** ** Arithmetic, element by element *)

Section Arith.

Variable fz : Z -> Z -> Z.
Variable ff : f64 -> f64 -> f64.
Hypothesis fz_ff : forall x y : Z, of_Z (fz x y) = ff (of_Z x) (of_Z y).

Lemma arith_fits (L : nat) (a b : pyval) :
  vfits L a -> vfits L b -> exists c, arith fz ff a b = Ok c /\ vfits L c.
Proof.
  unfold vfits, arith. intros Ha Hb.
  destruct (zdata a) as [la|] eqn:Ea; [destruct (zdata b) as [lb|] eqn:Eb|].
  - rewrite (zdata_fdata a la Ea) in Ha. rewrite (zdata_fdata b lb Eb) in Hb.
    apply fits_map in Ha. apply fits_map in Hb.
    destruct (broadcast_fits L la lb Ha Hb) as [l [-> F]]. simpl.
    eexists. split; [reflexivity|].
    rewrite fdata_of_ints. now apply fits_map, fits_map.
  - destruct (broadcast_fits L _ _ Ha Hb) as [l [-> F]]. simpl.
    eexists. split; [reflexivity|]. rewrite fdata_of_floats. now apply fits_map.
  - destruct (broadcast_fits L _ _ Ha Hb) as [l [-> F]]. simpl.
    eexists. split; [reflexivity|]. rewrite fdata_of_floats. now apply fits_map.
Qed.

Lemma arith_at (a b c : pyval) (i : nat) (z : f64) :
  arith fz ff a b = Ok c -> vat c i = Some z ->
  exists x y, vat a i = Some x /\ vat b i = Some y /\ z = ff x y.
Proof.
  unfold vat, arith.
  assert (Hf : forall l, broadcast (fdata a) (fdata b) = Ok l ->
    lat (map (uncurry ff) l) i = Some z ->
    exists x y,
      lat (fdata a) i = Some x /\ lat (fdata b) i = Some y /\ z = ff x y).
  { intros l Hl. rewrite lat_map.
    destruct (lat l i) as [p|] eqn:Ep; [|discriminate].
    simpl. intros H. injection H as <-.
    apply broadcast_Ok in Hl. destruct (bcast_lat _ _ _ _ _ Hl Ep) as [H1 H2].
    exists (fst p), (snd p). repeat split; assumption. }
  destruct (zdata a) as [la|] eqn:Ea; [destruct (zdata b) as [lb|] eqn:Eb|].
  - rewrite (zdata_fdata a la Ea), (zdata_fdata b lb Eb).
    destruct (broadcast la lb) as [l|e] eqn:El; simpl; [|discriminate].
    intros H. injection H as <-. rewrite fdata_of_ints, !lat_map.
    destruct (lat l i) as [p|] eqn:Ep; [|discriminate].
    simpl. intros H. injection H as <-.
    apply broadcast_Ok in El. destruct (bcast_lat _ _ _ _ _ El Ep) as [H1 H2].
    rewrite H1, H2. simpl. exists (of_Z (fst p)), (of_Z (snd p)).
    repeat split. apply fz_ff.
  - destruct (broadcast (fdata a) (fdata b)) as [l|e] eqn:El; simpl;
      [|discriminate].
    intros H. injection H as <-. rewrite fdata_of_floats. now apply Hf.
  - destruct (broadcast (fdata a) (fdata b)) as [l|e] eqn:El; simpl;
      [|discriminate].
    intros H. injection H as <-. rewrite fdata_of_floats. now apply Hf.
Qed.

Lemma arith_Err (a b : pyval) (e : exn) :
  arith fz ff a b = Err e -> e = ValueError.
Proof.
  unfold arith.
  destruct (zdata a) as [la|]; [destruct (zdata b) as [lb|]|];
    intros H; apply bind_Err in H; destruct H as [H|[l [_ H]]];
    try discriminate; eapply broadcast_Err, H.
Qed.

Lemma arith_is_py (a b c : pyval) :
  arith fz ff a b = Ok c -> is_py c = true ->
  is_py a = true /\ is_py b = true.
Proof.
  unfold arith. intros H Hc. rewrite !is_py_kind. apply join_py.
  destruct (zdata a) as [la|]; [destruct (zdata b) as [lb|]|];
    apply bind_Ok in H; destruct H as [l [_ H]]; injection H as <-.
  - eapply is_py_of_ints, Hc.
  - eapply is_py_of_floats, Hc.
  - eapply is_py_of_floats, Hc.
Qed.

Lemma arith_not_py (a b c : pyval) :
  arith fz ff a b = Ok c -> is_py a = false \/ is_py b = false ->
  is_py c = false.
Proof.
  intros H Hab. destruct (is_py c) eqn:E; [|reflexivity].
  destruct (arith_is_py a b c H E) as [Ha Hb]. rewrite Ha, Hb in Hab.
  destruct Hab; discriminate.
Qed.

End Arith.

Lemma add_compat (x y : Z) : of_Z (x + y) = fadd (of_Z x) (of_Z y).
Proof. unfold of_Z. simpl. now rewrite plus_IZR. Qed.

Lemma sub_compat (x y : Z) : of_Z (x - y) = fsub (of_Z x) (of_Z y).
Proof. unfold of_Z, fsub. simpl. now rewrite minus_IZR. Qed.

Lemma mul_compat (x y : Z) : of_Z (x * y) = fmul (of_Z x) (of_Z y).
Proof. unfold of_Z. simpl. now rewrite mult_IZR. Qed.

(** ** Division *)

Lemma py_div_python_zero (a b : pyval) :
  is_py a = true -> is_py b = true -> is_zero b = true ->
  py_div a b = Err ZeroDivisionError.
Proof.
  intros Ha Hb Hz. apply is_py_kind in Ha. apply is_py_kind in Hb.
  unfold py_div. now rewrite Ha, Hb, Hz.
Qed.

Lemma py_div_fits (L : nat) (a b : pyval) :
  vfits L a -> vfits L b ->
  is_py a && is_py b && is_zero b = false ->
  exists c, py_div a b = Ok c /\ vfits L c
            /\ is_py c = is_py a && is_py b.
Proof.
  unfold vfits, py_div. intros Ha Hb Hz.
  destruct (is_py a && is_py b) eqn:Hp.
  - apply andb_true_iff in Hp. destruct Hp as [Pa Pb].
    destruct a, b; try discriminate; simpl in *; rewrite Hz;
      eexists; (split; [reflexivity|]); (split; [left|]); reflexivity.
  - assert (Hk : join (kind_of a) (kind_of b) <> KPy).
    { intros Hk. apply join_py in Hk. destruct Hk as [Ka Kb].
      apply is_py_kind in Ka, Kb. rewrite Ka, Kb in Hp. discriminate. }
    assert (E : forall k, k <> KPy ->
      exists c, (l <- broadcast (fdata a) (fdata b) ;;
                 Ok (of_floats k (map (uncurry fdiv) l))) = Ok c
                /\ fits L (fdata c) /\ is_py c = false).
    { intros k Hne. destruct (broadcast_fits L _ _ Ha Hb) as [l [-> F]]. simpl.
      eexists. split; [reflexivity|]. split.
      - rewrite fdata_of_floats. now apply fits_map.
      - now apply is_py_of_floats_false. }
    destruct (kind_of a) eqn:Ka; destruct (kind_of b) eqn:Kb;
      try (apply E; exact Hk).
    contradiction.
Qed.

Lemma py_div_at (a b c : pyval) (i : nat) (z : f64) :
  py_div a b = Ok c -> vat c i = Some z ->
  exists x y, vat a i = Some x /\ vat b i = Some y /\ z = fdiv x y.
Proof.
  unfold vat, py_div.
  assert (Hf : forall k, (l <- broadcast (fdata a) (fdata b) ;;
                          Ok (of_floats k (map (uncurry fdiv) l))) = Ok c ->
    lat (fdata c) i = Some z ->
    exists x y, lat (fdata a) i = Some x /\ lat (fdata b) i = Some y
                /\ z = fdiv x y).
  { intros k H. apply bind_Ok in H. destruct H as [l [Hl H]]. injection H as <-.
    rewrite fdata_of_floats, lat_map.
    destruct (lat l i) as [p|] eqn:Ep; [|discriminate].
    simpl. intros H. injection H as <-.
    apply broadcast_Ok in Hl. destruct (bcast_lat _ _ _ _ _ Hl Ep) as [H1 H2].
    exists (fst p), (snd p). repeat split; assumption. }
  destruct (kind_of a) eqn:Ka; destruct (kind_of b) eqn:Kb; try apply Hf.
  destruct (is_zero b); [discriminate|].
  intros H. injection H as <-.
  destruct a, b; try discriminate; simpl; intros H; injection H as <-;
    eexists; eexists; repeat split.
Qed.

Lemma py_div_Err (a b : pyval) (e : exn) :
  py_div a b = Err e -> e = ValueError \/ e = ZeroDivisionError.
Proof.
  unfold py_div.
  destruct (kind_of a); destruct (kind_of b);
    try (intros H; apply bind_Err in H; destruct H as [H|[l [_ H]]];
         [left; eapply broadcast_Err, H | discriminate]).
  destruct (is_zero b); intros H; inversion H. now right.
Qed.

(** ** ufuncs, element by element *)

Lemma ufunc1_fits (f : f64 -> f64) (L : nat) (a : pyval) :
  vfits L a -> vfits L (ufunc1 f a).
Proof. unfold vfits, ufunc1. rewrite fdata_of_floats. now apply fits_map. Qed.

Lemma ufunc1_at (f : f64 -> f64) (a : pyval) (i : nat) :
  vat (ufunc1 f a) i = option_map f (vat a i).
Proof. unfold vat, ufunc1. rewrite fdata_of_floats. apply lat_map. Qed.

Lemma ufunc1_not_py (f : f64 -> f64) (a : pyval) : is_py (ufunc1 f a) = false.
Proof.
  unfold ufunc1. destruct (is_py (of_floats _ _)) eqn:E; [|reflexivity].
  apply is_py_of_floats in E. now apply np_kind_not_py in E.
Qed.

Lemma fdata_ufunc1 (f : f64 -> f64) (a : pyval) :
  fdata (ufunc1 f a) = map f (fdata a).
Proof. unfold ufunc1. apply fdata_of_floats. Qed.

Lemma ufunc2_fits (f : f64 -> f64 -> f64) (L : nat) (a b : pyval) :
  vfits L a -> vfits L b ->
  exists c, ufunc2 f a b = Ok c /\ vfits L c /\ is_py c = false.
Proof.
  unfold vfits, ufunc2. intros Ha Hb.
  destruct (broadcast_fits L _ _ Ha Hb) as [l [-> F]]. simpl.
  eexists. split; [reflexivity|]. split.
  - rewrite fdata_of_floats. now apply fits_map.
  - destruct (is_py (of_floats _ _)) eqn:E; [|reflexivity].
    apply is_py_of_floats in E. now apply np_kind_not_py in E.
Qed.

Lemma ufunc2_at (f : f64 -> f64 -> f64) (a b c : pyval) (i : nat) (z : f64) :
  ufunc2 f a b = Ok c -> vat c i = Some z ->
  exists x y, vat a i = Some x /\ vat b i = Some y /\ z = f x y.
Proof.
  unfold vat, ufunc2. intros H. apply bind_Ok in H.
  destruct H as [l [Hl H]]. injection H as <-.
  rewrite fdata_of_floats, lat_map.
  destruct (lat l i) as [p|] eqn:Ep; [|discriminate].
  simpl. intros H. injection H as <-.
  apply broadcast_Ok in Hl. destruct (bcast_lat _ _ _ _ _ Hl Ep) as [H1 H2].
  exists (fst p), (snd p). repeat split; assumption.
Qed.

Lemma ufunc2_Err (f : f64 -> f64 -> f64) (a b : pyval) (e : exn) :
  ufunc2 f a b = Err e -> e = ValueError.
Proof.
  unfold ufunc2. intros H. apply bind_Err in H.
  destruct H as [H|[l [_ H]]]; [eapply broadcast_Err, H | discriminate].
Qed.

Lemma ufunc3_fits (f : f64 -> f64 -> f64 -> f64) (L : nat) (a b c : pyval) :
  vfits L a -> vfits L b -> vfits L c ->
  exists d, ufunc3 f a b c = Ok d /\ vfits L d /\ is_py d = false.
Proof.
  unfold vfits, ufunc3. intros Ha Hb Hc.
  destruct (broadcast_fits L _ _ Ha Hb) as [l [-> F]]. simpl.
  destruct (broadcast_fits L _ _ F Hc) as [m [-> G']]. simpl.
  eexists. split; [reflexivity|]. split.
  - rewrite fdata_of_floats. now apply fits_map.
  - destruct (is_py (of_floats _ _)) eqn:E; [|reflexivity].
    apply is_py_of_floats in E. now apply np_kind_not_py in E.
Qed.

Lemma ufunc3_at (f : f64 -> f64 -> f64 -> f64) (a b c d : pyval) (i : nat)
  (z : f64) :
  ufunc3 f a b c = Ok d -> vat d i = Some z ->
  exists x y w, vat a i = Some x /\ vat b i = Some y /\ vat c i = Some w
                /\ z = f x y w.
Proof.
  unfold vat, ufunc3. intros H. apply bind_Ok in H.
  destruct H as [l [Hl H]]. apply bind_Ok in H.
  destruct H as [m [Hm H]]. injection H as <-.
  rewrite fdata_of_floats, lat_map.
  destruct (lat m i) as [p|] eqn:Ep; [|discriminate].
  simpl. intros H. injection H as <-.
  apply broadcast_Ok in Hl, Hm.
  destruct (bcast_lat _ _ _ _ _ Hm Ep) as [H1 H2].
  destruct (bcast_lat _ _ _ _ _ Hl H1) as [H3 H4].
  exists (fst (fst p)), (snd (fst p)), (snd p). repeat split; assumption.
Qed.

Lemma ufunc3_Err (f : f64 -> f64 -> f64 -> f64) (a b c : pyval) (e : exn) :
  ufunc3 f a b c = Err e -> e = ValueError.
Proof.
  unfold ufunc3. intros H. apply bind_Err in H.
  destruct H as [H|[l [_ H]]]; [eapply broadcast_Err, H|].
  apply bind_Err in H.
  destruct H as [H|[m [_ H]]]; [eapply broadcast_Err, H | discriminate].
Qed.

Lemma ufunc4_fits (f : f64 -> f64 -> f64 -> f64 -> f64) (L : nat)
  (a b c d : pyval) :
  vfits L a -> vfits L b -> vfits L c -> vfits L d ->
  exists r, ufunc4 f a b c d = Ok r /\ vfits L r /\ is_py r = false.
Proof.
  unfold vfits, ufunc4. intros Ha Hb Hc Hd.
  destruct (broadcast_fits L _ _ Ha Hb) as [l [-> F]]. simpl.
  destruct (broadcast_fits L _ _ F Hc) as [m [-> G']]. simpl.
  destruct (broadcast_fits L _ _ G' Hd) as [n [-> H']]. simpl.
  eexists. split; [reflexivity|]. split.
  - rewrite fdata_of_floats. now apply fits_map.
  - destruct (is_py (of_floats _ _)) eqn:E; [|reflexivity].
    apply is_py_of_floats in E. now apply np_kind_not_py in E.
Qed.

Lemma ufunc4_at (f : f64 -> f64 -> f64 -> f64 -> f64) (a b c d r : pyval)
  (i : nat) (z : f64) :
  ufunc4 f a b c d = Ok r -> vat r i = Some z ->
  exists x y w v, vat a i = Some x /\ vat b i = Some y /\ vat c i = Some w
                  /\ vat d i = Some v /\ z = f x y w v.
Proof.
  unfold vat, ufunc4. intros H. apply bind_Ok in H.
  destruct H as [l [Hl H]]. apply bind_Ok in H.
  destruct H as [m [Hm H]]. apply bind_Ok in H.
  destruct H as [n [Hn H]]. injection H as <-.
  rewrite fdata_of_floats, lat_map.
  destruct (lat n i) as [p|] eqn:Ep; [|discriminate].
  simpl. intros H. injection H as <-.
  apply broadcast_Ok in Hl, Hm, Hn.
  destruct (bcast_lat _ _ _ _ _ Hn Ep) as [H1 H2].
  destruct (bcast_lat _ _ _ _ _ Hm H1) as [H3 H4].
  destruct (bcast_lat _ _ _ _ _ Hl H3) as [H5 H6].
  exists (fst (fst (fst p))), (snd (fst (fst p))), (snd (fst p)), (snd p).
  repeat split; assumption.
Qed.

Lemma ufunc4_Err (f : f64 -> f64 -> f64 -> f64 -> f64) (a b c d : pyval)
  (e : exn) :
  ufunc4 f a b c d = Err e -> e = ValueError.
Proof.
  unfold ufunc4. intros H. apply bind_Err in H.
  destruct H as [H|[l [_ H]]]; [eapply broadcast_Err, H|].
  apply bind_Err in H.
  destruct H as [H|[m [_ H]]]; [eapply broadcast_Err, H|].
  apply bind_Err in H.
  destruct H as [H|[n [_ H]]]; [eapply broadcast_Err, H | discriminate].
Qed.

Lemma py_neg_at (a : pyval) (i : nat) :
  vat (py_neg a) i = option_map fneg (vat a i).
Proof.
  unfold vat. destruct a; simpl; try reflexivity.
  - unfold of_Z. now rewrite opp_IZR.
  - unfold of_Z. now rewrite opp_IZR.
  - rewrite map_map, !lat_map. destruct (lat a i); simpl; [|reflexivity].
    unfold of_Z. simpl. now rewrite opp_IZR.
  - apply lat_map.
Qed.

Lemma fdata_py_neg (a : pyval) : fdata (py_neg a) = map fneg (fdata a).
Proof.
  destruct a; simpl; try reflexivity.
  - unfold of_Z. now rewrite opp_IZR.
  - unfold of_Z. now rewrite opp_IZR.
  - rewrite !map_map. apply map_ext. intros z. unfold of_Z. simpl.
    now rewrite opp_IZR.
Qed.

(** ** Comparisons *)

Lemma compare_data (c : f64 -> f64 -> bool) (a b : pyval) (r : cmpval) :
  compare c a b = Ok r ->
  exists l, bcast (fdata a) (fdata b) = Some l
            /\ cmp_data r = map (uncurry c) l.
Proof.
  unfold compare. intros H. apply bind_Ok in H. destruct H as [l [Hl H]].
  apply broadcast_Ok in Hl. exists l. split; [exact Hl|].
  destruct (join (kind_of a) (kind_of b));
    destruct (map (uncurry c) l) as [|x [|y m]];
    injection H as <-; reflexivity.
Qed.

Lemma compare_Err (c : f64 -> f64 -> bool) (a b : pyval) (e : exn) :
  compare c a b = Err e -> e = ValueError.
Proof.
  unfold compare. intros H. apply bind_Err in H.
  destruct H as [H|[l [_ H]]]; [eapply broadcast_Err, H|].
  destruct (join (kind_of a) (kind_of b));
    destruct (map (uncurry c) l) as [|x [|y m]]; discriminate.
Qed.

Lemma compare_fits (c : f64 -> f64 -> bool) (L : nat) (a b : pyval) :
  vfits L a -> vfits L b -> exists r, compare c a b = Ok r.
Proof.
  unfold vfits, compare. intros Ha Hb.
  destruct (broadcast_fits L _ _ Ha Hb) as [l [-> F]]. simpl.
  destruct (join (kind_of a) (kind_of b));
    destruct (map (uncurry c) l) as [|x [|y m]]; eexists; reflexivity.
Qed.

(** A comparison with a number never fails. *)
Lemma compare_scalar (c : f64 -> f64 -> bool) (a b : pyval) :
  kind_of b <> KNd ->
  exists r, compare c a b = Ok r
            /\ cmp_data r = map (fun x => c x (hd NaN (fdata b))) (fdata a).
Proof.
  intros Hb. destruct (kind_single b Hb) as [y Hy].
  unfold compare, broadcast. rewrite Hy, bcast_single_r. simpl.
  rewrite map_map. unfold uncurry. simpl.
  destruct (join (kind_of a) (kind_of b));
    destruct (map (fun x => c x y) (fdata a)) as [|u [|v m]] eqn:E;
    eexists; split; reflexivity.
Qed.

Lemma compare_scalars (c : f64 -> f64 -> bool) (a b : pyval) :
  kind_of a <> KNd -> kind_of b <> KNd ->
  compare c a b = Ok (BScalar (c (hd NaN (fdata a)) (hd NaN (fdata b)))).
Proof.
  intros Ha Hb. destruct (kind_single a Ha) as [x Hx].
  destruct (kind_single b Hb) as [y Hy].
  unfold compare, broadcast. rewrite Hx, Hy. simpl.
  destruct a, b; try contradiction; reflexivity.
Qed.

Lemma np_all_Forall (r : cmpval) :
  np_all r = true <-> Forall (fun b => b = true) (cmp_data r).
Proof. unfold np_all. rewrite forallb_forall, Forall_forall. reflexivity. Qed.

Lemma np_any_Exists (r : cmpval) :
  np_any r = true <-> Exists (fun b => b = true) (cmp_data r).
Proof.
  unfold np_any. rewrite existsb_exists, Exists_exists. reflexivity.
Qed.

(** ** The operators, element by element *)

Lemma py_add_fits (L : nat) (a b : pyval) :
  vfits L a -> vfits L b -> exists c, py_add a b = Ok c /\ vfits L c.
Proof. apply arith_fits. Qed.

Lemma py_sub_fits (L : nat) (a b : pyval) :
  vfits L a -> vfits L b -> exists c, py_sub a b = Ok c /\ vfits L c.
Proof. apply arith_fits. Qed.

Lemma py_mul_fits (L : nat) (a b : pyval) :
  vfits L a -> vfits L b -> exists c, py_mul a b = Ok c /\ vfits L c.
Proof. apply arith_fits. Qed.

Lemma py_add_at (a b c : pyval) (i : nat) (z : f64) :
  py_add a b = Ok c -> vat c i = Some z ->
  exists x y, vat a i = Some x /\ vat b i = Some y /\ z = fadd x y.
Proof. apply arith_at, add_compat. Qed.

Lemma py_sub_at (a b c : pyval) (i : nat) (z : f64) :
  py_sub a b = Ok c -> vat c i = Some z ->
  exists x y, vat a i = Some x /\ vat b i = Some y /\ z = fsub x y.
Proof. apply arith_at, sub_compat. Qed.

Lemma py_mul_at (a b c : pyval) (i : nat) (z : f64) :
  py_mul a b = Ok c -> vat c i = Some z ->
  exists x y, vat a i = Some x /\ vat b i = Some y /\ z = fmul x y.
Proof. apply arith_at, mul_compat. Qed.

Lemma py_mul_not_py (a b c : pyval) :
  py_mul a b = Ok c -> is_py a = false \/ is_py b = false -> is_py c = false.
Proof. apply arith_not_py. Qed.

Lemma vfits_int (L : nat) (z : Z) : vfits L (PyInt z).
Proof. now left. Qed.

Lemma vfits_float (L : nat) (x : f64) : vfits L (PyFloat x).
Proof. now left. Qed.

Lemma vat_int (z : Z) (i : nat) : vat (PyInt z) i = Some (of_Z z).
Proof. reflexivity. Qed.

Lemma vat_float (x : f64) (i : nat) : vat (PyFloat x) i = Some x.
Proof. reflexivity. Qed.

Create HintDb fits.

#[local] Hint Resolve vfits_int vfits_float ufunc1_fits : fits.

(** Runs one operation of a chain whose operands broadcast. *)
Ltac run_step lem :=
  let c := fresh "c" in
  let E := fresh "E" in
  let F := fresh "F" in
  edestruct lem as [c [E F]];
  [ (try eassumption; auto with fits) ..
  | rewrite E; cbn [bind] ].

(** Traces the element of a result back through the operations that made
    it. *)
Ltac trace_same :=
  repeat match goal with
    | H1 : vat ?c ?i = Some ?z1, H2 : vat ?c ?i = Some ?z2 |- _ =>
        rewrite H1 in H2; injection H2 as H2;
        first [subst z2 | subst z1 | rewrite <- ?H2 in *; clear H2]
    end.

Ltac trace_back :=
  repeat
    (trace_same;
     match goal with
     | E : py_add ?a ?b = Ok ?c, H : vat ?c ?i = Some ?z |- _ =>
         let x := fresh "x" in let y := fresh "y" in
         destruct (py_add_at a b c i z E H) as [x [y [? [? ?]]]];
         clear H; subst z
     | E : py_sub ?a ?b = Ok ?c, H : vat ?c ?i = Some ?z |- _ =>
         let x := fresh "x" in let y := fresh "y" in
         destruct (py_sub_at a b c i z E H) as [x [y [? [? ?]]]];
         clear H; subst z
     | E : py_mul ?a ?b = Ok ?c, H : vat ?c ?i = Some ?z |- _ =>
         let x := fresh "x" in let y := fresh "y" in
         destruct (py_mul_at a b c i z E H) as [x [y [? [? ?]]]];
         clear H; subst z
     | E : py_div ?a ?b = Ok ?c, H : vat ?c ?i = Some ?z |- _ =>
         let x := fresh "x" in let y := fresh "y" in
         destruct (py_div_at a b c i z E H) as [x [y [? [? ?]]]];
         clear H; subst z
     | E : ufunc2 ?f ?a ?b = Ok ?c, H : vat ?c ?i = Some ?z |- _ =>
         let x := fresh "x" in let y := fresh "y" in
         destruct (ufunc2_at f a b c i z E H) as [x [y [? [? ?]]]];
         clear H; subst z
     | E : ufunc3 ?f ?a ?b ?d = Ok ?c, H : vat ?c ?i = Some ?z |- _ =>
         let x := fresh "x" in let y := fresh "y" in let w := fresh "w" in
         destruct (ufunc3_at f a b d c i z E H) as [x [y [w [? [? [? ?]]]]]];
         clear H; subst z
     | E : ufunc4 ?f ?a ?b ?d ?e = Ok ?c, H : vat ?c ?i = Some ?z |- _ =>
         let x := fresh "x" in let y := fresh "y" in let w := fresh "w" in
         let u := fresh "u" in
         destruct (ufunc4_at f a b d e c i z E H)
           as [x [y [w [u [? [? [? [? ?]]]]]]]];
         clear H; subst z
     | H : vat (ufunc1 ?f ?a) ?i = Some ?z |- _ =>
         rewrite ufunc1_at in H;
         let x := fresh "x" in let Hx := fresh "Hx" in
         destruct (vat a i) as [x|] eqn:Hx; [|discriminate];
         simpl in H; injection H as H; subst z
     | H : vat (PyInt ?n) ?i = Some ?z |- _ =>
         rewrite vat_int in H; injection H as H; subst z
     | H : vat (PyFloat ?x) ?i = Some ?z |- _ =>
         rewrite vat_float in H; injection H as H; subst z
     end);
  trace_same.

(** ** Which errors an operation can end in *)

Definition raises_only {A : Type} (P : exn -> Prop) (r : result A) : Prop :=
  forall e, r = Err e -> P e.

Lemma raises_only_Ok {A : Type} (P : exn -> Prop) (a : A) :
  raises_only P (Ok a).
Proof. intros e H. discriminate. Qed.

Lemma raises_only_bind {A B : Type} (P : exn -> Prop) (r : result A)
  (f : A -> result B) :
  raises_only P r -> (forall a, raises_only P (f a)) ->
  raises_only P (bind r f).
Proof.
  intros Hr Hf e H. apply bind_Err in H. destruct H as [H|[a [_ H]]].
  - now apply Hr.
  - now apply (Hf a).
Qed.

Lemma raises_only_weaken {A : Type} (P Q : exn -> Prop) (r : result A) :
  (forall e, P e -> Q e) -> raises_only P r -> raises_only Q r.
Proof. intros H Hr e He. apply H, Hr, He. Qed.

Definition shape_error (e : exn) : Prop := e = ValueError.

Lemma arith_raises (fz : Z -> Z -> Z) (ff : f64 -> f64 -> f64) (a b : pyval) :
  raises_only shape_error (arith fz ff a b).
Proof. intros e. apply arith_Err. Qed.

Lemma compare_raises (c : f64 -> f64 -> bool) (a b : pyval) :
  raises_only shape_error (compare c a b).
Proof. intros e. apply compare_Err. Qed.

Lemma ufunc2_raises (f : f64 -> f64 -> f64) (a b : pyval) :
  raises_only shape_error (ufunc2 f a b).
Proof. intros e. apply ufunc2_Err. Qed.

Lemma ufunc3_raises (f : f64 -> f64 -> f64 -> f64) (a b c : pyval) :
  raises_only shape_error (ufunc3 f a b c).
Proof. intros e. apply ufunc3_Err. Qed.

Lemma ufunc4_raises (f : f64 -> f64 -> f64 -> f64 -> f64) (a b c d : pyval) :
  raises_only shape_error (ufunc4 f a b c d).
Proof. intros e. apply ufunc4_Err. Qed.

Lemma py_div_raises (a b : pyval) :
  raises_only (fun e => e = ValueError \/ e = ZeroDivisionError) (py_div a b).
Proof. intros e. apply py_div_Err. Qed.

Lemma py_assert_raises (c : bool) :
  raises_only (fun e => e = AssertionError) (py_assert c).
Proof.
  intros e. unfold py_assert. destruct c; intros H; inversion H. reflexivity.
Qed.

Lemma truth_raises (c : cmpval) : raises_only shape_error (truth c).
Proof.
  intros e. destruct c as [b|[|b [|b' l]]]; simpl; intros H; inversion H.
  reflexivity.
Qed.

Create HintDb raises.

#[local] Hint Resolve raises_only_Ok arith_raises compare_raises ufunc2_raises
  ufunc3_raises ufunc4_raises py_div_raises py_assert_raises truth_raises
  : raises.

(** Settles one step of a chain with the lemma of its operation. *)
Ltac raises_leaf :=
  unfold py_add, py_sub, py_mul, py_lt, py_le, py_gt, py_ge;
  first
    [ apply raises_only_Ok
    | apply (raises_only_weaken shape_error);
      [ unfold shape_error; intros ? ->; auto; discriminate
      | solve [auto with raises] ]
    | apply (raises_only_weaken (fun e => e = AssertionError));
      [ intros ? ->; auto; discriminate | solve [auto with raises] ]
    | apply (raises_only_weaken
               (fun e => e = ValueError \/ e = ZeroDivisionError));
      [ intros ? [->| ->]; auto; discriminate | solve [auto with raises] ] ].

(** Splits a chain of binds into its steps. *)
Ltac raises_chain :=
  repeat (apply raises_only_bind; [raises_leaf | intros ?]); raises_leaf.

(** ** The p-value conversion *)

Lemma existsb_map {A B : Type} (f : A -> B) (p : B -> bool) (l : list A) :
  existsb p (map f l) = existsb (fun x => p (f x)) l.
Proof. induction l as [|a l IH]; simpl; [reflexivity | now rewrite IH]. Qed.

Lemma forallb_map {A B : Type} (f : A -> B) (p : B -> bool) (l : list A) :
  forallb p (map f l) = forallb (fun x => p (f x)) l.
Proof. induction l as [|a l IH]; simpl; [reflexivity | now rewrite IH]. Qed.

(** The guard looks at every element, and [ndtri] is applied only when it
    lets all of them through. *)
Lemma significance_from_pvalue_guard (S : externals) (pvalue : pyval) :
  significance_from_pvalue S pvalue =
  if existsb (fun x => fle x tiny) (fdata pvalue) then Err ArithmeticError
  else Ok (py_neg (ufunc1 (ndtri S) pvalue)).
Proof.
  unfold significance_from_pvalue, py_le.
  destruct (compare_scalar fle pvalue (NpFloat tiny)) as [r [-> Hr]];
    [discriminate|].
  simpl. unfold np_any. now rewrite Hr, existsb_map.
Qed.

Lemma fdata_neg_ufunc1 (f : f64 -> f64) (a : pyval) :
  fdata (py_neg (ufunc1 f a)) = map (fun x => fneg (f x)) (fdata a).
Proof. now rewrite fdata_py_neg, fdata_ufunc1, map_map. Qed.

Lemma existsb_false_Forall {A : Type} (p : A -> bool) (l : list A) :
  existsb p l = false <-> Forall (fun x => p x = false) l.
Proof.
  induction l as [|a l IH]; simpl.
  - split; [constructor | reflexivity].
  - rewrite orb_false_iff, IH. split.
    + intros [H1 H2]. now constructor.
    + intros H. inversion H. now split.
Qed.

Lemma significance_from_pvalue_Err (S : externals) (pvalue : pyval) (e : exn) :
  significance_from_pvalue S pvalue = Err e ->
  e = ArithmeticError /\ Exists (fun x => fle x tiny = true) (fdata pvalue).
Proof.
  rewrite significance_from_pvalue_guard.
  destruct (existsb _ _) eqn:E; [|discriminate].
  intros H. injection H as <-. split; [reflexivity|].
  apply Exists_exists. apply existsb_exists in E. exact E.
Qed.

Lemma significance_from_pvalue_Ok (S : externals) (pvalue : pyval) :
  Forall (fun x => fle x tiny = false) (fdata pvalue) ->
  significance_from_pvalue S pvalue = Ok (py_neg (ufunc1 (ndtri S) pvalue)).
Proof.
  intros H. rewrite significance_from_pvalue_guard.
  apply existsb_false_Forall in H. now rewrite H.
Qed.

(** ** The branch of [significance] *)

(** [k < 0] for a number, or for an array of one element. *)
Definition k_negative (k : pyval) : Prop :=
  exists x, fdata k = [x] /\ flt x (Fin 0) = true.

Definition k_nonnegative (k : pyval) : Prop :=
  exists x, fdata k = [x] /\ fle (Fin 0) x = true.

Lemma branch_single (k : pyval) (x : f64) :
  fdata k = [x] ->
  (c <- py_lt k (PyInt 0) ;; truth c) = Ok (flt x (Fin 0)).
Proof.
  intros Hx. unfold py_lt.
  destruct (compare_scalar flt k (PyInt 0)) as [r [-> Hr]]; [discriminate|].
  simpl in *. rewrite Hx in Hr. simpl in Hr. unfold of_Z in Hr.
  destruct r as [b|[|b [|b' l]]]; simpl in *; try discriminate;
    injection Hr as ->; reflexivity.
Qed.

Lemma flt_fle_false (x : f64) : fle (Fin 0) x = true -> flt x (Fin 0) = false.
Proof.
  destruct x as [r| | |]; simpl; try discriminate; try reflexivity.
  unfold Rleb, Rltb. destruct (Rle_dec 0 r); [|discriminate].
  intros _. destruct (Rlt_dec r 0); [lra | reflexivity].
Qed.

Lemma significance_split (S : externals) (n b alpha k : pyval) :
  significance S n b alpha k =
  (t <- (c <- py_lt k (PyInt 0) ;; truth c) ;;
   if t : bool then
     mu <- py_mul alpha b ;;
     p <- ufunc2 (poisson_sf S) n mu ;;
     significance_from_pvalue S p
   else
     ab <- py_mul alpha b ;;
     c <- py_ge n ab ;;
     k1 <- py_add k (PyInt 1) ;;
     a <- py_mul alpha k1 ;;
     py_mul (np_where c 1 (-1)) (li_ma_significance S n b a)).
Proof.
  unfold significance. destruct (py_lt k (PyInt 0)) as [c|e]; reflexivity.
Qed.

Lemma significance_negative (S : externals) (n b alpha k : pyval) :
  k_negative k ->
  significance S n b alpha k =
  (mu <- py_mul alpha b ;;
   p <- ufunc2 (poisson_sf S) n mu ;;
   significance_from_pvalue S p).
Proof.
  intros [x [Hx Hlt]]. rewrite significance_split, (branch_single k x Hx), Hlt.
  reflexivity.
Qed.

Lemma significance_nonnegative (S : externals) (n b alpha k : pyval) :
  k_nonnegative k ->
  significance S n b alpha k =
  (ab <- py_mul alpha b ;;
   c <- py_ge n ab ;;
   k1 <- py_add k (PyInt 1) ;;
   a <- py_mul alpha k1 ;;
   py_mul (np_where c 1 (-1)) (li_ma_significance S n b a)).
Proof.
  intros [x [Hx Hle]]. rewrite significance_split, (branch_single k x Hx).
  now rewrite (flt_fle_false x Hle).
Qed.

(** ** Errors of the other functions *)

Lemma posterior_raises (S : externals) (rate n b alpha exposure : pyval) :
  raises_only (fun e => e = ValueError \/ e = ZeroDivisionError)
    (posterior S rate n b alpha exposure).
Proof. unfold posterior. raises_chain. Qed.

Lemma uncertainties_rate_raises (S : externals) (k q exposure : pyval) :
  raises_only (fun e => e <> ArithmeticError)
    (uncertainties_rate S k q exposure).
Proof. unfold uncertainties_rate. raises_chain. Qed.

Lemma uncertainties_fraction_raises (S : externals) (k n q : pyval) :
  raises_only (fun e => e <> ArithmeticError)
    (uncertainties_fraction S k n q).
Proof. unfold uncertainties_fraction. raises_chain. Qed.

Lemma li_ma_branch_raises (S : externals) (n b alpha k : pyval) :
  raises_only shape_error
    (ab <- py_mul alpha b ;;
     c <- py_ge n ab ;;
     k1 <- py_add k (PyInt 1) ;;
     a <- py_mul alpha k1 ;;
     py_mul (np_where c 1 (-1)) (li_ma_significance S n b a)).
Proof. raises_chain. Qed.

(** [significance] ends in [ArithmeticError] only in its first branch, and
    only when the conversion of the p-value does. *)
Lemma significance_ArithmeticError (S : externals) (n b alpha k : pyval) :
  significance S n b alpha k = Err ArithmeticError ->
  (c <- py_lt k (PyInt 0) ;; truth c) = Ok true
  /\ exists mu p, py_mul alpha b = Ok mu
                  /\ ufunc2 (poisson_sf S) n mu = Ok p
                  /\ significance_from_pvalue S p = Err ArithmeticError.
Proof.
  rewrite significance_split. intros H. apply bind_Err in H.
  destruct H as [H|[t [Ht H]]].
  - exfalso. assert (Hs : shape_error ArithmeticError); [|discriminate].
    revert H. generalize ArithmeticError.
    change (raises_only shape_error (c <- py_lt k (PyInt 0) ;; truth c)).
    raises_chain.
  - destruct t.
    + split; [exact Ht|].
      apply bind_Err in H. destruct H as [H|[mu [Hmu H]]].
      { apply arith_Err in H. discriminate. }
      apply bind_Err in H. destruct H as [H|[p [Hp H]]].
      { apply ufunc2_Err in H. discriminate. }
      exists mu, p. repeat split; assumption.
    + apply li_ma_branch_raises in H. discriminate.
Qed.

(** [alpha] is a Python number equal to zero. *)
Definition python_zero (v : pyval) : bool := is_py v && is_zero v.

Lemma posterior_python_zero (S : externals) (L : nat)
  (rate n b alpha exposure : pyval) :
  vfits L rate -> vfits L n -> vfits L b -> vfits L exposure ->
  python_zero alpha = true ->
  posterior S rate n b alpha exposure = Err ZeroDivisionError.
Proof.
  intros Hr Hn Hb He Hz. unfold posterior.
  apply andb_true_iff in Hz. destruct Hz as [Hp Hz].
  run_step (py_mul_fits L exposure rate).
  run_step (py_add_fits L (PyInt 1) b).
  run_step (py_add_fits L c0 n).
  run_step (py_add_fits L (PyFloat (Fin (1 / 2))) b).
  run_step (py_add_fits L (PyFloat (Fin (3 / 2))) b).
  run_step (py_add_fits L n b).
  run_step (ufunc2_fits (poisson_pmf S) L c4 c).
  now rewrite py_div_python_zero.
Qed.

Lemma ufunc2_not_py (f : f64 -> f64 -> f64) (a b c : pyval) :
  ufunc2 f a b = Ok c -> is_py c = false.
Proof.
  unfold ufunc2. intros H. apply bind_Ok in H. destruct H as [l [_ H]].
  injection H as <-. apply is_py_of_floats_false, np_kind_not_py.
Qed.

Lemma py_div_ZeroDivisionError (a b : pyval) :
  py_div a b = Err ZeroDivisionError -> is_py a = true.
Proof.
  unfold py_div. destruct a, b; cbn [kind_of is_py]; try reflexivity;
    intros H; apply bind_Err in H;
    destruct H as [H|[l [_ H]]]; try discriminate;
    apply broadcast_Err in H; discriminate.
Qed.

(** The errors each function can end in. *)
Lemma significance_from_pvalue_errors (S : externals) (pvalue : pyval)
  (e : exn) :
  significance_from_pvalue S pvalue = Err e -> e = ArithmeticError.
Proof. intros H. now apply significance_from_pvalue_Err in H. Qed.

Lemma uncertainties_rate_errors (S : externals) (k q exposure : pyval)
  (e : exn) :
  uncertainties_rate S k q exposure = Err e ->
  e = AssertionError \/ e = ValueError.
Proof.
  unfold uncertainties_rate, py_gt, py_lt, py_add. intros H.
  repeat match goal with
    | H : bind _ _ = Err _ |- _ =>
        apply bind_Err in H; destruct H as [H|[? [? H]]]
    end;
    try (apply py_assert_raises in H; now left);
    try (apply compare_Err in H; now right);
    try (apply arith_Err in H; now right);
    try (apply ufunc2_Err in H; now right).
  destruct (py_div_Err _ _ _ H) as [->| ->]; [now right|].
  apply py_div_ZeroDivisionError in H.
  match goal with
  | Hg : ufunc2 _ _ _ = Ok _ |- _ =>
      rewrite (ufunc2_not_py _ _ _ _ Hg) in H
  end.
  discriminate.
Qed.

Lemma uncertainties_fraction_errors (S : externals) (k n q : pyval)
  (e : exn) :
  uncertainties_fraction S k n q = Err e ->
  e = AssertionError \/ e = ValueError.
Proof.
  unfold uncertainties_fraction, py_gt, py_lt, py_le, py_add, py_sub.
  intros H.
  repeat match goal with
    | H : bind _ _ = Err _ |- _ =>
        apply bind_Err in H; destruct H as [H|[? [? H]]]
    end;
    try (apply py_assert_raises in H; now left);
    try (apply compare_Err in H; now right);
    try (apply arith_Err in H; now right).
  apply ufunc3_Err in H. now right.
Qed.

Lemma significance_errors (S : externals) (n b alpha k : pyval) (e : exn) :
  significance S n b alpha k = Err e ->
  e = ArithmeticError \/ e = ValueError.
Proof.
  rewrite significance_split. intros H. apply bind_Err in H.
  destruct H as [H|[t [Ht H]]].
  - right.
    assert (Hr : raises_only shape_error (c <- py_lt k (PyInt 0) ;; truth c))
      by raises_chain.
    exact (Hr e H).
  - destruct t.
    + apply bind_Err in H. destruct H as [H|[mu [Hmu H]]].
      { apply arith_Err in H. now right. }
      apply bind_Err in H. destruct H as [H|[p [Hp H]]].
      { apply ufunc2_Err in H. now right. }
      left. now apply significance_from_pvalue_errors in H.
    + right. now apply li_ma_branch_raises in H.
Qed.

(** ** Numbers with a real value *)

(** A scalar, Python's or numpy's, integer or double, of finite value [x]. *)
Definition real_scalar (v : pyval) (x : R) : Prop :=
  kind_of v <> KNd /\ fdata v = [Fin x].

Lemma real_scalar_nat (m : nat) : real_scalar (PyInt (Z.of_nat m)) (INR m).
Proof.
  split; [discriminate|]. simpl. unfold of_Z. now rewrite <- INR_IZR_INZ.
Qed.

Lemma real_scalar_int (z : Z) : real_scalar (PyInt z) (IZR z).
Proof. split; [discriminate | reflexivity]. Qed.

Lemma real_scalar_float (x : R) : real_scalar (PyFloat (Fin x)) x.
Proof. split; [discriminate | reflexivity]. Qed.

Ltac real_scalars :=
  repeat match goal with
    | H : real_scalar ?v _ |- _ =>
        destruct H as [? H]; destruct v; try contradiction;
        simpl in H; unfold of_Z in H; injection H as H; subst
    end.

Lemma py_mul_real (a b : pyval) (x y : R) :
  real_scalar a x -> real_scalar b y ->
  exists c, py_mul a b = Ok c /\ real_scalar c (x * y).
Proof.
  intros Ha Hb. real_scalars; eexists; (split; [reflexivity|]);
    (split; [discriminate|]); simpl; unfold of_Z, uncurry; simpl;
    rewrite ?mult_IZR; reflexivity.
Qed.

Lemma ufunc2_real (f : f64 -> f64 -> f64) (a b : pyval) (x y : R) :
  real_scalar a x -> real_scalar b y ->
  ufunc2 f a b = Ok (NpFloat (f (Fin x) (Fin y))).
Proof. intros Ha Hb. real_scalars; reflexivity. Qed.

(** With [k < 0] and numbers in the documented domain, the p-value that is
    converted is the probability of more than [n] events. *)
Lemma significance_tail (S : externals) (n b alpha k : pyval) (m : nat)
  (bv av : R) :
  contract S ->
  real_scalar n (INR m) -> real_scalar b bv -> real_scalar alpha av ->
  0 <= bv -> 0 <= av -> k_negative k ->
  significance S n b alpha k =
  significance_from_pvalue S (NpFloat (Fin (prob_gt m (av * bv)))).
Proof.
  intros HS Hn Hb Ha Hbv Hav Hk.
  rewrite (significance_negative S n b alpha k Hk).
  destruct (py_mul_real alpha b av bv Ha Hb) as [mu [-> Hmu]]. simpl.
  rewrite (ufunc2_real _ n mu (INR m) (av * bv) Hn Hmu). simpl.
  rewrite (poisson_sf_spec S HS) by (apply Rmult_le_pos; assumption).
  reflexivity.
Qed.

(** ** The smallest normal double *)

Lemma tiny_pos : 0 < tiny_R.
Proof. unfold tiny_R. apply Rinv_0_lt_compat, pow_lt. lra. Qed.

Lemma tiny_small : tiny_R <= / 1024.
Proof.
  unfold tiny_R. apply Rinv_le_contravar; [lra|].
  replace 1024 with (2 ^ 10) by (simpl; lra).
  apply Rle_pow; [lra | lia].
Qed.

Lemma significance_from_pvalue_scalar (S : externals) (p : R) :
  tiny_R < p ->
  significance_from_pvalue S (NpFloat (Fin p)) =
  Ok (NpFloat (fneg (ndtri S (Fin p)))).
Proof.
  intros Hp. rewrite significance_from_pvalue_guard. simpl.
  now rewrite (Rleb_false p tiny_R Hp).
Qed.

Lemma significance_from_pvalue_small (S : externals) (p : R) :
  p <= tiny_R ->
  significance_from_pvalue S (NpFloat (Fin p)) = Err ArithmeticError.
Proof.
  intros Hp. rewrite significance_from_pvalue_guard. simpl.
  now rewrite (Rleb_true p tiny_R Hp).
Qed.

Lemma k_negative_minus_one : k_negative (PyInt (-1)).
Proof.
  exists (Fin (-1)). split; [reflexivity|]. simpl. apply Rltb_true. lra.
Qed.

Lemma prob_gt_0 (mu : R) : prob_gt 0 mu = 1 - exp (- mu).
Proof.
  rewrite prob_gt_cdf. unfold poisson_cdf, expsum. simpl.
  rewrite Rinv_1. ring.
Qed.

(** ** The operations on concrete values *)

(** IEEE's special values in arithmetic. *)
Example fadd_specials :
  fadd PInf NInf = NaN /\ fadd (Fin 1) PInf = PInf
  /\ fadd NInf (Fin 1) = NInf /\ fadd NaN PInf = NaN.
Proof. repeat split. Qed.

Example fmul_fdiv_specials :
  fmul PInf NInf = NInf /\ fmul NInf NInf = PInf /\ fmul NaN (Fin 0) = NaN
  /\ fdiv PInf PInf = NaN /\ fdiv (Fin 1) PInf = Fin 0
  /\ fdiv (Fin 1) NInf = Fin 0.
Proof. repeat split. Qed.

(** Every comparison with NaN is false. *)
Example comparisons_nan :
  fle NaN tiny = false /\ fle tiny NaN = false /\ flt NaN PInf = false
  /\ fgt NaN tiny = false /\ fge NInf NaN = false.
Proof. repeat split. Qed.

Example comparisons_infinite :
  flt NInf PInf = true /\ flt PInf PInf = false /\ fle PInf PInf = true
  /\ flt (Fin 0) PInf = true /\ fle (Fin 0) NInf = false
  /\ flt NInf (Fin 0) = true.
Proof. repeat split. Qed.

(** A number is added to every element of an array; two arrays of different
    lengths, none of them 1, do not add. *)
Example py_add_broadcasts :
  py_add (PyInt 1) (NdInt [1; 2]%Z) = Ok (NdInt [2; 3]%Z)
  /\ py_add (NdInt [10]%Z) (NdInt [1; 2]%Z) = Ok (NdInt [11; 12]%Z)
  /\ py_add (NdInt [1; 2]%Z) (NdInt [1; 2; 3]%Z) = Err ValueError
  /\ py_add (NdInt []) (PyInt 1) = Ok (NdInt []).
Proof. repeat split. Qed.

(** Python numbers stay Python numbers among themselves and become numpy
    scalars next to one. *)
Example py_add_kinds :
  py_add (PyInt 1) (PyInt 2) = Ok (PyInt 3)
  /\ py_add (PyInt 1) (NpInt 2) = Ok (NpInt 3)
  /\ py_add (PyFloat (Fin 1)) (PyInt 2)
     = Ok (PyFloat (fadd (Fin 1) (of_Z 2)))
  /\ py_mul (NdFloat [Fin 1; Fin 2]) (NpInt 3)
     = Ok (NdFloat [fmul (Fin 1) (of_Z 3); fmul (Fin 2) (of_Z 3)]).
Proof. repeat split. Qed.

(** [1. / 0] raises in Python; [1. / np.float64(0)] is [inf]. *)
Example py_div_zero :
  py_div (PyFloat (Fin 1)) (PyInt 0) = Err ZeroDivisionError
  /\ py_div (PyInt (-1)) (PyFloat (Fin 0)) = Err ZeroDivisionError
  /\ py_div (PyFloat (Fin 1)) (NpFloat (Fin 0))
     = Ok (NpFloat (fdiv (Fin 1) (Fin 0))).
Proof.
  repeat split; unfold py_div, is_zero; simpl;
    now rewrite ?Z.eqb_refl, ?(Reqb_true 0 0 eq_refl).
Qed.

Example np_where_shapes :
  np_where (BScalar true) 1 (-1) = NpInt 1
  /\ np_where (BArray [true; false]) 1 (-1) = NdInt [1; -1]%Z.
Proof. repeat split. Qed.

(** [if] on a comparison of arrays. *)
Example truth_shapes :
  truth (BScalar true) = Ok true /\ truth (BArray [false]) = Ok false
  /\ truth (BArray [true; true]) = Err ValueError.
Proof. repeat split. Qed.

(** [pvalue_from_significance(1)] is a numpy double, and the default
    quantiles are those of 0, -1 and +1 sigma. *)
Example pvalue_from_significance_scalar (S : externals) :
  pvalue_from_significance S (PyInt 1) = NpFloat (ndtr S (of_Z (-1))).
Proof. reflexivity. Qed.

Example default_q_layout (S : externals) :
  default_q S
  = NdFloat [ndtr S (of_Z 0); ndtr S (of_Z 1); ndtr S (of_Z (-1))].
Proof. reflexivity. Qed.

(** * The properties *)

Lemma exp_1_gt_2 : 2 < exp 1.
Proof. pose proof (exp_ineq1 1). lra. Qed.

Lemma exp_m1_bounds : 0 < exp (- (1)) < / 2.
Proof.
  split; [apply exp_pos|]. rewrite exp_Ropp.
  apply Rinv_lt_contravar; [pose proof exp_1_gt_2; nra | apply exp_1_gt_2].
Qed.

(** ** C1: the p-value of the first branch *)



Lemma exp_1_ge : 9 / 4 <= exp 1.
Proof.
  replace 1 with (/ 2 + / 2) by field. rewrite exp_plus.
  pose proof (exp_ineq1_le (/ 2)). nra.
Qed.

Lemma exp_m1_le : exp (- (1)) <= 4 / 9.
Proof.
  rewrite exp_Ropp. pose proof exp_1_ge as H.
  replace (4 / 9) with (/ (9 / 4)) by field.
  apply Rinv_le_contravar; lra.
Qed.

Lemma prob_gt_1 (mu : R) : prob_gt 1 mu = 1 - exp (- mu) * (1 + mu).
Proof.
  rewrite prob_gt_cdf. unfold poisson_cdf, expsum. simpl.
  rewrite Rinv_1. field.
Qed.

Lemma prob_ge_1 (mu : R) : prob_ge 1 mu = 1 - exp (- mu).
Proof.
  unfold prob_ge, prob_lt, poisson_prob. simpl. rewrite Rinv_1. ring.
Qed.

Lemma significance_from_pvalue_injective (p q : R) :
  tiny_R < p < 1 -> tiny_R < q < 1 ->
  significance_from_pvalue reference (NpFloat (Fin p))
  = significance_from_pvalue reference (NpFloat (Fin q)) ->
  p = q.
Proof.
  intros Hp Hq. pose proof tiny_pos as Ht.
  rewrite !significance_from_pvalue_scalar by lra.
  change (ndtri reference) with ndtri_ref.
  destruct (ndtri_ref_spec p) as [zp [-> HPp]]; [lra|].
  destruct (ndtri_ref_spec q) as [zq [-> HPq]]; [lra|].
  simpl. intros H. injection H as H.
  assert (zp = zq) by lra. congruence.
Qed.


(** ** C2: the Li & Ma branch *)

(** [np.where(n >= ab, 1, -1)]. *)
Definition sign_array (n ab : pyval) : result pyval :=
  c <- py_ge n ab ;; Ok (np_where c 1 (-1)).

Lemma fdata_np_where (c : cmpval) (x y : Z) :
  fdata (np_where c x y)
  = map (fun b : bool => of_Z (if b then x else y)) (cmp_data c).
Proof. destruct c as [b|a]; simpl; [reflexivity | now rewrite map_map]. Qed.

Lemma sign_array_at (n ab sign : pyval) (i : nat) (s : f64) :
  sign_array n ab = Ok sign -> vat sign i = Some s ->
  exists x y, vat n i = Some x /\ vat ab i = Some y
              /\ s = if fge x y then Fin 1 else Fin (-1).
Proof.
  unfold sign_array, py_ge, vat. intros H. apply bind_Ok in H.
  destruct H as [c [Hc H]]. injection H as <-.
  destruct (compare_data _ _ _ _ Hc) as [l [Hl Hd]].
  rewrite fdata_np_where, Hd, map_map, lat_map.
  destruct (lat l i) as [p|] eqn:Ep; [|discriminate].
  simpl. intros H. injection H as <-.
  destruct (bcast_lat _ _ _ _ _ Hl Ep) as [H1 H2].
  exists (fst p), (snd p). repeat split; try assumption.
  unfold uncurry. now destruct (fge (fst p) (snd p)).
Qed.

Lemma significance_sign_magnitude (S : externals) (n b alpha k : pyval) :
  k_nonnegative k ->
  significance S n b alpha k =
  (ab <- py_mul alpha b ;;
   sign <- sign_array n ab ;;
   k1 <- py_add k (PyInt 1) ;;
   a <- py_mul alpha k1 ;;
   py_mul sign (li_ma_significance S n b a)).
Proof.
  intros Hk. rewrite (significance_nonnegative S n b alpha k Hk).
  destruct (py_mul alpha b) as [ab|e]; [simpl|reflexivity].
  unfold sign_array. destruct (py_ge n ab) as [c|e]; reflexivity.
Qed.


Lemma k_nonnegative_tenth : k_nonnegative (PyFloat (Fin (/ 10))).
Proof.
  exists (Fin (/ 10)). split; [reflexivity|]. simpl. apply Rleb_true. lra.
Qed.


(** ** C3: the sign in the first branch *)

Lemma Rleb_iff (x y : R) : Rleb x y = true <-> x <= y.
Proof.
  unfold Rleb.
  destruct (Rle_dec x y); split; intros; try assumption; try reflexivity;
    try discriminate; contradiction.
Qed.

Lemma Rltb_iff (x y : R) : Rltb x y = true <-> x < y.
Proof.
  unfold Rltb.
  destruct (Rlt_dec x y); split; intros; try assumption; try reflexivity;
    try discriminate; contradiction.
Qed.

Lemma Phi_le_half (z : R) : Phi z <= 1 / 2 <-> z <= 0.
Proof.
  rewrite <- Phi_0. split; intros H.
  - destruct (Rle_dec z 0) as [Hz|Hz]; [exact Hz|].
    pose proof (Phi_increasing 0 z). lra.
  - destruct (Req_dec z 0) as [->|Hz]; [lra|].
    pose proof (Phi_increasing z 0). lra.
Qed.

(** The significance of a probability is negative exactly when the
    probability is above one half. *)
Lemma ndtri_sign (S : externals) (q : R) :
  contract S -> 0 < q <= 1 ->
  (fle (Fin 0) (fneg (ndtri S (Fin q))) = true <-> q <= 1 / 2).
Proof.
  intros HS [Hq0 Hq1]. destruct (Req_dec q 1) as [->|Hne].
  - rewrite (ndtri_one S HS). simpl. split; [discriminate | lra].
  - destruct (ndtri_spec S HS q) as [z [-> HP]]; [lra|].
    simpl. rewrite Rleb_iff, <- HP, Phi_le_half. lra.
Qed.

Lemma significance_negative_values (S : externals) (n b alpha k r : pyval) :
  contract S -> k_negative k -> significance S n b alpha k = Ok r ->
  exists mu p,
    py_mul alpha b = Ok mu /\ ufunc2 (poisson_sf S) n mu = Ok p
    /\ forall i v, vat r i = Some v ->
       exists x, vat p i = Some x /\ v = fneg (ndtri S x)
                 /\ forall q, x = Fin q -> q <= 1 ->
                      (fle (Fin 0) v = true <-> q <= 1 / 2).
Proof.
  intros HS Hk. rewrite (significance_negative S n b alpha k Hk).
  intros H. apply bind_Ok in H. destruct H as [mu [Hmu H]].
  apply bind_Ok in H. destruct H as [p [Hp H]].
  exists mu, p. split; [exact Hmu|]. split; [exact Hp|].
  rewrite significance_from_pvalue_guard in H.
  destruct (existsb _ _) eqn:E; [discriminate|]. injection H as <-.
  apply existsb_false_Forall in E.
  intros i v. unfold vat. rewrite fdata_neg_ufunc1, lat_map.
  destruct (lat (fdata p) i) as [x|] eqn:Ex; [|discriminate].
  simpl. intros Hv. injection Hv as <-.
  exists x. split; [reflexivity|]. split; [reflexivity|].
  intros q -> Hq1.
  assert (Hq0 : tiny_R < q).
  { rewrite Forall_forall in E. specialize (E _ (lat_In _ _ _ Ex)).
    simpl in E. unfold Rleb in E.
    destruct (Rle_dec q tiny_R); [discriminate | lra]. }
  pose proof tiny_pos as Ht. apply ndtri_sign; [exact HS | lra].
Qed.

(** C3, as amended.  In the [k < 0] branch every returned value is
    [-ndtri(p)] for the tail probability [p] at its position, and it is
    non-negative exactly when [p <= 1/2]: a deficit whose tail probability
    exceeds one half has a negative significance. *)
Theorem significance_negative_branch_sign (S : externals)
  (n b alpha k r : pyval) :
  contract S -> k_negative k -> significance S n b alpha k = Ok r ->
  exists mu p,
    py_mul alpha b = Ok mu /\ ufunc2 (poisson_sf S) n mu = Ok p
    /\ forall i v, vat r i = Some v ->
       exists x, vat p i = Some x /\ v = fneg (ndtri S x)
                 /\ forall q, x = Fin q -> q <= 1 ->
                      (fle (Fin 0) v = true <-> q <= 1 / 2).
Proof. apply significance_negative_values. Qed.

(** No event where one is expected: the tail probability is [1 - 1/e]. *)
Lemma significance_deficit :
  significance reference (PyInt 0) (PyInt 1) (PyInt 1) (PyInt (-1))
  = Ok (NpFloat (fneg (ndtri_ref (Fin (1 - exp (- (1))))))).
Proof.
  rewrite (significance_tail reference (PyInt 0) (PyInt 1) (PyInt 1)
             (PyInt (-1)) 0 1 1 reference_contract (real_scalar_nat 0)
             (real_scalar_int 1) (real_scalar_int 1))
    by (try lra; exact k_negative_minus_one).
  rewrite prob_gt_0, Rmult_1_r.
  pose proof exp_m1_bounds as He. pose proof tiny_small as Ht.
  now rewrite significance_from_pvalue_scalar by lra.
Qed.

Lemma significance_negative_branch_sign_witness :
  exists mu p,
    py_mul (PyInt 1) (PyInt 1) = Ok mu
    /\ ufunc2 (poisson_sf reference) (PyInt 0) mu = Ok p
    /\ forall i v,
       vat (NpFloat (fneg (ndtri_ref (Fin (1 - exp (- (1))))))) i = Some v ->
       exists x, vat p i = Some x /\ v = fneg (ndtri reference x)
                 /\ forall q, x = Fin q -> q <= 1 ->
                      (fle (Fin 0) v = true <-> q <= 1 / 2).
Proof.
  exact (significance_negative_branch_sign reference (PyInt 0) (PyInt 1)
           (PyInt 1) (PyInt (-1)) _ reference_contract k_negative_minus_one
           significance_deficit).
Defined.

(** C3 as stated fails: with no event seen and one expected, a deficit, the
    returned significance is negative. *)
Lemma significance_deficit_negative :
  exists v : R,
    significance reference (PyInt 0) (PyInt 1) (PyInt 1) (PyInt (-1))
    = Ok (NpFloat (Fin v))
    /\ v < 0.
Proof.
  rewrite significance_deficit.
  pose proof exp_m1_bounds as He.
  destruct (ndtri_ref_spec (1 - exp (- (1)))) as [z [Hz HP]]; [lra|].
  exists (- z). rewrite Hz. split; [reflexivity|].
  destruct (Rlt_dec (- z) 0) as [H|H]; [exact H|].
  assert (H1 : Phi z <= 1 / 2) by (apply Phi_le_half; lra). lra.
Qed.

(** ** C4: the domain error *)

(** C4, as amended.  [significance_from_pvalue] raises [ArithmeticError]
    exactly when some element satisfies [pvalue <= tiny] (an element that is
    NaN does not: every comparison with it is false), and raises nothing
    else; otherwise it returns [-ndtri(pvalue)], element by element.  Of
    the other functions, counting the subclasses of [ArithmeticError] as
    Python does, and for arguments whose Python ints convert to doubles:
    the two [uncertainties_] functions raise no error of that class
    ([pvalue_from_significance] raises nothing at all); [posterior] raises
    none but [ZeroDivisionError], which is of that class, and does so for
    an [alpha] that is a Python zero; [significance] raises none but
    [ArithmeticError] itself, in its [k < 0] branch only, handing on the
    error of the conversion. *)
Theorem domain_error_sites :
  (forall (S : externals) (pvalue : pyval),
      (significance_from_pvalue S pvalue = Err ArithmeticError
       <-> Exists (fun x => fle x tiny = true) (fdata pvalue))
      /\ (double_range pvalue ->
          forall e, significance_from_pvalue S pvalue = Err e ->
                    e = ArithmeticError)
      /\ (Forall (fun x => fle x tiny = false) (fdata pvalue) ->
          exists r, significance_from_pvalue S pvalue = Ok r
                    /\ r = py_neg (ufunc1 (ndtri S) pvalue)
                    /\ fdata r
                       = map (fun x => fneg (ndtri S x)) (fdata pvalue)))
  /\ (forall (S : externals) (rate n b alpha exposure : pyval),
         Forall double_range [rate; n; b; alpha; exposure] ->
         (forall e, posterior S rate n b alpha exposure = Err e ->
                    is_ArithmeticError e = true -> e = ZeroDivisionError)
         /\ (forall L, vfits L rate -> vfits L n -> vfits L b ->
                       vfits L exposure -> python_zero alpha = true ->
                       posterior S rate n b alpha exposure
                       = Err ZeroDivisionError))
  /\ (forall (S : externals) (k q exposure : pyval) (e : exn),
         Forall double_range [k; q; exposure] ->
         uncertainties_rate S k q exposure = Err e ->
         is_ArithmeticError e = false)
  /\ (forall (S : externals) (k n q : pyval) (e : exn),
         Forall double_range [k; n; q] ->
         uncertainties_fraction S k n q = Err e ->
         is_ArithmeticError e = false)
  /\ (forall (S : externals) (n b alpha k : pyval) (e : exn),
         Forall double_range [n; b; alpha; k] ->
         significance S n b alpha k = Err e ->
         is_ArithmeticError e = true ->
         e = ArithmeticError
         /\ (c <- py_lt k (PyInt 0) ;; truth c) = Ok true
         /\ exists mu p, py_mul alpha b = Ok mu
                         /\ ufunc2 (poisson_sf S) n mu = Ok p
                         /\ significance_from_pvalue S p = Err ArithmeticError).
Proof.
  split; [|split; [|split; [|split]]].
  - intros S pvalue. split; [split|split].
    + intros H. now apply significance_from_pvalue_Err in H.
    + intros H. rewrite significance_from_pvalue_guard.
      apply Exists_exists in H. apply existsb_exists in H. now rewrite H.
    + intros _. apply significance_from_pvalue_errors.
    + intros H. eexists. split; [now apply significance_from_pvalue_Ok|].
      split; [reflexivity | apply fdata_neg_ufunc1].
  - intros S rate n b alpha exposure _. split.
    + intros e H He. apply posterior_raises in H.
      destruct H as [->| ->]; [discriminate | reflexivity].
    + intros L. apply posterior_python_zero.
  - intros S k q exposure e _ H.
    destruct (uncertainties_rate_errors S k q exposure e H) as [->| ->];
      reflexivity.
  - intros S k n q e _ H.
    destruct (uncertainties_fraction_errors S k n q e H) as [->| ->];
      reflexivity.
  - intros S n b alpha k e _ H He.
    destruct (significance_errors S n b alpha k e H) as [->| ->];
      [|discriminate].
    split; [reflexivity|]. now apply significance_ArithmeticError in H.
Qed.

(** C4 as stated fails three times.  NaN is not strictly greater than
    [tiny], yet the conversion does not raise on it and returns NaN.
    [significance] raises the error as well: no event seen and none
    expected has tail probability 0.  And [posterior] with a Python zero
    for [alpha] raises [ZeroDivisionError], which is an
    [ArithmeticError]. *)
Lemma domain_error_counterexample :
  (fgt NaN tiny = false
   /\ significance_from_pvalue reference (PyFloat NaN) = Ok (NpFloat NaN))
  /\ significance reference (PyInt 0) (PyInt 0) (PyInt 1) (PyInt (-1))
     = Err ArithmeticError
  /\ (posterior reference (PyFloat (Fin 1)) (PyInt 4) (PyInt 0)
        (PyFloat (Fin 0)) (PyFloat (Fin 1))
      = Err ZeroDivisionError
      /\ is_ArithmeticError ZeroDivisionError = true).
Proof.
  split; [split; reflexivity|]. split.
  - rewrite (significance_tail reference (PyInt 0) (PyInt 0) (PyInt 1)
               (PyInt (-1)) 0 0 1 reference_contract (real_scalar_nat 0)
               (real_scalar_int 0) (real_scalar_int 1))
      by (try lra; exact k_negative_minus_one).
    rewrite prob_gt_0, Rmult_0_r, Ropp_0, exp_0.
    apply significance_from_pvalue_small. pose proof tiny_pos. lra.
  - split; [|reflexivity].
    apply (posterior_python_zero reference 1); try (now left).
    unfold python_zero. simpl. now apply Reqb_true.
Qed.

(** ** C6: the posterior *)

(** The closed form at one position. *)
Definition posterior_formula (S : externals) (rate n b alpha exposure : f64)
  : f64 :=
  let nexp := fmul exposure rate in
  let t_1 := fadd (fadd (Fin 1) b) n in
  let hb := fadd (Fin (1 / 2)) b in
  let thb := fadd (Fin (3 / 2)) b in
  fmul
    (fdiv
       (fmul (poisson_pmf S (fadd n b) nexp)
          (hyperu S hb t_1 (fmul (fadd (Fin 1) (fdiv (Fin 1) alpha)) nexp)))
       (hyp2f1 S hb t_1 thb (fdiv (Fin (-1)) alpha)))
    (gamma S thb).

Lemma posterior_values (S : externals) (L : nat)
  (rate n b alpha exposure : pyval) :
  vfits L rate -> vfits L n -> vfits L b -> vfits L alpha ->
  vfits L exposure -> python_zero alpha = false ->
  exists r, posterior S rate n b alpha exposure = Ok r /\ vfits L r
    /\ forall i v, vat r i = Some v ->
       exists xr xn xb xa xe,
         vat rate i = Some xr /\ vat n i = Some xn /\ vat b i = Some xb
         /\ vat alpha i = Some xa /\ vat exposure i = Some xe
         /\ v = posterior_formula S xr xn xb xa xe.
Proof.
  intros Hr Hn Hb Ha He Hz. unfold posterior, python_zero in *.
  run_step (py_mul_fits L exposure rate).
  run_step (py_add_fits L (PyInt 1) b).
  run_step (py_add_fits L c0 n).
  run_step (py_add_fits L (PyFloat (Fin (1 / 2))) b).
  run_step (py_add_fits L (PyFloat (Fin (3 / 2))) b).
  run_step (py_add_fits L n b).
  run_step (ufunc2_fits (poisson_pmf S) L c4 c).
  destruct F5 as [F5 P5].
  run_step (py_div_fits L (PyFloat (Fin 1)) alpha).
  destruct F6 as [F6 _].
  run_step (py_add_fits L (PyInt 1) c6).
  run_step (py_mul_fits L c7 c).
  run_step (ufunc3_fits (hyperu S) L c2 c1 c8).
  destruct F9 as [F9 P9].
  run_step (py_mul_fits L c5 c9).
  run_step (py_div_fits L (PyInt (-1)) alpha).
  destruct F11 as [F11 _].
  run_step (ufunc4_fits (hyp2f1 S) L c2 c1 c3 c11).
  destruct F12 as [F12 P12].
  edestruct (py_div_fits L c10 c12) as [c13 [E13 [F13 P13]]];
    [assumption | assumption | now rewrite P12, andb_false_r|].
  rewrite E13. cbn [bind].
  edestruct (py_mul_fits L c13 (ufunc1 (gamma S) c3)) as [r [Er Fr]];
    [assumption | auto with fits|].
  exists r. split; [exact Er|]. split; [exact Fr|].
  intros i v Hv. trace_back.
  do 5 eexists. repeat (split; [eassumption|]). reflexivity.
Qed.


Lemma vfits_two (x y : f64) : vfits 2 (NdFloat [x; y]).
Proof. now right. Qed.



(** ** C7: quantiles of a rate *)

Lemma is_integer_typed_type (v : pyval) :
  is_integer_typed v = integer_assertion (type_of v).
Proof. now destruct v. Qed.

Lemma integer_array_dtype (d : dtype) :
  integer_assertion (TArray d) = true <-> d = Int64.
Proof. destruct d; simpl; split; intros H; try discriminate; reflexivity. Qed.

Lemma within_integer_typed (lo hi : Z) (v : pyval) :
  within lo hi v -> is_integer_typed v = true.
Proof. intros [l [H _]]. destruct v; try discriminate; reflexivity. Qed.

Lemma within_int (lo hi z : Z) : (lo <= z <= hi)%Z -> within lo hi (PyInt z).
Proof. intros H. exists [z]. split; [reflexivity|]. now constructor. Qed.

(** Strictly between 0 and 1, as the two assertions on [q] test it. *)
Definition in_unit (x : f64) : bool := fgt x (Fin 0) && flt x (Fin 1).

Lemma in_unit_iff (x : f64) :
  in_unit x = true <-> exists r, x = Fin r /\ 0 < r < 1.
Proof.
  unfold in_unit, fgt. rewrite andb_true_iff.
  destruct x as [r| | |]; simpl; split; try (intros [H1 H2]; discriminate);
    try (intros [r' [H _]]; discriminate).
  - rewrite !Rltb_iff. intros [H1 H2]. exists r. now repeat split.
  - intros [r' [H [H1 H2]]]. injection H as ->. now rewrite !Rltb_iff.
Qed.

Lemma forallb_andb {A : Type} (p q : A -> bool) (l : list A) :
  forallb p l && forallb q l = forallb (fun x => p x && q x) l.
Proof.
  induction l as [|a l IH]; simpl; [reflexivity|]. rewrite <- IH.
  destruct (p a), (q a), (forallb p l), (forallb q l); reflexivity.
Qed.

Lemma forallb_false_Exists {A : Type} (p : A -> bool) (l : list A) :
  forallb p l = false <-> Exists (fun x => p x = false) l.
Proof.
  induction l as [|a l IH]; simpl.
  - split; [discriminate | intros H; inversion H].
  - rewrite andb_false_iff, IH. split.
    + intros [H|H]; [now left | now right].
    + intros H. inversion H; [now left | now right].
Qed.

(** The comparison of [q] with a number, then [np.all]. *)
Lemma np_all_compare (c : f64 -> f64 -> bool) (q : pyval) (z : Z) :
  exists r, compare c q (PyInt z) = Ok r
            /\ np_all r = forallb (fun x => c x (of_Z z)) (fdata q).
Proof.
  destruct (compare_scalar c q (PyInt z)) as [r [Hr Hd]]; [discriminate|].
  exists r. split; [exact Hr|]. unfold np_all. rewrite Hd. apply forallb_map.
Qed.

(** What [uncertainties_rate] computes once its assertions hold. *)
Definition rate_quantiles (S : externals) (k q exposure : pyval)
  : result pyval :=
  k1 <- py_add k (PyInt 1) ;;
  g <- ufunc2 (gammainccinv S) k1 q ;;
  py_div g exposure.

Lemma uncertainties_rate_asserts (S : externals) (k q exposure : pyval) :
  uncertainties_rate S k q exposure =
  if is_integer_typed k && forallb in_unit (fdata q)
  then rate_quantiles S k q exposure
  else Err AssertionError.
Proof.
  unfold uncertainties_rate, rate_quantiles, py_gt, py_lt.
  destruct (is_integer_typed k); [simpl|reflexivity].
  destruct (np_all_compare fgt q 0) as [r1 [-> H1]].
  destruct (np_all_compare flt q 1) as [r2 [-> H2]].
  cbn [bind]. rewrite H1, H2.
  unfold in_unit. rewrite <- forallb_andb.
  change (of_Z 0) with (Fin 0). change (of_Z 1) with (Fin 1).
  destruct (forallb (fun x => fgt x (Fin 0)) (fdata q)); [simpl|reflexivity].
  destruct (forallb (fun x => flt x (Fin 1)) (fdata q)); reflexivity.
Qed.

Lemma rate_quantiles_raises (S : externals) (k q exposure : pyval) :
  raises_only (fun e => e = ValueError \/ e = ZeroDivisionError)
    (rate_quantiles S k q exposure).
Proof. unfold rate_quantiles. raises_chain. Qed.

Lemma uncertainties_rate_AssertionError (S : externals)
  (k q exposure : pyval) :
  uncertainties_rate S k q exposure = Err AssertionError
  <-> is_integer_typed k = false
      \/ Exists (fun x => in_unit x = false) (fdata q).
Proof.
  rewrite uncertainties_rate_asserts, <- forallb_false_Exists,
    <- andb_false_iff.
  destruct (is_integer_typed k && forallb in_unit (fdata q)); split;
    intros H; try reflexivity; try discriminate.
  apply rate_quantiles_raises in H. destruct H; discriminate.
Qed.

Lemma rate_quantiles_values (S : externals) (L : nat) (k q exposure : pyval) :
  vfits L k -> vfits L q -> vfits L exposure ->
  exists r, rate_quantiles S k q exposure = Ok r /\ vfits L r
    /\ forall i v, vat r i = Some v ->
       exists xk xq xe,
         vat k i = Some xk /\ vat q i = Some xq /\ vat exposure i = Some xe
         /\ v = fdiv (gammainccinv S (fadd xk (Fin 1)) xq) xe.
Proof.
  intros Hk Hq He. unfold rate_quantiles.
  run_step (py_add_fits L k (PyInt 1)).
  run_step (ufunc2_fits (gammainccinv S) L c q).
  destruct F0 as [F0 P0].
  edestruct (py_div_fits L c0 exposure) as [r [Er [Fr _]]];
    [assumption | assumption | now rewrite P0|].
  exists r. split; [exact Er|]. split; [exact Fr|].
  intros i v Hv. trace_back.
  do 3 eexists. repeat (split; [eassumption|]). reflexivity.
Qed.

Lemma integer_typed_elements (k : pyval) (x : f64) :
  is_integer_typed k = true -> In x (fdata k) -> exists z, x = of_Z z.
Proof.
  destruct k; simpl; try discriminate; intros _ H.
  - destruct H as [<-|[]]. now exists z.
  - destruct H as [<-|[]]. now exists z.
  - apply in_map_iff in H. destruct H as [z [<- _]]. now exists z.
Qed.

Lemma IZR_to_nat (z : Z) : (0 <= z)%Z -> IZR z = INR (Z.to_nat z).
Proof. intros H. now rewrite INR_IZR_INZ, Z2Nat.id. Qed.

(** The quantile function of the rate is positive below probability 1. *)
Lemma gammainccinv_positive (S : externals) (z : Z) (q : R) :
  contract S -> (0 <= z)%Z -> 0 < q < 1 ->
  exists x, gammainccinv S (fadd (of_Z z) (Fin 1)) (Fin q) = Fin x /\ 0 < x.
Proof.
  intros HS Hz Hq. unfold of_Z. simpl.
  replace (IZR z + 1) with (INR (Z.to_nat (z + 1)))
    by (rewrite <- IZR_to_nat, plus_IZR by lia; reflexivity).
  destruct (gammainccinv_spec S HS (Z.to_nat (z + 1)) q) as [x [Hx [H0 HQ]]];
    [lia | exact Hq|].
  exists x. split; [exact Hx|].
  destruct (Req_dec x 0) as [->|Hne]; [|lra].
  unfold gamma_Q in HQ. rewrite poisson_cdf_0 in HQ. lra.
Qed.

Lemma fle_0_of_Z (z : Z) : fle (Fin 0) (of_Z z) = true -> (0 <= z)%Z.
Proof. unfold of_Z. simpl. rewrite Rleb_iff. apply le_IZR. Qed.

Lemma rate_quantiles_positive (S : externals) (L : nat)
  (k q exposure r : pyval) :
  contract S -> is_integer_typed k = true ->
  forallb in_unit (fdata q) = true ->
  Forall (fun x => fle (Fin 0) x = true) (fdata k) ->
  Forall (fun x => exists e, x = Fin e /\ 0 < e) (fdata exposure) ->
  vfits L k -> vfits L q -> vfits L exposure ->
  rate_quantiles S k q exposure = Ok r ->
  Forall (fun v => exists x, v = Fin x /\ 0 < x) (fdata r).
Proof.
  intros HS Hi Hq Hk He Fk Fq Fe Hr.
  destruct (rate_quantiles_values S L k q exposure Fk Fq Fe)
    as [r' [Hr' [_ Hv]]].
  rewrite Hr in Hr'. injection Hr' as <-.
  apply Forall_lat. intros i v Hiv.
  destruct (Hv i v Hiv) as [xk [xq [xe [Hxk [Hxq [Hxe ->]]]]]].
  apply lat_In in Hxk, Hxq, Hxe.
  rewrite Forall_forall in Hk, He. rewrite forallb_forall in Hq.
  destruct (integer_typed_elements k xk Hi Hxk) as [z ->].
  specialize (Hk _ Hxk). apply fle_0_of_Z in Hk.
  destruct (proj1 (in_unit_iff xq) (Hq _ Hxq)) as [p [-> Hp]].
  destruct (He _ Hxe) as [e [-> He0]].
  destruct (gammainccinv_positive S z p HS Hk Hp) as [x [-> Hx]].
  simpl. rewrite Reqb_false by lra.
  exists (x / e). split; [reflexivity|]. now apply Rdiv_lt_0_compat.
Qed.


Lemma in_unit_half : in_unit (Fin (/ 2)) = true.
Proof. apply in_unit_iff. exists (/ 2). split; [reflexivity | lra]. Qed.

Lemma uncertainties_rate_scalar (S : externals) (z : Z) (q e : R) :
  0 < q < 1 ->
  uncertainties_rate S (PyInt z) (PyFloat (Fin q)) (PyFloat (Fin e))
  = Ok (NpFloat (fdiv (gammainccinv S (of_Z (z + 1)) (Fin q)) (Fin e))).
Proof.
  intros Hq. rewrite uncertainties_rate_asserts. simpl.
  replace (in_unit (Fin q)) with true; [reflexivity|].
  symmetry. apply in_unit_iff. now exists q.
Qed.



(** ** C8: quantiles of a fraction *)

(** What [uncertainties_fraction] computes once its assertions hold. *)
Definition fraction_quantiles (S : externals) (k n q : pyval)
  : result pyval :=
  k1 <- py_add k (PyInt 1) ;;
  n1 <- py_add n (PyInt 1) ;;
  nk <- py_sub n1 k ;;
  ufunc3 (betaincinv S) k1 nk q.

Lemma uncertainties_fraction_asserts (S : externals) (k n q : pyval) :
  uncertainties_fraction S k n q =
  if is_integer_typed k && is_integer_typed n
  then c <- py_le k n ;;
       if np_all c && forallb in_unit (fdata q)
       then fraction_quantiles S k n q
       else Err AssertionError
  else Err AssertionError.
Proof.
  unfold uncertainties_fraction, fraction_quantiles, py_gt, py_lt.
  destruct (is_integer_typed k); [simpl|reflexivity].
  destruct (is_integer_typed n); [simpl|reflexivity].
  destruct (py_le k n) as [c|e]; [simpl|reflexivity].
  destruct (np_all c); [simpl|reflexivity].
  destruct (np_all_compare fgt q 0) as [r1 [-> H1]].
  destruct (np_all_compare flt q 1) as [r2 [-> H2]].
  cbn [bind]. rewrite H1, H2.
  unfold in_unit. rewrite <- forallb_andb.
  change (of_Z 0) with (Fin 0). change (of_Z 1) with (Fin 1).
  destruct (forallb (fun x => fgt x (Fin 0)) (fdata q)); [simpl|reflexivity].
  destruct (forallb (fun x => flt x (Fin 1)) (fdata q)); reflexivity.
Qed.

Lemma bcast_lat_pair {A B : Type} (l1 : list A) (l2 : list B)
  (l : list (A * B)) (i : nat) (x : A) (y : B) :
  bcast l1 l2 = Some l -> lat l1 i = Some x -> lat l2 i = Some y ->
  lat l i = Some (x, y).
Proof.
  intros Hl Hx Hy.
  destruct (lat l i) as [p|] eqn:Ep.
  - destruct (bcast_lat _ _ _ _ _ Hl Ep) as [H1 H2].
    rewrite H1 in Hx. rewrite H2 in Hy. injection Hx as <-. injection Hy as <-.
    now destruct p.
  - exfalso. revert Hl Hx Hy Ep. unfold bcast.
    destruct (Nat.eqb (length l1) (length l2)) eqn:E.
    + apply Nat.eqb_eq in E. intros H. injection H as <-.
      unfold lat. rewrite length_combine, <- E, Nat.min_id.
      intros Hx Hy Hn. apply nth_error_None in Hn.
      rewrite length_combine, <- E, Nat.min_id in Hn.
      apply nth_error_None in Hn. congruence.
    + destruct l1 as [|a [|a' l1]].
      * destruct l2 as [|b [|b' l2]]; try discriminate.
        intros _ H. destruct i; discriminate.
      * intros H. injection H as <-. rewrite lat_map.
        intros _ ->. discriminate.
      * destruct l2 as [|b [|b' l2]]; try discriminate.
        intros H. injection H as <-.
        change ((a, b) :: (a', b) :: map (fun x => (x, b)) l1)
          with (map (fun x => (x, b)) (a :: a' :: l1)).
        rewrite lat_map. intros ->. discriminate.
Qed.

(** The comparison [k <= n] holds everywhere exactly when it holds at every
    position. *)
Lemma np_all_le (k n : pyval) (c : cmpval) :
  py_le k n = Ok c ->
  (np_all c = true
   <-> forall i x y, vat k i = Some x -> vat n i = Some y -> fle x y = true).
Proof.
  unfold py_le, vat. intros Hc.
  destruct (compare_data _ _ _ _ Hc) as [l [Hl Hd]].
  rewrite np_all_Forall, Hd, Forall_map, Forall_lat. split.
  - intros H i x y Hx Hy.
    exact (H i (x, y) (bcast_lat_pair _ _ _ _ _ _ Hl Hx Hy)).
  - intros H i p Hp. destruct (bcast_lat _ _ _ _ _ Hl Hp) as [H1 H2].
    exact (H i _ _ H1 H2).
Qed.

Lemma fraction_asserts_Err (S : externals) (k n q : pyval) :
  (is_integer_typed k && is_integer_typed n = false ->
   uncertainties_fraction S k n q = Err AssertionError)
  /\ (forall L i x y,
         is_integer_typed k && is_integer_typed n = true ->
         vfits L k -> vfits L n ->
         vat k i = Some x -> vat n i = Some y -> fle x y = false ->
         uncertainties_fraction S k n q = Err AssertionError)
  /\ (forall L,
         is_integer_typed k && is_integer_typed n = true ->
         vfits L k -> vfits L n ->
         Exists (fun x => in_unit x = false) (fdata q) ->
         uncertainties_fraction S k n q = Err AssertionError).
Proof.
  rewrite uncertainties_fraction_asserts. split; [|split].
  - now intros ->.
  - intros L i x y -> Fk Fn Hx Hy Hxy.
    destruct (compare_fits fle L k n Fk Fn) as [c Hc].
    fold (py_le k n) in Hc. rewrite Hc. cbn [bind].
    destruct (np_all c) eqn:Hall; [|reflexivity].
    rewrite (np_all_le k n c Hc) in Hall.
    rewrite (Hall i x y Hx Hy) in Hxy. discriminate.
  - intros L -> Fk Fn Hq.
    destruct (compare_fits fle L k n Fk Fn) as [c Hc].
    fold (py_le k n) in Hc. rewrite Hc. cbn [bind].
    apply forallb_false_Exists in Hq. rewrite Hq, andb_false_r. reflexivity.
Qed.

Lemma fraction_quantiles_values (S : externals) (L : nat) (k n q : pyval) :
  vfits L k -> vfits L n -> vfits L q ->
  exists r, fraction_quantiles S k n q = Ok r /\ vfits L r
    /\ forall i v, vat r i = Some v ->
       exists xk xn xq,
         vat k i = Some xk /\ vat n i = Some xn /\ vat q i = Some xq
         /\ v = betaincinv S (fadd xk (Fin 1)) (fsub (fadd xn (Fin 1)) xk) xq.
Proof.
  intros Hk Hn Hq. unfold fraction_quantiles.
  run_step (py_add_fits L k (PyInt 1)).
  run_step (py_add_fits L n (PyInt 1)).
  run_step (py_sub_fits L c0 k).
  edestruct (ufunc3_fits (betaincinv S) L c c1 q) as [r [Er [Fr _]]];
    try assumption.
  exists r. split; [exact Er|]. split; [exact Fr|].
  intros i v Hv. trace_back.
  do 3 eexists. repeat (split; [eassumption|]). reflexivity.
Qed.

Lemma fle_of_Z (a b : Z) : fle (of_Z a) (of_Z b) = true -> (a <= b)%Z.
Proof. unfold of_Z. simpl. rewrite Rleb_iff. apply le_IZR. Qed.

(** With [0 <= k <= n] both shape parameters are positive integers, and the
    quantile lies in the unit interval. *)
Lemma betaincinv_unit (S : externals) (zk zn : Z) (q : R) :
  contract S -> (0 <= zk <= zn)%Z -> 0 < q < 1 ->
  exists x,
    betaincinv S (fadd (of_Z zk) (Fin 1))
      (fsub (fadd (of_Z zn) (Fin 1)) (of_Z zk)) (Fin q) = Fin x
    /\ 0 <= x <= 1
    /\ beta_I (Z.to_nat (zk + 1)) (Z.to_nat (zn + 1 - zk)) x = q.
Proof.
  intros HS Hz Hq. unfold of_Z, fsub. simpl.
  replace (IZR zk + 1) with (INR (Z.to_nat (zk + 1)))
    by (rewrite <- IZR_to_nat, plus_IZR by lia; reflexivity).
  replace (IZR zn + 1 + - IZR zk) with (INR (Z.to_nat (zn + 1 - zk)))
    by (rewrite <- IZR_to_nat, minus_IZR, plus_IZR by lia; reflexivity).
  apply (betaincinv_spec S HS); [lia | lia | exact Hq].
Qed.

Lemma fraction_quantiles_unit (S : externals) (L : nat) (k n q r : pyval) :
  contract S -> is_integer_typed k && is_integer_typed n = true ->
  forallb in_unit (fdata q) = true ->
  (forall i x y, vat k i = Some x -> vat n i = Some y ->
                 fle (Fin 0) x = true /\ fle x y = true) ->
  vfits L k -> vfits L n -> vfits L q ->
  fraction_quantiles S k n q = Ok r ->
  Forall (fun v => exists x, v = Fin x /\ 0 <= x <= 1) (fdata r).
Proof.
  intros HS Hi Hq Hkn Fk Fn Fq Hr.
  apply andb_true_iff in Hi. destruct Hi as [Hik Hin].
  destruct (fraction_quantiles_values S L k n q Fk Fn Fq)
    as [r' [Hr' [_ Hv]]].
  rewrite Hr in Hr'. injection Hr' as <-.
  apply Forall_lat. intros i v Hiv.
  destruct (Hv i v Hiv) as [xk [xn [xq [Hxk [Hxn [Hxq ->]]]]]].
  destruct (Hkn i xk xn Hxk Hxn) as [H0 Hle].
  apply lat_In in Hxk, Hxn, Hxq. rewrite forallb_forall in Hq.
  destruct (integer_typed_elements k xk Hik Hxk) as [zk ->].
  destruct (integer_typed_elements n xn Hin Hxn) as [zn ->].
  apply fle_0_of_Z in H0. apply fle_of_Z in Hle.
  destruct (proj1 (in_unit_iff xq) (Hq _ Hxq)) as [p [-> Hp]].
  destruct (betaincinv_unit S zk zn p HS (conj H0 Hle) Hp) as [x [-> [Hx _]]].
  now exists x.
Qed.


Lemma uncertainties_fraction_scalar (S : externals) (zk zn : Z) (q : R) :
  (zk <= zn)%Z -> 0 < q < 1 ->
  uncertainties_fraction S (PyInt zk) (PyInt zn) (PyFloat (Fin q))
  = Ok (NpFloat (betaincinv S (of_Z (zk + 1)) (of_Z (zn + 1 - zk)) (Fin q))).
Proof.
  intros Hz Hq. rewrite uncertainties_fraction_asserts.
  cbn [is_integer_typed andb]. unfold py_le.
  rewrite compare_scalars by discriminate.
  cbn [bind fdata hd np_all cmp_data forallb fle of_Z].
  rewrite (Rleb_true (IZR zk) (IZR zn)) by now apply IZR_le.
  replace (in_unit (Fin q)) with true
    by (symmetry; apply in_unit_iff; now exists q).
  reflexivity.
Qed.


Lemma as_nat_0 : as_nat 0 = Some 0%nat.
Proof. exact (as_nat_INR 0). Qed.


(** ** C9: an array for [k] *)

Lemma truth_array (k : pyval) :
  kind_of k = KNd -> (2 <= length (fdata k))%nat ->
  (c <- py_lt k (PyInt 0) ;; truth c) = Err ValueError.
Proof.
  intros Hk Hl. unfold py_lt, compare, broadcast.
  change (fdata (PyInt 0)) with [of_Z 0].
  rewrite bcast_single_r, Hk. simpl.
  destruct (fdata k) as [|x [|y l]]; simpl in *; try lia. reflexivity.
Qed.

(** C9 fails on the code.  The docstring allows for [k] an array of the
    shape of [n], but [if k < 0] asks for the truth value of the comparison:
    with two elements or more numpy raises [ValueError], whatever [n], [b]
    and [alpha] are. *)
Theorem significance_array_k (S : externals) (n b alpha : pyval) (x y : f64)
  (l : list f64) :
  significance S n b alpha (NdFloat (x :: y :: l)) = Err ValueError.
Proof.
  rewrite significance_split, truth_array; simpl; try reflexivity. lia.
Qed.

(** ** C10: no trial at all *)

(** The numbers of [v] as numpy hands them back: a numpy double for a
    number, an array of doubles for an array. *)
Definition np_float (v : pyval) : pyval :=
  of_floats (np_kind (kind_of v)) (fdata v).

Lemma np_float_scalar (x : f64) :
  np_float (PyFloat x) = NpFloat x /\ np_float (NpFloat x) = NpFloat x.
Proof. split; reflexivity. Qed.

Lemma np_float_array (l : list f64) : np_float (NdFloat l) = NdFloat l.
Proof. destruct l as [|x [|y l]]; reflexivity. Qed.

(** With shape parameters (1, 1) the incomplete beta function is the
    identity, and so is its inverse. *)
Lemma betaincinv_1_1 (S : externals) (x : f64) :
  contract S -> in_unit x = true ->
  betaincinv S (Fin 1) (Fin 1) x = x.
Proof.
  intros HS Hx. apply in_unit_iff in Hx. destruct Hx as [q [-> Hq]].
  destruct (betaincinv_spec S HS 1 1 q) as [y [Hy [_ HI]]];
    [lia | lia | exact Hq|].
  simpl in Hy. rewrite Hy. rewrite beta_I_1_1 in HI. now subst.
Qed.

Lemma fraction_zero_trials (S : externals) (q : pyval) :
  contract S -> forallb in_unit (fdata q) = true ->
  uncertainties_fraction S (PyInt 0) (PyInt 0) q = Ok (np_float q).
Proof.
  intros HS Hq. rewrite uncertainties_fraction_asserts.
  cbn [is_integer_typed andb]. unfold py_le.
  rewrite compare_scalars by discriminate.
  cbn [bind fdata hd np_all cmp_data forallb fle of_Z].
  rewrite (Rleb_true 0 0) by lra. rewrite Hq. cbn [andb].
  unfold fraction_quantiles.
  change (py_add (PyInt 0) (PyInt 1)) with (@Ok pyval (PyInt 1)). cbn [bind].
  change (py_sub (PyInt 1) (PyInt 0)) with (@Ok pyval (PyInt 1)). cbn [bind].
  unfold ufunc3. cbn [fdata].
  change (broadcast [of_Z 1] [of_Z 1]) with (@Ok _ [(of_Z 1, of_Z 1)]).
  cbn [bind]. unfold broadcast. rewrite bcast_single_l. cbn [bind].
  rewrite map_map. cbn [fst snd kind_of join].
  unfold np_float. f_equal. f_equal.
  - now destruct (kind_of q).
  - rewrite <- (map_id (fdata q)) at 2. apply map_ext_in.
    intros x Hx. change (of_Z 1) with (Fin 1).
    apply betaincinv_1_1; [exact HS|].
    rewrite forallb_forall in Hq. now apply Hq.
Qed.

(** C10.  With [k = n = 0] and every element of [q] strictly between 0 and
    1, [uncertainties_fraction] raises nothing and returns the numbers of
    [q] unchanged. *)
Theorem uncertainties_fraction_zero_trials (S : externals) (q : pyval) :
  contract S -> forallb in_unit (fdata q) = true ->
  uncertainties_fraction S (PyInt 0) (PyInt 0) q = Ok (np_float q)
  /\ fdata (np_float q) = fdata q.
Proof.
  intros HS Hq. split.
  - now apply fraction_zero_trials.
  - apply fdata_of_floats.
Qed.

Lemma uncertainties_fraction_zero_trials_witness :
  uncertainties_fraction reference (PyInt 0) (PyInt 0)
    (NdFloat [Fin (/ 2); Fin (/ 4)])
  = Ok (np_float (NdFloat [Fin (/ 2); Fin (/ 4)]))
  /\ fdata (np_float (NdFloat [Fin (/ 2); Fin (/ 4)]))
     = fdata (NdFloat [Fin (/ 2); Fin (/ 4)]).
Proof.
  apply (uncertainties_fraction_zero_trials reference
           (NdFloat [Fin (/ 2); Fin (/ 4)]) reference_contract).
  simpl. rewrite in_unit_half.
  replace (in_unit (Fin (/ 4))) with true; [reflexivity|].
  symmetry. apply in_unit_iff. exists (/ 4). split; [reflexivity | lra].
Defined.

(** ** The conversions in exact arithmetic *)

(** The default quantiles are the median and the two quantiles one sigma
    away from it; they pass the assertions on [q]. *)
Lemma default_q_values (S : externals) :
  contract S ->
  default_q S = NdFloat [Fin (1 / 2); Fin (Phi 1); Fin (1 - Phi 1)].
Proof.
  intros HS. unfold default_q, pvalue_from_significance, ufunc1. simpl.
  unfold of_Z. rewrite !(ndtr_spec S HS). simpl.
  change (IZR (- 0)) with 0. change (IZR (- -1)) with 1.
  change (IZR (- (1))) with (-1).
  replace (-1) with (- (1)) by lra.
  now rewrite Phi_0, Phi_symmetric.
Qed.

Lemma default_q_in_unit (S : externals) :
  contract S -> forallb in_unit (fdata (default_q S)) = true.
Proof.
  intros HS. rewrite (default_q_values S HS). simpl.
  pose proof (Phi_range 1) as H.
  rewrite !(proj2 (in_unit_iff _)); [reflexivity| | |];
    eexists; (split; [reflexivity|]); lra.
Qed.

(** Without rounding, the conversion of a significance to a probability and
    back is the identity wherever the guard lets the probability through. *)
Lemma round_trip_significance (S : externals) (z : R) :
  contract S -> tiny_R < Phi (- z) ->
  significance_from_pvalue S (pvalue_from_significance S (PyFloat (Fin z)))
  = Ok (NpFloat (Fin z)).
Proof.
  intros HS Hz. unfold pvalue_from_significance, ufunc1. simpl.
  rewrite (ndtr_spec S HS), significance_from_pvalue_scalar by exact Hz.
  destruct (ndtri_spec S HS (Phi (- z)) (Phi_range _)) as [y [-> Hy]].
  apply Phi_injective in Hy. subst. simpl. now rewrite Ropp_involutive.
Qed.

Lemma half_mass_le_5 : half_mass <= 5.
Proof.
  destruct half_mass_lub as [_ Hleast]. apply Hleast.
  intros y [z [Hz ->]]. apply G_bound, Hz.
Qed.

Lemma exp_nat (n : nat) : exp (INR n) = exp 1 ^ n.
Proof.
  induction n.
  - simpl. apply exp_0.
  - rewrite S_INR, exp_plus, IHn. simpl. ring.
Qed.

(** Seven sigma are far from the guard: the tail beyond them has mass
    [exp (-32)] at least, out of 10 at most. *)
Lemma Phi_minus_7 : tiny_R < Phi (- (7)).
Proof.
  pose proof half_mass_pos as Hm. pose proof half_mass_le_5 as H5.
  pose proof (G_lt_half_mass 8) as H8.
  pose proof (gauss_int_ge 7 8) as Hg. rewrite <- G_diff in Hg.
  assert (He : / 3 ^ 32 <= gauss 8).
  { unfold gauss. replace (8 * 8 / 2) with (INR 32) by (simpl; lra).
    rewrite exp_Ropp, exp_nat.
    apply Rinv_le_contravar; [apply pow_lt, exp_pos|].
    apply pow_incr. split; [left; apply exp_pos | apply exp_le_3]. }
  assert (Ht : tiny_R < / (10 * 3 ^ 32)).
  { unfold tiny_R. apply Rinv_lt_contravar.
    - apply Rmult_lt_0_compat; [apply Rmult_lt_0_compat; [lra|]|];
        apply pow_lt; lra.
    - apply Rlt_le_trans with (2 ^ 4 * 4 ^ 32).
      + apply Rle_lt_trans with (10 * 4 ^ 32).
        * apply Rmult_le_compat_l; [lra|]. apply pow_incr. lra.
        * apply Rmult_lt_compat_r; [apply pow_lt; lra | simpl; lra].
      + replace 4 with (2 ^ 2) by (simpl; lra).
        rewrite <- pow_mult, <- pow_add. apply Rle_pow; [lra | lia]. }
  unfold Phi. destruct (Rle_dec 0 (- (7))) as [H|_]; [lra|].
  rewrite Ropp_involutive.
  apply Rlt_le_trans with (1 := Ht).
  assert (Hp : 0 < 3 ^ 32) by (apply pow_lt; lra).
  assert (Hd : / 3 ^ 32 <= half_mass - G 7) by lra.
  replace (1 / 2 - G 7 / (2 * half_mass))
    with ((half_mass - G 7) / (2 * half_mass)) by (field; lra).
  rewrite Rinv_mult.
  apply Rle_trans with (/ 3 ^ 32 / (2 * half_mass)).
  - unfold Rdiv. rewrite Rmult_comm. apply Rmult_le_compat_l.
    + left. apply Rinv_0_lt_compat, Hp.
    + apply Rinv_le_contravar; lra.
  - apply Rmult_le_compat_r; [|exact Hd].
    left. apply Rinv_0_lt_compat. lra.
Qed.

(** Up to seven sigma the guard lets the probability through. *)
Lemma round_trip_seven_sigma (S : externals) (z : R) :
  contract S -> -7 <= z <= 7 ->
  significance_from_pvalue S (pvalue_from_significance S (PyFloat (Fin z)))
  = Ok (NpFloat (Fin z)).
Proof.
  intros HS Hz. apply round_trip_significance; [exact HS|].
  apply Rlt_le_trans with (1 := Phi_minus_7).
  destruct (Req_dec z 7) as [->|Hne]; [lra|].
  left. apply Phi_increasing. lra.
Qed.

Lemma round_trip_pvalue (S : externals) (p : R) (r : pyval) :
  contract S -> tiny_R < p < 1 ->
  significance_from_pvalue S (PyFloat (Fin p)) = Ok r ->
  pvalue_from_significance S r = NpFloat (Fin p).
Proof.
  intros HS Hp. pose proof tiny_pos as Ht.
  rewrite significance_from_pvalue_guard. simpl.
  rewrite (Rleb_false p tiny_R) by lra. intros H. injection H as <-.
  destruct (ndtri_spec S HS p) as [z [Hz HP]]; [lra|].
  unfold pvalue_from_significance, ufunc1. simpl. rewrite Hz. simpl.
  now rewrite Ropp_involutive, (ndtr_spec S HS), HP.
Qed.

(** * Further properties *)

(** Properties of the six functions and of the repository's property tests
    beyond the ones above: how the results move with their arguments, the
    closed forms of the edge cases, and what the calls never do. *)

(** ** The distributions are monotone *)

(** The derivative of a function, with the value free to be rewritten. *)
Lemma derivable_pt_lim_eq (f : R -> R) (x l l' : R) :
  l = l' -> derivable_pt_lim f x l -> derivable_pt_lim f x l'.
Proof. intros ->. exact (fun H => H). Qed.

Lemma derivable_pt_lim_sum (f f' : nat -> R -> R) (n : nat) (x : R) :
  (forall i, (i <= n)%nat -> derivable_pt_lim (f i) x (f' i x)) ->
  derivable_pt_lim (fun y => sum_f_R0 (fun i => f i y) n) x
    (sum_f_R0 (fun i => f' i x) n).
Proof.
  induction n; intros H.
  - simpl. apply H. lia.
  - simpl.
    apply (derivable_pt_lim_plus (fun y => sum_f_R0 (fun i => f i y) n)
             (f (S n))).
    + apply IHn. intros i Hi. apply H. lia.
    + apply H. lia.
Qed.

Lemma derivable_pt_lim_monomial (c : R) (n : nat) (x : R) :
  derivable_pt_lim (fun y => c * y ^ n) x (c * (INR n * x ^ pred n)).
Proof.
  apply (derivable_pt_lim_scal (fun y => y ^ n) c).
  apply derivable_pt_lim_pow.
Qed.

(** The derivative of the exponential sum is the sum one term shorter. *)
Definition expsum_deriv (k : nat) (x : R) : R :=
  sum_f_R0 (fun i => / INR (fact i) * (INR i * x ^ pred i)) k.

Lemma expsum_derivable (k : nat) (x : R) :
  derivable_pt_lim (expsum k) x (expsum_deriv k x).
Proof.
  unfold expsum, expsum_deriv.
  apply (derivable_pt_lim_sum (fun i y => / INR (fact i) * y ^ i)
           (fun i y => / INR (fact i) * (INR i * y ^ pred i))).
  intros i _. apply derivable_pt_lim_monomial.
Qed.

Lemma expsum_deriv_step (k : nat) (x : R) :
  expsum_deriv k x + / INR (fact k) * x ^ k = expsum k x.
Proof.
  induction k.
  - unfold expsum_deriv, expsum. simpl. lra.
  - change (expsum_deriv (S k) x)
      with (expsum_deriv k x
            + / INR (fact (S k)) * (INR (S k) * x ^ pred (S k))).
    change (expsum (S k) x) with (expsum k x + / INR (fact (S k)) * x ^ S k).
    rewrite <- IHk.
    assert (E : / INR (fact (S k)) * (INR (S k) * x ^ pred (S k))
                = / INR (fact k) * x ^ k).
    { change (pred (S k)) with k. rewrite fact_simpl, mult_INR.
      field. split; [apply INR_fact_neq_0 | apply not_0_INR; lia]. }
    rewrite E. ring.
Qed.

Lemma poisson_cdf_derivable (k : nat) (x : R) :
  derivable_pt_lim (poisson_cdf k) x (- (exp (- x) * (/ INR (fact k) * x ^ k))).
Proof.
  unfold poisson_cdf.
  apply derivable_pt_lim_eq
    with (l := (exp (- x) * - (1)) * expsum k x + exp (- x) * expsum_deriv k x).
  { rewrite <- (expsum_deriv_step k x). ring. }
  apply (derivable_pt_lim_mult (fun y => exp (- y)) (expsum k)).
  - apply (derivable_pt_lim_comp (fun y => - y) exp).
    + apply (derivable_pt_lim_opp id), derivable_pt_lim_id.
    + apply derivable_pt_lim_exp.
  - apply expsum_derivable.
Qed.

(** The probability of at most [k] events falls as the mean grows. *)
Lemma poisson_cdf_decreasing (k : nat) (x y : R) :
  0 <= x < y -> poisson_cdf k y < poisson_cdf k x.
Proof.
  intros [Hx Hxy].
  destruct (MVT_cor2 (poisson_cdf k)
              (fun c => - (exp (- c) * (/ INR (fact k) * c ^ k))) x y Hxy)
    as [c [Hc [Hc1 Hc2]]].
  { intros c _. apply poisson_cdf_derivable. }
  assert (0 < exp (- c) * (/ INR (fact k) * c ^ k)).
  { apply Rmult_lt_0_compat; [apply exp_pos|].
    apply Rmult_lt_0_compat; [|apply pow_lt; lra].
    apply Rinv_0_lt_compat, INR_fact_lt_0. }
  nra.
Qed.

Lemma poisson_cdf_injective (k : nat) (x y : R) :
  0 <= x -> 0 <= y -> poisson_cdf k x = poisson_cdf k y -> x = y.
Proof.
  intros Hx Hy H. destruct (Rtotal_order x y) as [Hlt|[Heq|Hgt]]; [|exact Heq|].
  - pose proof (poisson_cdf_decreasing k x y (conj Hx Hlt)). lra.
  - pose proof (poisson_cdf_decreasing k y x (conj Hy Hgt)). lra.
Qed.

Lemma poisson_cdf_succ (k : nat) (x : R) :
  poisson_cdf (S k) x = poisson_cdf k x + poisson_prob (S k) x.
Proof.
  unfold poisson_cdf, poisson_prob.
  change (expsum (S k) x) with (expsum k x + / INR (fact (S k)) * x ^ S k).
  ring.
Qed.
Lemma C_step (N j : nat) :
  (j < N)%nat -> INR (S j) * C N (S j) = INR (N - j) * C N j.
Proof.
  intros H. unfold C.
  replace (N - j)%nat with (S (N - S j)) by lia.
  rewrite !fact_simpl, !mult_INR.
  pose proof (INR_fact_neq_0 j). pose proof (INR_fact_neq_0 (N - S j)).
  assert (INR (S j) <> 0) by (apply not_0_INR; lia).
  assert (INR (S (N - S j)) <> 0) by (apply not_0_INR; lia).
  field. repeat split; assumption.
Qed.

(** The derivative of one term of the sum. *)
Definition beta_term_deriv (a b : nat) (x : R) (i : nat) : R :=
  C (a + b - 1) (a + i) * (INR (a + i) * x ^ pred (a + i))
    * (1 - x) ^ (b - 1 - i)
  + C (a + b - 1) (a + i) * x ^ (a + i)
    * (INR (b - 1 - i) * (1 - x) ^ pred (b - 1 - i) * - (1)).

Lemma beta_term_derivable (a b i : nat) (x : R) :
  derivable_pt_lim (fun y => beta_term a b y i) x (beta_term_deriv a b x i).
Proof.
  unfold beta_term, beta_term_deriv.
  apply (derivable_pt_lim_mult
           (fun y => C (a + b - 1) (a + i) * y ^ (a + i))
           (fun y => (1 - y) ^ (b - 1 - i))).
  - apply derivable_pt_lim_monomial.
  - apply (derivable_pt_lim_comp (fun y => 1 - y)
             (fun y => y ^ (b - 1 - i))).
    + apply derivable_pt_lim_eq with (l := 0 - 1); [ring|].
      apply (derivable_pt_lim_minus (fct_cte 1) id).
      * apply derivable_pt_lim_const.
      * apply derivable_pt_lim_id.
    + apply derivable_pt_lim_pow.
Qed.

(** The derivatives telescope. *)
Lemma beta_term_deriv_sum (a b m : nat) (x : R) :
  (1 <= a)%nat -> (m <= b - 1)%nat ->
  sum_f_R0 (beta_term_deriv a b x) m
  = INR a * C (a + b - 1) a * x ^ (a - 1) * (1 - x) ^ (b - 1)
    - INR (b - 1 - m) * C (a + b - 1) (a + m) * x ^ (a + m)
      * (1 - x) ^ pred (b - 1 - m).
Proof.
  intros Ha. induction m; intros Hm.
  - simpl sum_f_R0. unfold beta_term_deriv.
    rewrite Nat.add_0_r, Nat.sub_0_r.
    replace (pred a) with (a - 1)%nat by lia. ring.
  - change (sum_f_R0 (beta_term_deriv a b x) (S m))
      with (sum_f_R0 (beta_term_deriv a b x) m + beta_term_deriv a b x (S m)).
    rewrite IHm by lia. unfold beta_term_deriv.
    replace (pred (a + S m)) with (a + m)%nat by lia.
    replace (pred (b - 1 - m)) with (b - 1 - S m)%nat by lia.
    pose proof (C_step (a + b - 1) (a + m)) as HC.
    replace (S (a + m)) with (a + S m)%nat in HC by lia.
    replace (a + b - 1 - (a + m))%nat with (b - 1 - m)%nat in HC by lia.
    assert (E : INR (b - 1 - m) * C (a + b - 1) (a + m)
                = INR (a + S m) * C (a + b - 1) (a + S m)).
    { symmetry. apply HC. lia. }
    set (u := x ^ (a + m)) in *. set (v := (1 - x) ^ (b - 1 - S m)) in *.
    set (w := (1 - x) ^ pred (b - 1 - S m)) in *.
    set (t := x ^ (a + S m)) in *.
    transitivity
      (INR a * C (a + b - 1) a * x ^ (a - 1) * (1 - x) ^ (b - 1)
       - (INR (b - 1 - m) * C (a + b - 1) (a + m)) * u * v
       + (INR (a + S m) * C (a + b - 1) (a + S m)) * u * v
       - INR (b - 1 - S m) * C (a + b - 1) (a + S m) * t * w); [ring|].
    rewrite E. ring.
Qed.

Lemma beta_I_derivable (a b : nat) (x : R) :
  (1 <= a)%nat -> (1 <= b)%nat ->
  derivable_pt_lim (beta_I a b) x
    (INR a * C (a + b - 1) a * x ^ (a - 1) * (1 - x) ^ (b - 1)).
Proof.
  intros Ha Hb. unfold beta_I.
  apply derivable_pt_lim_eq
    with (l := sum_f_R0 (beta_term_deriv a b x) (b - 1)).
  { rewrite beta_term_deriv_sum by lia.
    rewrite Nat.sub_diag. simpl INR. ring. }
  apply (derivable_pt_lim_sum (fun i y => beta_term a b y i)
           (fun i y => beta_term_deriv a b y i)).
  intros i _. apply beta_term_derivable.
Qed.

Lemma C_pos (n p : nat) : (p <= n)%nat -> 0 < C n p.
Proof.
  intros H. unfold C. apply Rdiv_lt_0_compat; [apply INR_fact_lt_0|].
  apply Rmult_lt_0_compat; apply INR_fact_lt_0.
Qed.

(** At least [a] successes get more probable as the success probability
    grows. *)
Lemma beta_I_increasing (a b : nat) (x y : R) :
  (1 <= a)%nat -> (1 <= b)%nat -> 0 <= x < y -> y <= 1 ->
  beta_I a b x < beta_I a b y.
Proof.
  intros Ha Hb [Hx Hxy] Hy.
  destruct (MVT_cor2 (beta_I a b)
              (fun c => INR a * C (a + b - 1) a * c ^ (a - 1)
                        * (1 - c) ^ (b - 1)) x y Hxy)
    as [c [Hc [Hc1 Hc2]]].
  { intros c _. now apply beta_I_derivable. }
  assert (0 < INR a * C (a + b - 1) a * c ^ (a - 1) * (1 - c) ^ (b - 1)).
  { apply Rmult_lt_0_compat; [apply Rmult_lt_0_compat|];
      [apply Rmult_lt_0_compat| |].
    - apply lt_0_INR. lia.
    - apply C_pos. lia.
    - apply pow_lt. lra.
    - apply pow_lt. lra. }
  nra.
Qed.

Lemma beta_I_injective (a b : nat) (x y : R) :
  (1 <= a)%nat -> (1 <= b)%nat -> 0 <= x <= 1 -> 0 <= y <= 1 ->
  beta_I a b x = beta_I a b y -> x = y.
Proof.
  intros Ha Hb Hx Hy H.
  destruct (Rtotal_order x y) as [Hlt|[Heq|Hgt]]; [|exact Heq|].
  - pose proof (beta_I_increasing a b x y Ha Hb). lra.
  - pose proof (beta_I_increasing a b y x Ha Hb). lra.
Qed.

Lemma sum_f_R0_reverse (f : nat -> R) (n : nat) :
  sum_f_R0 f n = sum_f_R0 (fun i => f (n - i)%nat) n.
Proof.
  revert f. induction n; intros f.
  - reflexivity.
  - rewrite (decomp_sum f (S n)) by lia. simpl pred.
    change (sum_f_R0 (fun i => f (S n - i)%nat) (S n))
      with (sum_f_R0 (fun i => f (S n - i)%nat) n + f (S n - S n)%nat).
    rewrite Nat.sub_diag, (IHn (fun i => f (S i))).
    rewrite Rplus_comm. f_equal.
    apply sum_eq. intros i Hi. f_equal. lia.
Qed.

(** At least [a] successes with probability [x] are at most [b - 1] failures
    with probability [1 - x]. *)
Lemma beta_I_complement (a b : nat) (x : R) :
  (1 <= a)%nat -> (1 <= b)%nat -> beta_I b a (1 - x) = 1 - beta_I a b x.
Proof.
  intros Ha Hb. rewrite (beta_I_binomial a b x Ha Hb).
  unfold beta_I. rewrite sum_f_R0_reverse.
  replace (1 - (1 - sum_f_R0
                      (fun j => C (a + b - 1) j * x ^ j
                                * (1 - x) ^ (a + b - 1 - j)) (a - 1)))
    with (sum_f_R0
            (fun j => C (a + b - 1) j * x ^ j * (1 - x) ^ (a + b - 1 - j))
            (a - 1)) by ring.
  apply sum_eq. intros i Hi. unfold beta_term.
  replace (b + a - 1)%nat with (a + b - 1)%nat by lia.
  replace (1 - (1 - x)) with x by ring.
  replace (a - 1 - (a - 1 - i))%nat with i by lia.
  replace (b + (a - 1 - i))%nat with (a + b - 1 - i)%nat by lia.
  rewrite <- (pascal_step1 (a + b - 1) i) by lia. ring.
Qed.

(** One success more is less probable by the probability of exactly [a]
    successes. *)
Lemma beta_I_succ (a b : nat) (x : R) :
  (1 <= a)%nat -> (2 <= b)%nat ->
  beta_I (S a) (b - 1) x
  = beta_I a b x - C (a + b - 1) a * x ^ a * (1 - x) ^ (b - 1).
Proof.
  intros Ha Hb.
  rewrite (beta_I_binomial a b x) by lia.
  rewrite (beta_I_binomial (S a) (b - 1) x) by lia.
  replace (S a + (b - 1) - 1)%nat with (a + b - 1)%nat by lia.
  replace (S a - 1)%nat with (S (a - 1)) by lia.
  change (sum_f_R0 ?f (S (a - 1)))
    with (sum_f_R0 f (a - 1) + f (S (a - 1))).
  cbv beta.
  replace (S (a - 1)) with a by lia.
  replace (a + b - 1 - a)%nat with (b - 1)%nat by lia. ring.
Qed.

Lemma beta_I_all (n : nat) (x : R) : beta_I (S n) 1 x = x ^ S n.
Proof.
  unfold beta_I. change (1 - 1)%nat with 0%nat.
  change (sum_f_R0 (beta_term (S n) 1 x) 0) with (beta_term (S n) 1 x 0).
  unfold beta_term.
  replace (S n + 1 - 1)%nat with (S n) by lia.
  replace (S n + 0)%nat with (S n) by lia.
  rewrite C_diag. change (1 - 1 - 0)%nat with 0%nat. rewrite pow_O. ring.
Qed.

Lemma beta_I_none (n : nat) (x : R) : beta_I 1 (S n) x = 1 - (1 - x) ^ S n.
Proof.
  rewrite <- (beta_I_all n (1 - x)).
  rewrite (beta_I_complement 1 (S n) x) by lia. ring.
Qed.

(** ** The two conversions, element by element *)

Lemma fdata_np_asarray (v : pyval) : fdata (np_asarray v) = fdata v.
Proof. destruct v; reflexivity. Qed.

Lemma fdata_pvalue_from_significance (S : externals) (zscore : pyval) :
  fdata (pvalue_from_significance S zscore)
  = map (fun x => ndtr S (fneg x)) (fdata zscore).
Proof.
  unfold pvalue_from_significance.
  now rewrite fdata_ufunc1, fdata_py_neg, fdata_np_asarray, map_map.
Qed.

Lemma pvalue_from_significance_at (S : externals) (zscore : pyval) (i : nat) :
  vat (pvalue_from_significance S zscore) i
  = option_map (fun x => ndtr S (fneg x)) (vat zscore i).
Proof. unfold vat. now rewrite fdata_pvalue_from_significance, lat_map. Qed.

Lemma kind_of_ufunc1 (f : f64 -> f64) (v : pyval) :
  kind_of (ufunc1 f v) = np_kind (kind_of v).
Proof. destruct v; reflexivity. Qed.

Lemma kind_of_py_neg (v : pyval) : kind_of (py_neg v) = kind_of v.
Proof. destruct v; reflexivity. Qed.

Lemma kind_of_pvalue_from_significance (S : externals) (zscore : pyval) :
  kind_of (pvalue_from_significance S zscore) = np_kind (kind_of zscore).
Proof.
  unfold pvalue_from_significance. rewrite kind_of_ufunc1, kind_of_py_neg.
  now destruct zscore.
Qed.

Lemma np_kind_idem (k : kind) : np_kind (np_kind k) = np_kind k.
Proof. now destruct k. Qed.

Lemma significance_from_pvalue_values (S : externals) (pvalue r : pyval) :
  significance_from_pvalue S pvalue = Ok r ->
  r = py_neg (ufunc1 (ndtri S) pvalue)
  /\ Forall (fun x => fle x tiny = false) (fdata pvalue).
Proof.
  rewrite significance_from_pvalue_guard.
  destruct (existsb _ _) eqn:E; [discriminate|].
  intros H. injection H as <-. split; [reflexivity|].
  now apply existsb_false_Forall.
Qed.

Lemma significance_from_pvalue_at (S : externals) (pvalue r : pyval)
  (i : nat) (p : R) :
  significance_from_pvalue S pvalue = Ok r -> vat pvalue i = Some (Fin p) ->
  vat r i = Some (fneg (ndtri S (Fin p))) /\ tiny_R < p.
Proof.
  intros H Hi. apply significance_from_pvalue_values in H.
  destruct H as [-> HF]. split.
  - rewrite py_neg_at, ufunc1_at, Hi. reflexivity.
  - rewrite Forall_forall in HF. specialize (HF _ (lat_In _ _ _ Hi)).
    simpl in HF. unfold Rleb in HF.
    destruct (Rle_dec p tiny_R); [discriminate | lra].
Qed.



(** X2.  [significance_from_pvalue] never grows with the probability: of
    two probabilities below 1 that pass its guard, the larger has a
    significance that is not larger. *)
Theorem significance_from_pvalue_decreasing (S : externals)
  (P Q r r' : pyval) (i j : nat) (a b : R) :
  contract S ->
  significance_from_pvalue S P = Ok r ->
  significance_from_pvalue S Q = Ok r' ->
  vat P i = Some (Fin a) -> vat Q j = Some (Fin b) -> a <= b -> b < 1 ->
  exists za zb,
    vat r i = Some (Fin za) /\ vat r' j = Some (Fin zb) /\ zb <= za.
Proof.
  intros HS HP HQ Ha Hb Hab Hb1.
  destruct (significance_from_pvalue_at S P r i a HP Ha) as [Hra Hta].
  destruct (significance_from_pvalue_at S Q r' j b HQ Hb) as [Hrb Htb].
  pose proof tiny_pos as Ht.
  destruct (ndtri_spec S HS a) as [za [Ea HPa]]; [lra|].
  destruct (ndtri_spec S HS b) as [zb [Eb HPb]]; [lra|].
  exists (- za), (- zb). rewrite Hra, Hrb, Ea, Eb. simpl.
  repeat split.
  destruct (Rle_dec za zb) as [H|H]; [lra|].
  pose proof (Phi_increasing zb za). lra.
Qed.

Lemma significance_from_pvalue_decreasing_witness :
  exists za zb,
    vat (NpFloat (fneg (ndtri reference (Fin (/ 4))))) 0 = Some (Fin za)
    /\ vat (NpFloat (fneg (ndtri reference (Fin (/ 2))))) 0 = Some (Fin zb)
    /\ zb <= za.
Proof.
  pose proof tiny_small as Ht.
  apply (significance_from_pvalue_decreasing reference
           (NpFloat (Fin (/ 4))) (NpFloat (Fin (/ 2))) _ _ 0 0 (/ 4) (/ 2)
           reference_contract).
  - apply significance_from_pvalue_scalar. lra.
  - apply significance_from_pvalue_scalar. lra.
  - reflexivity.
  - reflexivity.
  - lra.
  - lra.
Defined.

Lemma significance_from_pvalue_float (S : externals) (p : R) :
  tiny_R < p ->
  significance_from_pvalue S (PyFloat (Fin p)) =
  Ok (NpFloat (fneg (ndtri S (Fin p)))).
Proof.
  intros Hp. rewrite significance_from_pvalue_guard. simpl.
  now rewrite (Rleb_false p tiny_R Hp).
Qed.



(** X4.  The guard of [significance_from_pvalue] is one-sided: a
    probability of exactly 1 passes it, and the result is minus infinity,
    without an error. *)
Theorem significance_from_pvalue_certain (S : externals) (pvalue : pyval) :
  contract S -> Forall (fun x => x = Fin 1) (fdata pvalue) ->
  exists r,
    significance_from_pvalue S pvalue = Ok r
    /\ fdata r = map (fun _ => NInf) (fdata pvalue).
Proof.
  intros HS Hp. pose proof tiny_small as Ht. eexists. split.
  - apply significance_from_pvalue_Ok.
    eapply Forall_impl; [|exact Hp]. intros x ->. simpl.
    apply Rleb_false. lra.
  - rewrite fdata_neg_ufunc1. apply map_ext_in. intros x Hx.
    rewrite Forall_forall in Hp. rewrite (Hp x Hx), (ndtri_one S HS).
    reflexivity.
Qed.

Lemma significance_from_pvalue_certain_witness :
  exists r,
    significance_from_pvalue reference (NdFloat [Fin 1; Fin 1]) = Ok r
    /\ fdata r = map (fun _ => NInf) (fdata (NdFloat [Fin 1; Fin 1])).
Proof.
  apply (significance_from_pvalue_certain reference (NdFloat [Fin 1; Fin 1])
           reference_contract).
  repeat constructor.
Defined.

Lemma map_fixes {A : Type} (f : A -> A) (l : list A) :
  Forall (fun x => f x = x) l -> map f l = l.
Proof.
  induction 1 as [|x l Hx _ IH]; [reflexivity|]. simpl. now rewrite Hx, IH.
Qed.

Lemma Phi_seven_sigma (z : R) : -7 <= z <= 7 -> tiny_R < Phi (- z).
Proof.
  intros Hz. apply Rlt_le_trans with (1 := Phi_minus_7).
  destruct (Req_dec z 7) as [->|Hne]; [lra|].
  left. apply Phi_increasing. lra.
Qed.

(** X5.  Significance to probability and back: on significances between -7
    and 7, a number or an array, the guard of [significance_from_pvalue]
    does not fire and, [ndtri] being the inverse of [ndtr], the
    significances come back, as numpy doubles. *)
Theorem round_trip_from_significance (S : externals) (zscore : pyval) :
  contract S ->
  Forall (fun x => exists z, x = Fin z /\ -7 <= z <= 7) (fdata zscore) ->
  exists r,
    significance_from_pvalue S (pvalue_from_significance S zscore) = Ok r
    /\ fdata r = fdata zscore /\ kind_of r = np_kind (kind_of zscore).
Proof.
  intros HS Hz. eexists. split; [|split].
  - apply significance_from_pvalue_Ok.
    rewrite fdata_pvalue_from_significance, Forall_map.
    eapply Forall_impl; [|exact Hz]. intros x [z [-> Hr]]. simpl.
    rewrite (ndtr_spec S HS). simpl. apply Rleb_false.
    now apply Phi_seven_sigma.
  - rewrite fdata_neg_ufunc1, fdata_pvalue_from_significance, map_map.
    apply map_fixes. eapply Forall_impl; [|exact Hz].
    intros x [z [-> Hr]]. simpl. rewrite (ndtr_spec S HS).
    destruct (ndtri_spec S HS (Phi (- z)) (Phi_range _)) as [y [-> Hy]].
    apply Phi_injective in Hy. subst. simpl. now rewrite Ropp_involutive.
  - rewrite kind_of_py_neg, kind_of_ufunc1, kind_of_pvalue_from_significance.
    apply np_kind_idem.
Qed.

Lemma round_trip_from_significance_witness :
  exists r,
    significance_from_pvalue reference
      (pvalue_from_significance reference (NdFloat [Fin 0; Fin (-1); Fin 1]))
    = Ok r
    /\ fdata r = fdata (NdFloat [Fin 0; Fin (-1); Fin 1])
    /\ kind_of r = np_kind (kind_of (NdFloat [Fin 0; Fin (-1); Fin 1])).
Proof.
  apply (round_trip_from_significance reference
           (NdFloat [Fin 0; Fin (-1); Fin 1]) reference_contract).
  repeat constructor; eexists; (split; [reflexivity | lra]).
Defined.

(** X6.  Probability to significance and back: on probabilities strictly
    between [tiny] and 1, a number or an array, the conversion succeeds and
    [pvalue_from_significance] gives the probabilities back. *)
Theorem round_trip_from_pvalue (S : externals) (pvalue : pyval) :
  contract S ->
  Forall (fun x => exists p, x = Fin p /\ tiny_R < p < 1) (fdata pvalue) ->
  exists r,
    significance_from_pvalue S pvalue = Ok r
    /\ fdata (pvalue_from_significance S r) = fdata pvalue
    /\ kind_of (pvalue_from_significance S r) = np_kind (kind_of pvalue).
Proof.
  intros HS Hp. pose proof tiny_pos as Ht. eexists. split; [|split].
  - apply significance_from_pvalue_Ok.
    eapply Forall_impl; [|exact Hp]. intros x [p [-> Hr]]. simpl.
    apply Rleb_false. lra.
  - rewrite fdata_pvalue_from_significance, fdata_neg_ufunc1, map_map.
    apply map_fixes. eapply Forall_impl; [|exact Hp].
    intros x [p [-> Hr]].
    destruct (ndtri_spec S HS p) as [z [-> HP]]; [lra|].
    simpl. now rewrite Ropp_involutive, (ndtr_spec S HS), HP.
  - rewrite kind_of_pvalue_from_significance, kind_of_py_neg, kind_of_ufunc1.
    apply np_kind_idem.
Qed.

Lemma round_trip_from_pvalue_witness :
  exists r,
    significance_from_pvalue reference (NdFloat [Fin (/ 2); Fin (/ 100)])
    = Ok r
    /\ fdata (pvalue_from_significance reference r)
       = fdata (NdFloat [Fin (/ 2); Fin (/ 100)])
    /\ kind_of (pvalue_from_significance reference r)
       = np_kind (kind_of (NdFloat [Fin (/ 2); Fin (/ 100)])).
Proof.
  pose proof tiny_small as Ht.
  apply (round_trip_from_pvalue reference (NdFloat [Fin (/ 2); Fin (/ 100)])
           reference_contract).
  repeat constructor; eexists; (split; [reflexivity | lra]).
Defined.

(** ** [significance] *)

Lemma fmul_one (x : f64) : fmul x (of_Z 1) = x.
Proof.
  destruct x as [r| | |]; unfold of_Z; simpl; try reflexivity.
  - f_equal. ring.
  - unfold inf_signed. rewrite (Reqb_false 1 0) by lra.
    now rewrite (Rltb_true 0 1) by lra.
  - unfold inf_signed. rewrite (Reqb_false 1 0) by lra.
    now rewrite (Rltb_true 0 1) by lra.
Qed.

Lemma map_mul_one (l : list Z) : map (fun a => (a * 1)%Z) l = l.
Proof. apply map_fixes, Forall_forall. intros x _. apply Z.mul_1_r. Qed.

Lemma map_fmul_one (l : list f64) : map (fun a => fmul a (of_Z 1)) l = l.
Proof. apply map_fixes, Forall_forall. intros x _. apply fmul_one. Qed.

(** A product with the Python integer 1 is the other factor, whatever its
    type and shape. *)
Lemma py_mul_one (a : pyval) : py_mul a (PyInt 1) = Ok a.
Proof.
  unfold py_mul, arith, broadcast.
  destruct a as [z|x|z|x|l|l]; cbn [zdata fdata kind_of join];
    rewrite bcast_single_r; cbn [bind map]; rewrite ?map_map;
    unfold uncurry; cbn [fst snd].
  - cbn. now rewrite Z.mul_1_r.
  - cbn. now rewrite fmul_one.
  - cbn. now rewrite Z.mul_1_r.
  - cbn. now rewrite fmul_one.
  - now rewrite map_mul_one.
  - now rewrite map_fmul_one.
Qed.

Lemma k_nonnegative_zero : k_nonnegative (PyInt 0).
Proof.
  exists (Fin 0). split; [reflexivity|]. simpl. apply Rleb_true. lra.
Qed.

(** X7.  With the default [k = 0], [significance(n, b, alpha)] is the
    signed Li & Ma significance for [alpha] itself: the factor [k + 1]
    leaves [alpha] as it is, in value, type and shape. *)
Theorem significance_default_k (S : externals) (n b alpha : pyval) :
  significance S n b alpha (PyInt 0) =
  (ab <- py_mul alpha b ;;
   c <- py_ge n ab ;;
   py_mul (np_where c 1 (-1)) (li_ma_significance S n b alpha)).
Proof.
  rewrite (significance_nonnegative S n b alpha (PyInt 0) k_nonnegative_zero).
  destruct (py_mul alpha b) as [ab|e]; [|reflexivity]. cbn [bind].
  destruct (py_ge n ab) as [c|e]; [|reflexivity]. cbn [bind].
  change (py_add (PyInt 0) (PyInt 1)) with (@Ok pyval (PyInt 1)).
  cbn [bind]. now rewrite py_mul_one.
Qed.


Lemma vfits_pair_int (x y : Z) : vfits 2 (NdInt [x; y]).
Proof. right. reflexivity. Qed.


Lemma poisson_prob_pos (i : nat) (mu : R) : 0 < mu -> 0 < poisson_prob i mu.
Proof.
  intros H. unfold poisson_prob.
  apply Rmult_lt_0_compat; [apply exp_pos|].
  apply Rmult_lt_0_compat; [|apply pow_lt, H].
  apply Rinv_0_lt_compat, INR_fact_lt_0.
Qed.

Lemma poisson_cdf_more (k k' : nat) (mu : R) :
  (k < k')%nat -> 0 < mu -> poisson_cdf k mu < poisson_cdf k' mu.
Proof.
  intros Hk Hmu. induction Hk as [|k' Hk IH].
  - rewrite poisson_cdf_succ. pose proof (poisson_prob_pos (S k) mu Hmu). lra.
  - rewrite poisson_cdf_succ. pose proof (poisson_prob_pos (S k') mu Hmu).
    lra.
Qed.

Lemma prob_gt_mean_pos (m : nat) (mu : R) :
  0 <= mu -> 0 < prob_gt m mu -> 0 < mu.
Proof.
  intros Hmu Hp. destruct (Req_dec mu 0) as [->|Hne]; [|lra].
  rewrite prob_gt_cdf, poisson_cdf_0 in Hp. lra.
Qed.

Lemma significance_tail_value (S : externals) (n b alpha k : pyval)
  (m : nat) (bv av : R) :
  contract S ->
  real_scalar n (INR m) -> real_scalar b bv -> real_scalar alpha av ->
  0 <= bv -> 0 <= av -> k_negative k -> tiny_R < prob_gt m (av * bv) ->
  exists z,
    significance S n b alpha k = Ok (NpFloat (Fin (- z)))
    /\ Phi z = prob_gt m (av * bv).
Proof.
  intros HS Hn Hb Ha Hbv Hav Hk Hp. pose proof tiny_pos as Ht.
  rewrite (significance_tail S n b alpha k m bv av) by assumption.
  rewrite significance_from_pvalue_scalar by exact Hp.
  assert (Hmu : 0 <= av * bv) by (apply Rmult_le_pos; assumption).
  pose proof (prob_gt_range m (av * bv) Hmu) as Hr.
  destruct (ndtri_spec S HS (prob_gt m (av * bv))) as [z [-> HP]]; [lra|].
  exists z. split; [reflexivity | exact HP].
Qed.


Lemma prob_gt_1_1 : tiny_R < prob_gt 1 (1 * 1).
Proof.
  rewrite prob_gt_1. replace (1 * 1) with 1 by ring.
  pose proof exp_m1_le. pose proof tiny_small. lra.
Qed.




(** X11.  In the [k < 0] regime an expected background of zero always ends
    in [ArithmeticError]: whatever the count, the tail probability under
    mean [alpha * b = 0] is 0, which the conversion refuses. *)
Theorem significance_tail_no_background (S : externals)
  (n b alpha k : pyval) (m : nat) (bv av : R) :
  contract S -> k_negative k ->
  real_scalar n (INR m) -> real_scalar b bv -> real_scalar alpha av ->
  0 <= bv -> 0 <= av -> av * bv = 0 ->
  significance S n b alpha k = Err ArithmeticError.
Proof.
  intros HS Hk Hn Hb Ha Hbv Hav Hmu.
  rewrite (significance_tail S n b alpha k m bv av) by assumption.
  apply significance_from_pvalue_small.
  rewrite Hmu, prob_gt_cdf, poisson_cdf_0. pose proof tiny_pos. lra.
Qed.

Lemma significance_tail_no_background_witness :
  significance reference (PyInt 5) (PyInt 0) (PyFloat (Fin (/ 100)))
    (PyInt (-1))
  = Err ArithmeticError.
Proof.
  apply (significance_tail_no_background reference (PyInt 5) (PyInt 0)
           (PyFloat (Fin (/ 100))) (PyInt (-1)) 5 0 (/ 100)
           reference_contract k_negative_minus_one (real_scalar_nat 5)
           (real_scalar_int 0) (real_scalar_float (/ 100))).
  - lra.
  - lra.
  - lra.
Defined.

(** ** [uncertainties_rate] for a number of events *)

Lemma np_kind_join_py (k : kind) : np_kind (join KPy k) = np_kind k.
Proof. now destruct k. Qed.

Lemma ufunc2_scalar_l (f : f64 -> f64 -> f64) (z : Z) (q : pyval) :
  ufunc2 f (PyInt z) q = Ok (ufunc1 (f (of_Z z)) q).
Proof.
  unfold ufunc2, ufunc1, broadcast. cbn [fdata kind_of].
  rewrite bcast_single_l. cbn [bind].
  now rewrite map_map, np_kind_join_py.
Qed.

(** A numpy value divided by a number: numpy's division, element by
    element. *)
Lemma py_div_scalar (f : f64 -> f64) (q ex : pyval) :
  kind_of ex <> KNd ->
  py_div (ufunc1 f q) ex
  = Ok (ufunc1 (fun x => fdiv (f x) (hd NaN (fdata ex))) q).
Proof.
  intros Hex.
  destruct ex as [e|e|e|e|l|l]; try (now contradiction Hex);
    destruct q as [z|x|z|x|l|l]; unfold py_div, ufunc1, broadcast;
    cbn [kind_of np_kind of_floats fdata map hd];
    rewrite bcast_single_r; cbn [bind map join of_floats];
    rewrite ?map_map; reflexivity.
Qed.

Lemma uncertainties_rate_int (S : externals) (z : Z) (q ex : pyval) :
  forallb in_unit (fdata q) = true -> kind_of ex <> KNd ->
  uncertainties_rate S (PyInt z) q ex
  = Ok (ufunc1 (fun x => fdiv (gammainccinv S (of_Z (z + 1)) x)
                           (hd NaN (fdata ex))) q).
Proof.
  intros Hq Hex. rewrite uncertainties_rate_asserts.
  cbn [is_integer_typed andb]. rewrite Hq. unfold rate_quantiles.
  change (py_add (PyInt z) (PyInt 1)) with (@Ok pyval (PyInt (z + 1))).
  cbn [bind]. rewrite ufunc2_scalar_l. cbn [bind].
  now apply py_div_scalar.
Qed.

Lemma gammainccinv_value (S : externals) (z : Z) (q : R) :
  contract S -> (0 <= z)%Z -> 0 < q < 1 ->
  exists x, gammainccinv S (of_Z (z + 1)) (Fin q) = Fin x
            /\ 0 < x /\ poisson_cdf (Z.to_nat z) x = q.
Proof.
  intros HS Hz Hq. unfold of_Z. rewrite (IZR_to_nat (z + 1)) by lia.
  destruct (gammainccinv_spec S HS (Z.to_nat (z + 1)) q) as [x [E [Hx HQ]]];
    [lia | exact Hq |].
  unfold gamma_Q in HQ.
  replace (Z.to_nat (z + 1) - 1)%nat with (Z.to_nat z) in HQ by lia.
  exists x. split; [exact E|]. split; [|exact HQ].
  destruct (Req_dec x 0) as [->|Hne]; [|lra].
  rewrite poisson_cdf_0 in HQ. lra.
Qed.

Lemma in_unit_at (q : pyval) (i : nat) (x : f64) :
  forallb in_unit (fdata q) = true -> vat q i = Some x ->
  exists r, x = Fin r /\ 0 < r < 1.
Proof.
  intros Hq Hi. rewrite forallb_forall in Hq.
  apply in_unit_iff, Hq. exact (lat_In _ _ _ Hi).
Qed.

Lemma fdiv_real (x e : R) : e <> 0 -> fdiv (Fin x) (Fin e) = Fin (x / e).
Proof. intros He. simpl. now rewrite (Reqb_false e 0 He). Qed.

Lemma real_scalar_hd (v : pyval) (x : R) :
  real_scalar v x -> kind_of v <> KNd /\ hd NaN (fdata v) = Fin x.
Proof. intros [Hk Hd]. split; [exact Hk|]. now rewrite Hd. Qed.

Lemma poisson_cdf_none (x : R) : poisson_cdf 0 x = exp (- x).
Proof. unfold poisson_cdf, expsum. simpl. rewrite Rinv_1. ring. Qed.

(** X12.  With no event seen the quantiles of the rate have a closed form:
    [gammainccinv(1, q)] is [-ln q], so [uncertainties_rate(0, q, exposure)]
    is [-ln(q) / exposure], element by element. *)
Theorem uncertainties_rate_no_event (S : externals) (q ex : pyval) (e : R) :
  contract S -> forallb in_unit (fdata q) = true ->
  real_scalar ex e -> e <> 0 ->
  exists r,
    uncertainties_rate S (PyInt 0) q ex = Ok r
    /\ length (fdata r) = length (fdata q)
    /\ forall i x, vat q i = Some (Fin x) ->
                   vat r i = Some (Fin (- ln x / e)).
Proof.
  intros HS Hq Hex He. destruct (real_scalar_hd ex e Hex) as [Hk Hd].
  eexists. split; [now apply uncertainties_rate_int|]. split.
  - now rewrite fdata_ufunc1, length_map.
  - intros i x Hi. rewrite ufunc1_at, Hi, Hd. simpl option_map.
    destruct (in_unit_at q i (Fin x) Hq Hi) as [r [Hr Hu]].
    injection Hr as <-.
    destruct (gammainccinv_value S 0 x HS) as [y [Ey [Hy HQ]]];
      [lia | exact Hu |].
    change (0 + 1)%Z with 1%Z in Ey. rewrite Ey.
    rewrite fdiv_real by exact He. do 3 f_equal.
    change (Z.to_nat 0) with 0%nat in HQ. rewrite poisson_cdf_none in HQ.
    rewrite <- HQ, ln_exp. ring.
Qed.

Lemma uncertainties_rate_no_event_witness :
  exists r,
    uncertainties_rate reference (PyInt 0) (NdFloat [Fin (/ 2); Fin (/ 4)])
      (PyFloat (Fin 2)) = Ok r
    /\ length (fdata r) = length (fdata (NdFloat [Fin (/ 2); Fin (/ 4)]))
    /\ forall i x, vat (NdFloat [Fin (/ 2); Fin (/ 4)]) i = Some (Fin x) ->
                   vat r i = Some (Fin (- ln x / 2)).
Proof.
  apply (uncertainties_rate_no_event reference
           (NdFloat [Fin (/ 2); Fin (/ 4)]) (PyFloat (Fin 2)) 2
           reference_contract).
  - cbn [fdata forallb]. rewrite !(proj2 (in_unit_iff _)); [reflexivity| |];
      eexists; (split; [reflexivity | lra]).
  - exact (real_scalar_float 2).
  - lra.
Defined.

Lemma rate_value (S : externals) (z : Z) (q e : R) :
  contract S -> (0 <= z)%Z -> 0 < q < 1 -> e <> 0 ->
  exists x,
    fdiv (gammainccinv S (of_Z (z + 1)) (Fin q)) (Fin e) = Fin (x / e)
    /\ 0 < x /\ poisson_cdf (Z.to_nat z) x = q.
Proof.
  intros HS Hz Hq He.
  destruct (gammainccinv_value S z q HS Hz Hq) as [x [-> [Hx HQ]]].
  exists x. split; [now apply fdiv_real|]. now split.
Qed.

Lemma poisson_cdf_order (k : nat) (x y : R) :
  0 <= x -> 0 <= y -> poisson_cdf k x < poisson_cdf k y -> y < x.
Proof.
  intros Hx Hy H. destruct (Rlt_dec y x) as [Hlt|Hge]; [exact Hlt|].
  destruct (Req_dec x y) as [->|Hne]; [lra|].
  pose proof (poisson_cdf_decreasing k x y). lra.
Qed.

Lemma poisson_cdf_order_le (k : nat) (x y : R) :
  0 <= x -> 0 <= y -> poisson_cdf k x <= poisson_cdf k y -> y <= x.
Proof.
  intros Hx Hy H. destruct (Rle_dec y x) as [Hle|Hgt]; [exact Hle|].
  pose proof (poisson_cdf_decreasing k x y). lra.
Qed.

(** X13.  For a number [k >= 0] of events and a positive exposure the
    returned rate never grows with the quantile: [gammainccinv] inverts the
    upper tail, so of two entries of [q] the larger has a rate that is not
    larger. *)
Theorem uncertainties_rate_decreasing (S : externals) (z : Z)
  (q ex : pyval) (e : R) :
  contract S -> (0 <= z)%Z -> forallb in_unit (fdata q) = true ->
  real_scalar ex e -> 0 < e ->
  exists r,
    uncertainties_rate S (PyInt z) q ex = Ok r
    /\ forall i j a b,
         vat q i = Some (Fin a) -> vat q j = Some (Fin b) -> a <= b ->
         exists xa xb,
           vat r i = Some (Fin xa) /\ vat r j = Some (Fin xb) /\ xb <= xa.
Proof.
  intros HS Hz Hq Hex He. destruct (real_scalar_hd ex e Hex) as [Hk Hd].
  eexists. split; [now apply uncertainties_rate_int|].
  intros i j a b Hi Hj Hab. rewrite !ufunc1_at, Hi, Hj, Hd. simpl option_map.
  destruct (in_unit_at q i (Fin a) Hq Hi) as [r [Hr Ha]]. injection Hr as <-.
  destruct (in_unit_at q j (Fin b) Hq Hj) as [r [Hr Hb]]. injection Hr as <-.
  destruct (rate_value S z a e HS Hz Ha) as [xa [-> [Hxa HQa]]]; [lra|].
  destruct (rate_value S z b e HS Hz Hb) as [xb [-> [Hxb HQb]]]; [lra|].
  exists (xa / e), (xb / e). repeat split.
  assert (xb <= xa).
  { apply (poisson_cdf_order_le (Z.to_nat z)); lra. }
  apply Rmult_le_compat_r; [left; apply Rinv_0_lt_compat, He | assumption].
Qed.

Lemma in_unit_pair : forallb in_unit [Fin (/ 4); Fin (/ 2)] = true.
Proof.
  cbn [forallb]. rewrite !(proj2 (in_unit_iff _)); [reflexivity| |];
    eexists; (split; [reflexivity | lra]).
Qed.

Lemma uncertainties_rate_decreasing_witness :
  exists r,
    uncertainties_rate reference (PyInt 3) (NdFloat [Fin (/ 4); Fin (/ 2)])
      (PyFloat (Fin 1)) = Ok r
    /\ forall i j a b,
         vat (NdFloat [Fin (/ 4); Fin (/ 2)]) i = Some (Fin a) ->
         vat (NdFloat [Fin (/ 4); Fin (/ 2)]) j = Some (Fin b) -> a <= b ->
         exists xa xb,
           vat r i = Some (Fin xa) /\ vat r j = Some (Fin xb) /\ xb <= xa.
Proof.
  apply (uncertainties_rate_decreasing reference 3
           (NdFloat [Fin (/ 4); Fin (/ 2)]) (PyFloat (Fin 1)) 1
           reference_contract).
  - lia.
  - exact in_unit_pair.
  - exact (real_scalar_float 1).
  - lra.
Defined.

Lemma Phi_1_gt_half : 1 / 2 < Phi 1.
Proof. rewrite <- Phi_0. apply Phi_increasing. lra. Qed.

(** X14.  With the default quantiles and exposure, [uncertainties_rate(k)]
    returns for every [k >= 0] three positive rates: the median first, then
    the lower and then the upper 1 sigma estimate. *)
Theorem uncertainties_rate_default (S : externals) (z : Z) :
  contract S -> (0 <= z)%Z ->
  exists m lo hi,
    uncertainties_rate S (PyInt z) (default_q S) (PyFloat (Fin 1))
    = Ok (NdFloat [Fin m; Fin lo; Fin hi])
    /\ 0 < lo /\ lo < m /\ m < hi.
Proof.
  intros HS Hz. pose proof (Phi_range 1) as HP. pose proof Phi_1_gt_half as HH.
  rewrite uncertainties_rate_int;
    [|now apply default_q_in_unit | discriminate].
  rewrite (default_q_values S HS). unfold ufunc1.
  cbn [kind_of np_kind fdata map of_floats hd].
  destruct (rate_value S z (1 / 2) 1 HS Hz) as [m [-> [Hm HQm]]]; try lra.
  destruct (rate_value S z (Phi 1) 1 HS Hz) as [lo [-> [Hlo HQlo]]]; try lra.
  destruct (rate_value S z (1 - Phi 1) 1 HS Hz) as [hi [-> [Hhi HQhi]]];
    try lra.
  exists (m / 1), (lo / 1), (hi / 1). split; [reflexivity|].
  assert (lo < m) by (apply (poisson_cdf_order (Z.to_nat z)); lra).
  assert (m < hi) by (apply (poisson_cdf_order (Z.to_nat z)); lra).
  lra.
Qed.

Lemma uncertainties_rate_default_witness :
  exists m lo hi,
    uncertainties_rate reference (PyInt 3) (default_q reference)
      (PyFloat (Fin 1))
    = Ok (NdFloat [Fin m; Fin lo; Fin hi])
    /\ 0 < lo /\ lo < m /\ m < hi.
Proof.
  apply (uncertainties_rate_default reference 3 reference_contract). lia.
Defined.

(** X15.  More events give the larger rate: for the same quantile and a
    positive exposure, [uncertainties_rate] is strictly increasing in the
    number [k >= 0] of events. *)
Theorem uncertainties_rate_more_events (S : externals) (z z' : Z)
  (q : R) (ex : pyval) (e : R) :
  contract S -> (0 <= z < z')%Z -> 0 < q < 1 -> real_scalar ex e -> 0 < e ->
  exists x x',
    uncertainties_rate S (PyInt z) (PyFloat (Fin q)) ex = Ok (NpFloat (Fin x))
    /\ uncertainties_rate S (PyInt z') (PyFloat (Fin q)) ex
       = Ok (NpFloat (Fin x'))
    /\ x < x'.
Proof.
  intros HS Hz Hq Hex He. destruct (real_scalar_hd ex e Hex) as [Hk Hd].
  assert (Hu : forallb in_unit (fdata (PyFloat (Fin q))) = true).
  { cbn [fdata forallb]. rewrite (proj2 (in_unit_iff _)); [reflexivity|].
    now exists q. }
  rewrite !uncertainties_rate_int by assumption. unfold ufunc1.
  cbn [kind_of np_kind fdata map of_floats]. rewrite Hd.
  destruct (rate_value S z q e HS) as [x [-> [Hx HQ]]]; try lra; [lia|].
  destruct (rate_value S z' q e HS) as [x' [-> [Hx' HQ']]]; try lra; [lia|].
  exists (x / e), (x' / e). repeat split.
  assert (x < x').
  { apply (poisson_cdf_order (Z.to_nat z')); try lra.
    rewrite HQ', <- HQ. apply poisson_cdf_more; [lia | exact Hx]. }
  apply Rmult_lt_compat_r; [apply Rinv_0_lt_compat, He | assumption].
Qed.

Lemma uncertainties_rate_more_events_witness :
  exists x x',
    uncertainties_rate reference (PyInt 0) (PyFloat (Fin (/ 2)))
      (PyFloat (Fin 1)) = Ok (NpFloat (Fin x))
    /\ uncertainties_rate reference (PyInt 3) (PyFloat (Fin (/ 2)))
         (PyFloat (Fin 1)) = Ok (NpFloat (Fin x'))
    /\ x < x'.
Proof.
  apply (uncertainties_rate_more_events reference 0 3 (/ 2)
           (PyFloat (Fin 1)) 1 reference_contract).
  - lia.
  - lra.
  - exact (real_scalar_float 1).
  - lra.
Defined.

Lemma rate_quantiles_no_zero_division (S : externals) (k q ex : pyval) :
  rate_quantiles S k q ex <> Err ZeroDivisionError.
Proof.
  unfold rate_quantiles. intros H.
  apply bind_Err in H. destruct H as [H|[k1 [_ H]]].
  { apply arith_Err in H. discriminate. }
  apply bind_Err in H. destruct H as [H|[g [Hg H]]].
  { apply ufunc2_Err in H. discriminate. }
  apply py_div_ZeroDivisionError in H.
  rewrite (ufunc2_not_py _ _ _ _ Hg) in H. discriminate.
Qed.

(** X16.  [uncertainties_rate] never raises [ZeroDivisionError]: the
    quantiles are numpy values and numpy divides by zero without raising.
    With an exposure of 0 every returned rate is [+inf]. *)
Theorem uncertainties_rate_zero_exposure (S : externals) (z : Z) (q : pyval) :
  contract S -> (0 <= z)%Z -> forallb in_unit (fdata q) = true ->
  (exists r,
      uncertainties_rate S (PyInt z) q (PyInt 0) = Ok r
      /\ fdata r = map (fun _ => PInf) (fdata q))
  /\ forall k' q' ex',
       uncertainties_rate S k' q' ex' <> Err ZeroDivisionError.
Proof.
  intros HS Hz Hq. split.
  - eexists. split; [apply uncertainties_rate_int; [exact Hq | discriminate]|].
    rewrite fdata_ufunc1. apply map_ext_in. intros x Hx.
    rewrite forallb_forall in Hq.
    destruct (proj1 (in_unit_iff x) (Hq x Hx)) as [r [-> Hr]].
    destruct (gammainccinv_value S z r HS Hz Hr) as [y [-> [Hy _]]].
    cbn [fdata hd]. unfold of_Z. simpl.
    rewrite (Reqb_true 0 0 eq_refl). unfold inf_signed.
    rewrite (Reqb_false y 0) by lra. now rewrite (Rltb_true 0 y Hy).
  - intros k' q' ex'. rewrite uncertainties_rate_asserts.
    destruct (_ && _); [apply rate_quantiles_no_zero_division | discriminate].
Qed.

Lemma uncertainties_rate_zero_exposure_witness :
  (exists r,
      uncertainties_rate reference (PyInt 3)
        (NdFloat [Fin (/ 4); Fin (/ 2)]) (PyInt 0) = Ok r
      /\ fdata r = map (fun _ => PInf) (fdata (NdFloat [Fin (/ 4); Fin (/ 2)])))
  /\ forall k' q' ex',
       uncertainties_rate reference k' q' ex' <> Err ZeroDivisionError.
Proof.
  apply (uncertainties_rate_zero_exposure reference 3
           (NdFloat [Fin (/ 4); Fin (/ 2)]) reference_contract).
  - lia.
  - exact in_unit_pair.
Defined.

(** ** [uncertainties_fraction] for numbers of hits and trials *)

Lemma ufunc3_scalars (f : f64 -> f64 -> f64 -> f64) (a b : Z) (q : pyval) :
  ufunc3 f (PyInt a) (PyInt b) q = Ok (ufunc1 (f (of_Z a) (of_Z b)) q).
Proof.
  unfold ufunc3, ufunc1, broadcast. cbn [fdata kind_of].
  change (join KPy KPy) with KPy.
  rewrite bcast_single_l. cbn [bind map]. rewrite bcast_single_l.
  cbn [bind]. now rewrite map_map, np_kind_join_py.
Qed.

Lemma uncertainties_fraction_int (S : externals) (zk zn : Z) (q : pyval) :
  (zk <= zn)%Z -> forallb in_unit (fdata q) = true ->
  uncertainties_fraction S (PyInt zk) (PyInt zn) q
  = Ok (ufunc1 (betaincinv S (of_Z (zk + 1)) (of_Z (zn + 1 - zk))) q).
Proof.
  intros Hz Hq. rewrite uncertainties_fraction_asserts.
  cbn [is_integer_typed andb]. unfold py_le.
  rewrite compare_scalars by discriminate.
  cbn [bind fdata hd np_all cmp_data forallb fle of_Z].
  rewrite (Rleb_true (IZR zk) (IZR zn)) by now apply IZR_le.
  rewrite Hq. cbn [andb]. unfold fraction_quantiles.
  change (py_add (PyInt zk) (PyInt 1)) with (@Ok pyval (PyInt (zk + 1))).
  change (py_add (PyInt zn) (PyInt 1)) with (@Ok pyval (PyInt (zn + 1))).
  cbn [bind].
  change (py_sub (PyInt (zn + 1)) (PyInt zk))
    with (@Ok pyval (PyInt (zn + 1 - zk))).
  cbn [bind]. apply ufunc3_scalars.
Qed.

Lemma beta_I_interior (a b : nat) (x q : R) :
  (1 <= a)%nat -> (1 <= b)%nat -> 0 <= x <= 1 -> 0 < q < 1 ->
  beta_I a b x = q -> 0 < x < 1.
Proof.
  intros Ha Hb Hx Hq HI. split.
  - destruct (Req_dec x 0) as [->|Hne]; [|lra].
    rewrite beta_I_0 in HI by exact Ha. lra.
  - destruct (Req_dec x 1) as [->|Hne]; [|lra].
    rewrite beta_I_1 in HI by assumption. lra.
Qed.

Lemma betaincinv_value (S : externals) (zk zn : Z) (q : R) :
  contract S -> (0 <= zk <= zn)%Z -> 0 < q < 1 ->
  exists x,
    betaincinv S (of_Z (zk + 1)) (of_Z (zn + 1 - zk)) (Fin q) = Fin x
    /\ 0 < x < 1
    /\ beta_I (Z.to_nat (zk + 1)) (Z.to_nat (zn + 1 - zk)) x = q.
Proof.
  intros HS Hz Hq. unfold of_Z.
  rewrite (IZR_to_nat (zk + 1)), (IZR_to_nat (zn + 1 - zk)) by lia.
  destruct (betaincinv_spec S HS (Z.to_nat (zk + 1))
              (Z.to_nat (zn + 1 - zk)) q) as [x [E [Hx HI]]];
    [lia | lia | exact Hq |].
  exists x. split; [exact E|]. split; [|exact HI].
  apply (beta_I_interior (Z.to_nat (zk + 1)) (Z.to_nat (zn + 1 - zk)) x q);
    try assumption; lia.
Qed.

(** X17.  The two extreme counts have closed forms, element by element of
    [q]: when every trial is a hit ([k = n]) the returned fraction [y]
    satisfies [y ^ (n + 1) = q], and when none is ([k = 0]) it satisfies
    [(1 - y) ^ (n + 1) = 1 - q]. *)
Theorem uncertainties_fraction_extremes (S : externals) (zn : Z) (q : pyval) :
  contract S -> (0 <= zn)%Z -> forallb in_unit (fdata q) = true ->
  (exists r,
      uncertainties_fraction S (PyInt zn) (PyInt zn) q = Ok r
      /\ forall i x, vat q i = Some (Fin x) ->
         exists y, vat r i = Some (Fin y) /\ 0 < y < 1
                   /\ y ^ Z.to_nat (zn + 1) = x)
  /\ (exists r,
         uncertainties_fraction S (PyInt 0) (PyInt zn) q = Ok r
         /\ forall i x, vat q i = Some (Fin x) ->
            exists y, vat r i = Some (Fin y) /\ 0 < y < 1
                      /\ (1 - y) ^ Z.to_nat (zn + 1) = 1 - x).
Proof.
  intros HS Hz Hq. split.
  - eexists. split; [apply uncertainties_fraction_int; [lia | exact Hq]|].
    intros i x Hi. rewrite ufunc1_at, Hi. simpl option_map.
    destruct (in_unit_at q i (Fin x) Hq Hi) as [r [Hr Hu]].
    injection Hr as <-.
    destruct (betaincinv_value S zn zn x HS) as [y [Ey [Hy HI]]];
      [lia | exact Hu |].
    exists y. split; [f_equal; exact Ey|]. split; [exact Hy|].
    replace (zn + 1 - zn)%Z with 1%Z in HI by lia.
    change (Z.to_nat 1) with 1%nat in HI.
    replace (Z.to_nat (zn + 1)) with (Datatypes.S (Z.to_nat zn)) in * by lia.
    now rewrite beta_I_all in HI.
  - eexists. split; [apply uncertainties_fraction_int; [lia | exact Hq]|].
    intros i x Hi. rewrite ufunc1_at, Hi. simpl option_map.
    destruct (in_unit_at q i (Fin x) Hq Hi) as [r [Hr Hu]].
    injection Hr as <-.
    destruct (betaincinv_value S 0 zn x HS) as [y [Ey [Hy HI]]];
      [lia | exact Hu |].
    exists y. split; [f_equal; exact Ey|]. split; [exact Hy|].
    replace (zn + 1 - 0)%Z with (zn + 1)%Z in HI by lia.
    change (Z.to_nat (0 + 1)) with 1%nat in HI.
    replace (Z.to_nat (zn + 1)) with (Datatypes.S (Z.to_nat zn)) in * by lia.
    rewrite beta_I_none in HI. lra.
Qed.

Lemma uncertainties_fraction_extremes_witness :
  (exists r,
      uncertainties_fraction reference (PyInt 2) (PyInt 2)
        (NdFloat [Fin (/ 4); Fin (/ 2)]) = Ok r
      /\ forall i x, vat (NdFloat [Fin (/ 4); Fin (/ 2)]) i = Some (Fin x) ->
         exists y, vat r i = Some (Fin y) /\ 0 < y < 1
                   /\ y ^ Z.to_nat (2 + 1) = x)
  /\ (exists r,
         uncertainties_fraction reference (PyInt 0) (PyInt 2)
           (NdFloat [Fin (/ 4); Fin (/ 2)]) = Ok r
         /\ forall i x,
            vat (NdFloat [Fin (/ 4); Fin (/ 2)]) i = Some (Fin x) ->
            exists y, vat r i = Some (Fin y) /\ 0 < y < 1
                      /\ (1 - y) ^ Z.to_nat (2 + 1) = 1 - x).
Proof.
  apply (uncertainties_fraction_extremes reference 2
           (NdFloat [Fin (/ 4); Fin (/ 2)]) reference_contract).
  - lia.
  - exact in_unit_pair.
Defined.

Lemma beta_I_order (a b : nat) (x y : R) :
  (1 <= a)%nat -> (1 <= b)%nat -> 0 <= x <= 1 -> 0 <= y <= 1 ->
  beta_I a b x < beta_I a b y -> x < y.
Proof.
  intros Ha Hb Hx Hy H. destruct (Rlt_dec x y) as [Hlt|Hge]; [exact Hlt|].
  destruct (Req_dec x y) as [->|Hne]; [lra|].
  pose proof (beta_I_increasing a b y x Ha Hb). lra.
Qed.

Lemma beta_I_order_le (a b : nat) (x y : R) :
  (1 <= a)%nat -> (1 <= b)%nat -> 0 <= x <= 1 -> 0 <= y <= 1 ->
  beta_I a b x <= beta_I a b y -> x <= y.
Proof.
  intros Ha Hb Hx Hy H. destruct (Rle_dec x y) as [Hle|Hgt]; [exact Hle|].
  pose proof (beta_I_increasing a b y x Ha Hb). lra.
Qed.

(** X18.  For numbers [0 <= k <= n] the returned fraction never falls as
    the quantile grows: of two entries of [q] the larger has a fraction that
    is not smaller. *)
Theorem uncertainties_fraction_increasing (S : externals) (zk zn : Z)
  (q : pyval) :
  contract S -> (0 <= zk <= zn)%Z -> forallb in_unit (fdata q) = true ->
  exists r,
    uncertainties_fraction S (PyInt zk) (PyInt zn) q = Ok r
    /\ forall i j a b,
         vat q i = Some (Fin a) -> vat q j = Some (Fin b) -> a <= b ->
         exists xa xb,
           vat r i = Some (Fin xa) /\ vat r j = Some (Fin xb) /\ xa <= xb.
Proof.
  intros HS Hz Hq.
  eexists. split; [apply uncertainties_fraction_int; [lia | exact Hq]|].
  intros i j a b Hi Hj Hab. rewrite !ufunc1_at, Hi, Hj. simpl option_map.
  destruct (in_unit_at q i (Fin a) Hq Hi) as [r [Hr Ha]]. injection Hr as <-.
  destruct (in_unit_at q j (Fin b) Hq Hj) as [r [Hr Hb]]. injection Hr as <-.
  destruct (betaincinv_value S zk zn a HS Hz Ha) as [xa [-> [Hxa HIa]]].
  destruct (betaincinv_value S zk zn b HS Hz Hb) as [xb [-> [Hxb HIb]]].
  exists xa, xb. repeat split.
  apply (beta_I_order_le (Z.to_nat (zk + 1)) (Z.to_nat (zn + 1 - zk)));
    try lia; lra.
Qed.

Lemma uncertainties_fraction_increasing_witness :
  exists r,
    uncertainties_fraction reference (PyInt 1) (PyInt 10)
      (NdFloat [Fin (/ 4); Fin (/ 2)]) = Ok r
    /\ forall i j a b,
         vat (NdFloat [Fin (/ 4); Fin (/ 2)]) i = Some (Fin a) ->
         vat (NdFloat [Fin (/ 4); Fin (/ 2)]) j = Some (Fin b) -> a <= b ->
         exists xa xb,
           vat r i = Some (Fin xa) /\ vat r j = Some (Fin xb) /\ xa <= xb.
Proof.
  apply (uncertainties_fraction_increasing reference 1 10
           (NdFloat [Fin (/ 4); Fin (/ 2)]) reference_contract).
  - lia.
  - exact in_unit_pair.
Defined.

(** X19.  With the default quantiles, [uncertainties_fraction(k, n)] returns
    for [0 <= k <= n] three fractions strictly between 0 and 1: the median
    first, then the upper and then the lower 1 sigma estimate (the default
    [q] is [0.5, 0.84.., 0.16..], and [betaincinv] grows with [q]). *)
Theorem uncertainties_fraction_default (S : externals) (zk zn : Z) :
  contract S -> (0 <= zk <= zn)%Z ->
  exists m hi lo,
    uncertainties_fraction S (PyInt zk) (PyInt zn) (default_q S)
    = Ok (NdFloat [Fin m; Fin hi; Fin lo])
    /\ 0 < lo /\ lo < m /\ m < hi /\ hi < 1.
Proof.
  intros HS Hz. pose proof (Phi_range 1) as HP. pose proof Phi_1_gt_half as HH.
  rewrite uncertainties_fraction_int; [|lia | now apply default_q_in_unit].
  rewrite (default_q_values S HS). unfold ufunc1.
  cbn [kind_of np_kind fdata map of_floats].
  destruct (betaincinv_value S zk zn (1 / 2) HS Hz) as [m [-> [Hm HIm]]];
    [lra|].
  destruct (betaincinv_value S zk zn (Phi 1) HS Hz) as [hi [-> [Hhi HIhi]]];
    [lra|].
  destruct (betaincinv_value S zk zn (1 - Phi 1) HS Hz)
    as [lo [-> [Hlo HIlo]]]; [lra|].
  exists m, hi, lo. split; [reflexivity|].
  assert (lo < m).
  { apply (beta_I_order (Z.to_nat (zk + 1)) (Z.to_nat (zn + 1 - zk)));
      try lia; lra. }
  assert (m < hi).
  { apply (beta_I_order (Z.to_nat (zk + 1)) (Z.to_nat (zn + 1 - zk)));
      try lia; lra. }
  lra.
Qed.

Lemma uncertainties_fraction_default_witness :
  exists m hi lo,
    uncertainties_fraction reference (PyInt 1) (PyInt 10)
      (default_q reference)
    = Ok (NdFloat [Fin m; Fin hi; Fin lo])
    /\ 0 < lo /\ lo < m /\ m < hi /\ hi < 1.
Proof.
  apply (uncertainties_fraction_default reference 1 10 reference_contract).
  lia.
Defined.

Lemma in_unit_real (q : R) :
  0 < q < 1 -> forallb in_unit (fdata (PyFloat (Fin q))) = true.
Proof.
  intros Hq. cbn [fdata forallb].
  rewrite (proj2 (in_unit_iff _)); [reflexivity | now exists q].
Qed.



Lemma beta_I_fewer (d a b : nat) (x : R) :
  (1 <= a)%nat -> (d + 1 <= b)%nat -> 0 < x < 1 -> (1 <= d)%nat ->
  beta_I (a + d) (b - d) x < beta_I a b x.
Proof.
  intros Ha Hb Hx Hd. induction Hd as [|d Hd IH].
  - replace (a + 1)%nat with (S a) by lia.
    rewrite beta_I_succ by lia.
    assert (0 < C (a + b - 1) a * x ^ a * (1 - x) ^ (b - 1)).
    { apply Rmult_lt_0_compat; [apply Rmult_lt_0_compat|].
      - apply C_pos. lia.
      - apply pow_lt. lra.
      - apply pow_lt. lra. }
    lra.
  - replace (a + S d)%nat with (S (a + d)) by lia.
    replace (b - S d)%nat with (b - d - 1)%nat by lia.
    rewrite beta_I_succ by lia.
    assert (0 < C (a + d + (b - d) - 1) (a + d) * x ^ (a + d)
                * (1 - x) ^ (b - d - 1)).
    { apply Rmult_lt_0_compat; [apply Rmult_lt_0_compat|].
      - apply C_pos. lia.
      - apply pow_lt. lra.
      - apply pow_lt. lra. }
    assert (beta_I (a + d) (b - d) x < beta_I a b x) by (apply IH; lia).
    lra.
Qed.

(** X21.  More hits give the larger fraction: for the same number of trials
    and the same quantile, [uncertainties_fraction] is strictly increasing
    in the number [k] of hits, [0 <= k <= n]. *)
Theorem uncertainties_fraction_more_hits (S : externals) (zk zk' zn : Z)
  (q : R) :
  contract S -> (0 <= zk < zk')%Z -> (zk' <= zn)%Z -> 0 < q < 1 ->
  exists x x',
    uncertainties_fraction S (PyInt zk) (PyInt zn) (PyFloat (Fin q))
    = Ok (NpFloat (Fin x))
    /\ uncertainties_fraction S (PyInt zk') (PyInt zn) (PyFloat (Fin q))
       = Ok (NpFloat (Fin x'))
    /\ x < x'.
Proof.
  intros HS Hz Hz' Hq.
  rewrite !uncertainties_fraction_int by (try lia; apply in_unit_real; lra).
  unfold ufunc1. cbn [kind_of np_kind fdata map of_floats].
  destruct (betaincinv_value S zk zn q HS) as [x [-> [Hx HI]]];
    [lia | exact Hq |].
  destruct (betaincinv_value S zk' zn q HS) as [x' [-> [Hx' HI']]];
    [lia | exact Hq |].
  exists x, x'. repeat split.
  apply (beta_I_order (Z.to_nat (zk' + 1)) (Z.to_nat (zn + 1 - zk')));
    try lia; try lra.
  rewrite HI', <- HI.
  pose proof (beta_I_fewer (Z.to_nat (zk' - zk)) (Z.to_nat (zk + 1))
                (Z.to_nat (zn + 1 - zk)) x) as H.
  replace (Z.to_nat (zk + 1) + Z.to_nat (zk' - zk))%nat
    with (Z.to_nat (zk' + 1)) in H by lia.
  replace (Z.to_nat (zn + 1 - zk) - Z.to_nat (zk' - zk))%nat
    with (Z.to_nat (zn + 1 - zk')) in H by lia.
  apply H; try lia. exact Hx.
Qed.

Lemma uncertainties_fraction_more_hits_witness :
  exists x x',
    uncertainties_fraction reference (PyInt 1) (PyInt 10)
      (PyFloat (Fin (/ 2)))
    = Ok (NpFloat (Fin x))
    /\ uncertainties_fraction reference (PyInt 4) (PyInt 10)
         (PyFloat (Fin (/ 2)))
       = Ok (NpFloat (Fin x'))
    /\ x < x'.
Proof.
  apply (uncertainties_fraction_more_hits reference 1 4 10 (/ 2)
           reference_contract).
  - lia.
  - lia.
  - lra.
Defined.

(** ** The property tests cannot fail *)

Lemma in_unit_split (l : list f64) :
  forallb in_unit l
  = forallb (fun x => fgt x (of_Z 0)) l && forallb (fun x => flt x (of_Z 1)) l.
Proof. now rewrite forallb_andb. Qed.

Lemma forallb_Forall_bool {A : Type} (p : A -> bool) (P : A -> Prop)
  (l : list A) :
  (forall x, P x -> p x = true) -> Forall P l -> forallb p l = true.
Proof.
  intros H HF. apply forallb_forall. rewrite Forall_forall in HF.
  intros x Hx. apply H, HF, Hx.
Qed.

Lemma vfits_length (v : pyval) : vfits (length (fdata v)) v.
Proof. right. reflexivity. Qed.

Lemma counts_nonneg (l : list Z) :
  Forall countstrategy l ->
  Forall (fun x => fle (Fin 0) x = true) (map of_Z l).
Proof.
  intros H. apply Forall_map. eapply Forall_impl; [|exact H].
  intros z [Hz _]. unfold of_Z. simpl. apply Rleb_true. now apply IZR_le.
Qed.

Lemma counts_integer (k : pyval) :
  counts k ->
  is_integer_typed k = true
  /\ Forall (fun x => fle (Fin 0) x = true) (fdata k).
Proof.
  intros [[z [-> Hz]]|[l [-> [_ Hl]]]]; (split; [reflexivity|]).
  - apply (counts_nonneg [z]). now constructor.
  - now apply counts_nonneg.
Qed.

(** What [test_rate] does on counts [k] and a number [q]. *)
Lemma test_rate_outcome (S : externals) (k q : pyval) :
  contract S -> counts k -> kind_of q <> KNd ->
  test_rate S k q
  = Ok (if forallb in_unit (fdata q) then Passed else Discarded).
Proof.
  intros HS Hc Hq. destruct (counts_integer k Hc) as [Hi Hk].
  destruct (np_all_compare fgt q 0) as [c1 [E1 H1]].
  destruct (np_all_compare flt q 1) as [c2 [E2 H2]].
  unfold test_rate, py_gt, py_lt, assume.
  rewrite E1. cbn [bind]. rewrite H1, in_unit_split.
  destruct (forallb (fun x => fgt x (of_Z 0)) (fdata q)) eqn:G1;
    [|reflexivity].
  rewrite E2. cbn [bind]. rewrite H2.
  destruct (forallb (fun x => flt x (of_Z 1)) (fdata q)) eqn:G2;
    [|reflexivity].
  cbn [andb].
  assert (Hu : forallb in_unit (fdata q) = true).
  { now rewrite in_unit_split, G1, G2. }
  rewrite uncertainties_rate_asserts, Hi, Hu. cbn [andb].
  set (L := length (fdata k)).
  assert (Fk : vfits L k) by apply vfits_length.
  assert (Fq : vfits L q) by now apply vfits_scalar.
  assert (Fe : vfits L (PyFloat (Fin 1))) by apply vfits_float.
  destruct (rate_quantiles_values S L k q _ Fk Fq Fe) as [r [Er _]].
  pose proof (rate_quantiles_positive S L k q (PyFloat (Fin 1)) r HS Hi Hu Hk)
    as Hpos.
  rewrite Er. cbn [bind].
  destruct (np_all_compare fgt r 0) as [c3 [E3 H3]].
  fold (py_gt r (PyInt 0)). unfold py_gt. rewrite E3. cbn [bind]. rewrite H3.
  rewrite (forallb_Forall_bool _ (fun v => exists x, v = Fin x /\ 0 < x)).
  - reflexivity.
  - intros v [x [-> Hx]]. unfold fgt, of_Z. simpl. now apply Rltb_true.
  - apply Hpos; try assumption.
    repeat constructor. exists 1. split; [reflexivity | lra].
Qed.

(** X22.  The repository's property test of [uncertainties_rate] cannot
    fail on what its strategies draw: for a count or a non-empty array of
    counts [k], from 0 to [10^8], and a double [q] from 0 to 1, [test_rate]
    passes when [0 < q < 1] and is discarded by its [assume] otherwise. *)
Theorem test_rate_passes (S : externals) (k : pyval) (x : f64) :
  contract S -> counts k -> probstrategy x ->
  test_rate S k (PyFloat x) = Ok (if in_unit x then Passed else Discarded).
Proof.
  intros HS Hk _.
  rewrite (test_rate_outcome S k (PyFloat x) HS Hk) by discriminate.
  cbn [fdata forallb]. now rewrite andb_true_r.
Qed.

Lemma test_rate_passes_witness :
  test_rate reference (NdInt [1; 0; 7]%Z) (PyFloat (Fin (/ 2)))
  = Ok (if in_unit (Fin (/ 2)) then Passed else Discarded).
Proof.
  apply (test_rate_passes reference (NdInt [1; 0; 7]%Z) (Fin (/ 2))
           reference_contract).
  - right. exists [1; 0; 7]%Z. split; [reflexivity|].
    split; [discriminate|]. repeat constructor; lia.
  - exists (/ 2). split; [reflexivity | lra].
Defined.

Lemma arith_integer_typed (fz : Z -> Z -> Z) (ff : f64 -> f64 -> f64)
  (a b c : pyval) :
  is_integer_typed a = true -> is_integer_typed b = true ->
  arith fz ff a b = Ok c -> is_integer_typed c = true.
Proof.
  intros Ha Hb. unfold arith.
  destruct a; try discriminate; destruct b; try discriminate;
    cbn [zdata]; intros H; apply bind_Ok in H; destruct H as [l [_ H]];
    injection H as <-; unfold of_ints;
    repeat match goal with |- context [match ?x with _ => _ end] =>
             destruct x end; reflexivity.
Qed.

Lemma count_pairs_integer (k kmore : pyval) :
  count_pairs k kmore ->
  counts k /\ is_integer_typed kmore = true
  /\ Forall (fun x => fle (Fin 0) x = true) (fdata kmore)
  /\ vfits (length (fdata k)) kmore.
Proof.
  intros [[a [b [-> [-> [Ha Hb]]]]]|[la [lb [-> [-> [Hne [Hlen [Ha Hb]]]]]]]].
  - split; [left; now exists a|]. split; [reflexivity|].
    split; [apply (counts_nonneg [b]); now constructor | now left].
  - split; [right; now exists la|]. split; [reflexivity|].
    split; [now apply counts_nonneg|].
    right. cbn [fdata]. rewrite !length_map. now symmetry.
Qed.

(** What [test_fraction] does on two counts, or two arrays of counts of one
    shape, and a number [q]. *)
Lemma test_fraction_outcome (S : externals) (k kmore q : pyval) :
  contract S -> count_pairs k kmore -> kind_of q <> KNd ->
  test_fraction S k kmore q
  = Ok (if forallb in_unit (fdata q) then Passed else Discarded).
Proof.
  intros HS Hp Hq.
  destruct (count_pairs_integer k kmore Hp) as [Hc [Him [Hm Fm]]].
  destruct (counts_integer k Hc) as [Hik Hk].
  set (L := length (fdata k)) in *.
  assert (Fk : vfits L k) by apply vfits_length.
  destruct (py_add_fits L k kmore Fk Fm) as [n [En Fn]].
  destruct (np_all_compare fgt q 0) as [c1 [E1 H1]].
  destruct (np_all_compare flt q 1) as [c2 [E2 H2]].
  unfold test_fraction, py_gt, py_lt, assume.
  rewrite En. cbn [bind].
  rewrite E1. cbn [bind]. rewrite H1, in_unit_split.
  destruct (forallb (fun x => fgt x (of_Z 0)) (fdata q)) eqn:G1;
    [|reflexivity].
  rewrite E2. cbn [bind]. rewrite H2.
  destruct (forallb (fun x => flt x (of_Z 1)) (fdata q)) eqn:G2;
    [|reflexivity].
  cbn [andb].
  assert (Hu : forallb in_unit (fdata q) = true).
  { now rewrite in_unit_split, G1, G2. }
  assert (Hin : is_integer_typed n = true).
  { exact (arith_integer_typed _ _ k kmore n Hik Him En). }
  assert (Hkn : forall i x y, vat k i = Some x -> vat n i = Some y ->
                              fle (Fin 0) x = true /\ fle x y = true).
  { intros i x y Hx Hy.
    destruct (py_add_at k kmore n i y En Hy) as [xk [xm [Hxk [Hxm ->]]]].
    rewrite Hx in Hxk. injection Hxk as <-.
    rewrite Forall_forall in Hk, Hm.
    pose proof (Hk _ (lat_In _ _ _ Hx)) as Hx0.
    pose proof (Hm _ (lat_In _ _ _ Hxm)) as Hm0.
    destruct (integer_typed_elements k x Hik (lat_In _ _ _ Hx)) as [a ->].
    destruct (integer_typed_elements kmore xm Him (lat_In _ _ _ Hxm))
      as [c ->].
    split; [exact Hx0|]. apply fle_0_of_Z in Hm0.
    unfold of_Z. simpl. apply Rleb_true. apply IZR_le in Hm0. lra. }
  rewrite uncertainties_fraction_asserts, Hik, Hin. cbn [andb].
  destruct (compare_fits fle L k n Fk Fn) as [c Ec].
  fold (py_le k n) in Ec. rewrite Ec. cbn [bind].
  assert (Hall : np_all c = true).
  { apply (np_all_le k n c Ec). intros i x y Hx Hy.
    apply (Hkn i x y Hx Hy). }
  rewrite Hall, Hu. cbn [andb].
  assert (Fq : vfits L q) by now apply vfits_scalar.
  destruct (fraction_quantiles_values S L k n q Fk Fn Fq) as [r [Er _]].
  assert (Hii : is_integer_typed k && is_integer_typed n = true).
  { now rewrite Hik, Hin. }
  pose proof (fraction_quantiles_unit S L k n q r HS Hii Hu Hkn Fk Fn Fq Er)
    as Hunit.
  rewrite Er. cbn [bind].
  destruct (np_all_compare fge r 0) as [c3 [E3 H3]].
  destruct (np_all_compare fle r 1) as [c4 [E4 H4]].
  unfold py_ge, py_le. rewrite E3. cbn [bind]. rewrite H3.
  rewrite (forallb_Forall_bool _ (fun v => exists x, v = Fin x /\ 0 <= x <= 1));
    [| |exact Hunit].
  - cbn [py_assert bind]. rewrite E4. cbn [bind]. rewrite H4.
    rewrite (forallb_Forall_bool _
               (fun v => exists x, v = Fin x /\ 0 <= x <= 1));
      [reflexivity| |exact Hunit].
    intros v [x [-> Hx]]. unfold of_Z. simpl. apply Rleb_true. lra.
  - intros v [x [-> Hx]]. unfold fge, of_Z. simpl. apply Rleb_true. lra.
Qed.

(** X23.  The repository's property test of [uncertainties_fraction] cannot
    fail on what its strategies draw: for two counts, or two non-empty
    arrays of counts of one shape, [k] and [kmore], from 0 to [10^8], so
    that [n = k + kmore >= k], and a double [q] from 0 to 1,
    [test_fraction] passes when [0 < q < 1] and is discarded by its
    [assume] otherwise. *)
Theorem test_fraction_passes (S : externals) (k kmore : pyval) (x : f64) :
  contract S -> count_pairs k kmore -> probstrategy x ->
  test_fraction S k kmore (PyFloat x)
  = Ok (if in_unit x then Passed else Discarded).
Proof.
  intros HS Hp _.
  rewrite (test_fraction_outcome S k kmore (PyFloat x) HS Hp)
    by discriminate.
  cbn [fdata forallb]. now rewrite andb_true_r.
Qed.

Lemma test_fraction_passes_witness :
  test_fraction reference (NdInt [1; 0]%Z) (NdInt [9; 0]%Z)
    (PyFloat (Fin (/ 2)))
  = Ok (if in_unit (Fin (/ 2)) then Passed else Discarded).
Proof.
  apply (test_fraction_passes reference (NdInt [1; 0]%Z) (NdInt [9; 0]%Z)
           (Fin (/ 2)) reference_contract).
  - right. exists [1; 0]%Z, [9; 0]%Z. split; [reflexivity|].
    split; [reflexivity|]. split; [discriminate|]. split; [reflexivity|].
    split; repeat constructor; lia.
  - exists (/ 2). split; [reflexivity | lra].
Defined.
